(** * Page-interaction script of the landing page (src/script.js)

    A shallow embedding of the client-side script: the values it computes
    with (strings of UTF-16 code units, IEEE 754 binary64 numbers), the host
    objects it touches (elements, style declarations, listeners, observers,
    timers) and each of its handlers, followed by the properties of its
    components. *)

From Stdlib Require Import ZArith List Bool String Ascii Lia.
From Stdlib Require Import Floats.PrimFloat Floats.FloatOps Floats.SpecFloat.
From stdpp Require Import base decidable option list functions gmap.
Import ListNotations.

Local Open Scope Z_scope.

(** ** Strings

    A JavaScript string is a sequence of 16-bit code units. *)

Abbreviation jsstring := (list Z).

(** An ASCII literal of the source, as code units. *)
Definition js (s : string) : jsstring :=
  map (fun a => Z.of_N (N_of_ascii a)) (list_ascii_of_string s).

(** ['∞'], the single code unit U+221E. *)
Definition INFINITY_SIGN : jsstring := [0x221E].

Definition PLUS : Z := 43.

(** [s.includes(c)] for a one-unit search string. *)
Definition includes (c : Z) (s : jsstring) : bool := existsb (Z.eqb c) s.

(** [s.replace(c, repl)] for a one-unit string pattern: only the first
    occurrence is replaced. *)
Fixpoint replace (c : Z) (repl : jsstring) (s : jsstring) : jsstring :=
  match s with
  | [] => []
  | x :: r => if x =? c then repl ++ r else x :: replace c repl r
  end.

(** [s.charAt(i)]: the one-unit string at index [i], or the empty string. *)
Definition charAt (s : jsstring) (i : nat) : jsstring :=
  match nth_error s i with Some c => [c] | None => [] end.

(** ** Numbers

    A JavaScript Number is a binary64 float. *)

Definition Z2float (z : Z) : float :=
  SF2Prim (binary_normalize prec emax z 0 false).

(** [Math.floor]. *)
Definition Math_floor (x : float) : float :=
  match Prim2SF x with
  | S754_finite s m e =>
      if 0 <=? e then x
      else
        let q := Z.shiftr (Z.pos m) (- e) in
        let exact := Z.shiftl q (- e) =? Z.pos m in
        if s then Z2float (- (if exact then q else q + 1))
        else Z2float q
  | _ => x
  end.

(** White space and line terminators skipped by [parseInt]. *)
Definition isStrWhiteSpaceChar (c : Z) : bool :=
  (9 <=? c) && (c <=? 13) || (c =? 0x20) || (c =? 0xA0) || (c =? 0x1680)
  || (0x2000 <=? c) && (c <=? 0x200A) || (c =? 0x2028) || (c =? 0x2029)
  || (c =? 0x202F) || (c =? 0x205F) || (c =? 0x3000) || (c =? 0xFEFF).

Fixpoint trimStart (s : jsstring) : jsstring :=
  match s with
  | c :: r => if isStrWhiteSpaceChar c then trimStart r else s
  | [] => []
  end.

(** The value of a code unit as a digit, when it is one in some radix up to
    36. *)
Definition digitValue (c : Z) : option Z :=
  if (48 <=? c) && (c <=? 57) then Some (c - 48)
  else if (97 <=? c) && (c <=? 122) then Some (c - 87)
  else if (65 <=? c) && (c <=? 90) then Some (c - 55)
  else None.

(** The longest prefix of radix-[R] digits, read as an integer. *)
Fixpoint parseDigits (R : Z) (s : jsstring) (acc : option Z) : option Z :=
  match s with
  | c :: r =>
      match digitValue c with
      | Some d =>
          if d <? R then parseDigits R r (Some (R * default 0 acc + d))
          else acc
      | None => acc
      end
  | [] => acc
  end.

(** [parseInt(s)] with no radix argument: the integer that the digits
    spell, rounded to the nearest Number, or NaN when there is no digit. *)
Definition parseInt (s : jsstring) : float :=
  let S1 := trimStart s in
  let '(neg, S2) :=
    match S1 with
    | c :: r => if c =? 45 then (true, r)
                else if c =? PLUS then (false, r) else (false, S1)
    | [] => (false, S1)
    end in
  let '(R, S3) :=
    match S2 with
    | 48 :: x :: r => if (x =? 120) || (x =? 88) then (16, r) else (10, S2)
    | _ => (10, S2)
    end in
  match parseDigits R S3 None with
  | None => nan
  | Some 0 => if neg then neg_zero else zero
  | Some n => Z2float (if neg then - n else n)
  end.

(** *** Number to string

    [Number::toString] in radix 10: the digits [s], their count [k] and the
    decimal exponent [n] are those of the shortest decimal that rounds back
    to the number, the closest one when there are several. *)

Fixpoint digits_fuel (fuel : nat) (n : Z) (acc : jsstring) : jsstring :=
  match fuel with
  | O => acc
  | S f =>
      let acc' := (48 + n mod 10) :: acc in
      if n <? 10 then acc' else digits_fuel f (n / 10) acc'
  end.

(** Decimal digits of a non-negative integer, most significant first. *)
Definition digits (n : Z) : jsstring :=
  digits_fuel (S (Z.to_nat (Z.log2 n))) n [].

(** [s * 10^p] compared with [a * 2^q], exactly. *)
Definition cmp_scaled (s p a q : Z) : comparison :=
  (s * 10 ^ Z.max p 0 * 2 ^ Z.max (- q) 0)
  ?= (a * 2 ^ Z.max q 0 * 10 ^ Z.max (- p) 0).

(** Whether the real [s * 10^p] rounds (to nearest, ties to even) to the
    positive finite float [m * 2^e]. *)
Definition rounds_to (m : positive) (e : Z) (s p : Z) : bool :=
  let lowgap := if (Z.pos m =? 2 ^ 52) && (-1074 <? e) then 1 else 2 in
  let even := Z.even (Z.pos m) in
  let cl := cmp_scaled s p (4 * Z.pos m - lowgap) (e - 2) in
  let ch := cmp_scaled s p (4 * Z.pos m + 2) (e - 2) in
  match cl with Gt => true | Eq => even | Lt => false end
  && match ch with Lt => true | Eq => even | Gt => false end.

(** The distance of [s * 10^p] to [m * 2^e], times a factor that depends on
    [p] and [e] only. *)
Definition dist_scaled (m : positive) (e : Z) (s p : Z) : Z :=
  Z.abs (s * 10 ^ Z.max p 0 * 2 ^ Z.max (- e) 0
         - Z.pos m * 2 ^ Z.max e 0 * 10 ^ Z.max (- p) 0).

(** The [k]-digit candidates with decimal exponent [n]. *)
Definition candidate (m : positive) (e : Z) (k n : Z) : option Z :=
  let p := n - k in
  let lo := (Z.pos m * 2 ^ Z.max e 0 * 10 ^ Z.max (- p) 0)
            / (2 ^ Z.max (- e) 0 * 10 ^ Z.max p 0) in
  let ok s := (10 ^ (k - 1) <=? s) && (s <? 10 ^ k) && rounds_to m e s p in
  match ok lo, ok (lo + 1) with
  | true, true =>
      match dist_scaled m e lo p ?= dist_scaled m e (lo + 1) p with
      | Lt => Some lo
      | Gt => Some (lo + 1)
      | Eq => Some (if Z.even lo then lo else lo + 1)
      end
  | true, false => Some lo
  | false, true => Some (lo + 1)
  | false, false => None
  end.

Fixpoint first_candidate (m : positive) (e : Z) (kns : list (Z * Z))
  : option (Z * Z * Z) :=
  match kns with
  | [] => None
  | (k, n) :: r =>
      match candidate m e k n with
      | Some s => Some (s, k, n)
      | None => first_candidate m e r
      end
  end.

(** The pairs [(k, n)] tried: [k] from 1 to 17, [n] around the estimate of
    the decimal exponent. *)
Definition search_space (m : positive) (e : Z) : list (Z * Z) :=
  let est := (Z.log2 (Z.pos m) + e) * 30103 / 100000 in
  flat_map (fun k => map (fun d => (k, est + d)) [-1; 0; 1; 2; 3])
           [1; 2; 3; 4; 5; 6; 7; 8; 9; 10; 11; 12; 13; 14; 15; 16; 17].

Definition zeros (n : Z) : jsstring := repeat 48 (Z.to_nat n).

Definition format_decimal (s k n : Z) : jsstring :=
  let ds := digits s in
  if (k <=? n) && (n <=? 21) then ds ++ zeros (n - k)
  else if (0 <? n) && (n <=? 21) then
    firstn (Z.to_nat n) ds ++ js "." ++ skipn (Z.to_nat n) ds
  else if (-6 <? n) && (n <=? 0) then js "0." ++ zeros (- n) ++ ds
  else
    let e := n - 1 in
    let sign := if e <? 0 then js "-" else js "+" in
    if k =? 1 then ds ++ js "e" ++ sign ++ digits (Z.abs e)
    else firstn 1 ds ++ js "." ++ skipn 1 ds ++ js "e" ++ sign
         ++ digits (Z.abs e).

Definition Number_toString (x : float) : jsstring :=
  match Prim2SF x with
  | S754_nan => js "NaN"
  | S754_zero _ => js "0"
  | S754_infinity s => if s then js "-Infinity" else js "Infinity"
  | S754_finite sg m e =>
      (if sg then js "-" else [])
      ++ match first_candidate m e (search_space m e) with
         | Some (s, k, n) => format_decimal s k n
         | None => []
         end
  end.

(** ** The document

    Elements are known by identity: one element may be matched by several
    selectors, and what one handler writes another one finds.  An element
    carries its children (as far as the script reads or writes them), the
    inline style properties and the class tokens the script assigns, and its
    [src].  The content of an element is its own: the elements whose text
    the script writes (the counters, the title) are taken not to lie inside
    one another.  The title is an ordinary element, one whose text is
    escaped when it is serialised. *)

Abbreviation ElemId := nat.

(** The children of an element: at most one text node, or anything else,
    known by its serialisation and its text. *)
Inductive Content :=
| Text (data : jsstring)
| Markup (html text : jsstring).

(** The value last assigned to each inline style property; the script
    assigns them and never reads them back. *)
Record Style := mkStyle {
  opacity : jsstring;
  transform : jsstring;
  transition : jsstring;
  background : jsstring;
  boxShadow : jsstring;
  animation : jsstring;
  cssText : jsstring
}.

Record Element := mkElement {
  content : Content;
  style : Style;
  classList : list jsstring;
  src : jsstring
}.

Definition noStyle : Style := mkStyle [] [] [] [] [] [] [].

(** A node made by [document.createElement]. *)
Definition newElement : Element := mkElement (Text []) noStyle [] [].

Definition set_opacity (v : jsstring) (s : Style) : Style :=
  mkStyle v (transform s) (transition s) (background s) (boxShadow s)
          (animation s) (cssText s).
Definition set_transform (v : jsstring) (s : Style) : Style :=
  mkStyle (opacity s) v (transition s) (background s) (boxShadow s)
          (animation s) (cssText s).
Definition set_transition (v : jsstring) (s : Style) : Style :=
  mkStyle (opacity s) (transform s) v (background s) (boxShadow s)
          (animation s) (cssText s).
Definition set_background (v : jsstring) (s : Style) : Style :=
  mkStyle (opacity s) (transform s) (transition s) v (boxShadow s)
          (animation s) (cssText s).
Definition set_boxShadow (v : jsstring) (s : Style) : Style :=
  mkStyle (opacity s) (transform s) (transition s) (background s) v
          (animation s) (cssText s).
Definition set_animation (v : jsstring) (s : Style) : Style :=
  mkStyle (opacity s) (transform s) (transition s) (background s)
          (boxShadow s) v (cssText s).
Definition set_cssText (v : jsstring) (s : Style) : Style :=
  mkStyle (opacity s) (transform s) (transition s) (background s)
          (boxShadow s) (animation s) v.

Definition with_style (f : Style -> Style) (e : Element) : Element :=
  mkElement (content e) (f (style e)) (classList e) (src e).
Definition with_content (c : Content) (e : Element) : Element :=
  mkElement c (style e) (classList e) (src e).
Definition with_classList (f : list jsstring -> list jsstring) (e : Element)
  : Element :=
  mkElement (content e) (style e) (f (classList e)) (src e).
Definition with_src (v : jsstring) (e : Element) : Element :=
  mkElement (content e) (style e) (classList e) v.

(** *** Text and markup of an element *)

Definition AMP : Z := 38.
Definition LT : Z := 60.
Definition GT : Z := 62.
Definition NBSP : Z := 0xA0.

(** Escaping of a text node when it is serialised. *)
Definition escape1 (c : Z) : jsstring :=
  if c =? AMP then js "&amp;"
  else if c =? NBSP then js "&nbsp;"
  else if c =? LT then js "&lt;"
  else if c =? GT then js "&gt;"
  else [c].

Definition escape (s : jsstring) : jsstring := flat_map escape1 s.

Definition isAsciiAlpha (c : Z) : bool :=
  (65 <=? c) && (c <=? 90) || (97 <=? c) && (c <=? 122).
Definition isAsciiAlnum (c : Z) : bool :=
  isAsciiAlpha c || (48 <=? c) && (c <=? 57).

(** [s] without the prefix [p], when it starts with it. *)
Fixpoint strip_prefix (p s : jsstring) : option jsstring :=
  match p, s with
  | [], _ => Some s
  | a :: p', b :: s' => if a =? b then strip_prefix p' s' else None
  | _ :: _, [] => None
  end.

Definition starts_with (p s : jsstring) : bool :=
  match strip_prefix p s with Some _ => true | None => false end.

(** The character references that [escape] writes, read after their
    ampersand: the character and the length of its name. *)
Definition reference (s : jsstring) : option (Z * nat) :=
  if starts_with (js "amp;") s then Some (AMP, 4%nat)
  else if starts_with (js "nbsp;") s then Some (NBSP, 5%nat)
  else if starts_with (js "lt;") s then Some (LT, 3%nat)
  else if starts_with (js "gt;") s then Some (GT, 3%nat)
  else None.

(** The HTML parser on a string that holds character data only: the
    references that [escape] writes, an ampersand or a less-than sign that
    starts no reference and no tag, carriage returns (read as line feeds) and
    NUL (dropped).  [None] on a string with a tag, a comment or another
    character reference.  [skip] counts the units of a reference name still
    to pass over. *)
Fixpoint parseText (skip : nat) (s : jsstring) : option jsstring :=
  match s with
  | [] => Some []
  | x :: t =>
      match skip with
      | S k => parseText k t
      | O =>
          if x =? 0 then parseText 0 t
          else if x =? 13 then
            cons 10 <$> parseText (if starts_with [10] t then 1 else 0) t
          else if x =? AMP then
            match reference t with
            | Some (ch, n) => cons ch <$> parseText n t
            | None =>
                match t with
                | [] => Some [AMP]
                | c :: _ =>
                    if isAsciiAlnum c || (c =? 35) then None
                    else cons AMP <$> parseText 0 t
                end
            end
          else if x =? LT then
            match t with
            | [] => Some [LT]
            | c :: _ =>
                if isAsciiAlpha c || (c =? 47) || (c =? 33) || (c =? 63)
                then None
                else cons LT <$> parseText 0 t
            end
          else cons x <$> parseText 0 t
      end
  end.

Definition textContent (e : Element) : jsstring :=
  match content e with Text t => t | Markup _ t => t end.

Definition innerHTML (e : Element) : jsstring :=
  match content e with Text t => escape t | Markup h _ => h end.

(** *** What the host answers *)

(** The result of [document.querySelector] on a selector held in a string. *)
Inductive QueryResult :=
| QFound (e : ElemId)
| QNull
| QSyntaxError.

(** The element tree under [body], by identity. *)
#[warnings="-register-all"]
Inductive Node := El (id : ElemId) (children : list Node).

Definition node_id (n : Node) : ElemId := match n with El i _ => i end.

Fixpoint node_size (n : Node) : nat :=
  match n with
  | El _ cs => S (list_sum (map node_size cs))
  end.

(** The number of elements under [body]. *)
Definition element_count (ns : list Node) : nat := list_sum (map node_size ns).

(** A page, as the script finds it: what each of its selectors matches, the
    attributes and layout it reads, and the elements as they are before the
    script runs.  The script adds and removes no class but 'active' and
    creates elements without classes, so what a selector matches does not
    change while the page lives.  [parseMarkup] is the host's HTML parser on
    the strings that [parseText] leaves out. *)
Record Page := mkPage {
  q_hamburger : option ElemId;      (* '.hamburger' *)
  q_navMenu : option ElemId;        (* '.nav-menu' *)
  q_navLinks : list ElemId;         (* '.nav-menu a' *)
  q_anchors : list ElemId;          (* 'a[href^="#"]' *)
  q_navbar : option ElemId;         (* '.navbar' *)
  q_animated : list ElemId;         (* '.about-grid, .gallery-item, .achievement-card, .stat' *)
  q_stats : list ElemId;            (* '.stat h4' *)
  q_hero : option ElemId;           (* '.hero' *)
  q_heroTitle : option ElemId;      (* '.hero-title' *)
  q_images : list ElemId;           (* 'img' *)
  q_btns : list ElemId;             (* '.btn' *)
  q_galleryImgs : list ElemId;      (* '.gallery-item img' *)
  querySelector : jsstring -> QueryResult;
  href : ElemId -> jsstring;
  offsetTop : ElemId -> Z;
  complete : ElemId -> bool;
  parseMarkup : jsstring -> Content;
  elements0 : ElemId -> Element;
  body0 : list Node;
  fresh0 : ElemId
}.

(** ** Listeners, observers and timers *)

(** A listener the script registers, with the variables its closure holds. *)
Inductive Listener :=
| OnHamburgerClick (hamburger : ElemId)
| OnNavLinkClick (link : ElemId)
| OnAnchorClick (anchor : ElemId)
| OnScrollNavbar
| OnDOMContentLoaded
| OnScrollParallax
| OnImgLoad (img : ElemId)
| OnKeydown
| OnBtnMouseenter (btn : ElemId)
| OnBtnMouseleave (btn : ElemId)
| OnGalleryClick (img : ElemId)
| OnModalClick (modal : ElemId).

(** The variables of one call of [animateCounter], shared with its interval
    callback. *)
Record CounterEnv := mkCounterEnv {
  element : ElemId;
  target : jsstring;
  numericTarget : float;
  increment : float;
  current : float
}.

Inductive Callback :=
| CounterTick (env : CounterEnv)
| TypeWriter
| KonamiEnd.

(** An entry of the host's timer table: [setInterval] entries repeat until
    cleared, [setTimeout] entries run once. *)
Record Timer := mkTimer {
  repeats : bool;
  delay : Z;
  callback : Callback
}.

Inductive ObserverId := RevealObserver | StatsObserver.

Record ScrollToOptions := mkScrollTo { top : Z; behavior : jsstring }.

Inductive Exn := TypeError | SyntaxError | NotFoundError.

(** The state of the page and of the script. *)
#[projections(primitive)]
Record World := mkWorld {
  page : Page;
  elems : ElemId -> Element;
  body : list Node;
  next_id : ElemId;
  head_styles : list jsstring;               (* style sheets appended to head *)
  body_style : Style;                        (* document.body.style *)
  scrollY : float;                           (* window.scrollY, window.pageYOffset *)
  listeners : list Listener;                 (* in registration order *)
  observed : list ElemId;                    (* targets of observer *)
  statsObserved : list ElemId;               (* targets of statsObserver *)
  timers : gmap nat Timer;
  next_timer : nat;
  originalText : jsstring;
  i : nat;
  konamiIndex : nat;
  domContentLoaded : bool;                   (* the event has been fired *)
  prevented : list ElemId;                   (* clicks whose default was prevented *)
  scrolls : list ScrollToOptions;            (* calls of window.scrollTo *)
  alerts : list jsstring;                    (* calls of alert *)
  errors : list Exn                          (* uncaught exceptions *)
}.

Definition set_elems f (w : World) : World :=
  mkWorld (page w) (f (elems w)) (body w) (next_id w) (head_styles w)
    (body_style w) (scrollY w) (listeners w) (observed w) (statsObserved w)
    (timers w) (next_timer w) (originalText w) (i w) (konamiIndex w)
    (domContentLoaded w) (prevented w) (scrolls w) (alerts w) (errors w).
Definition set_body f (w : World) : World :=
  mkWorld (page w) (elems w) (f (body w)) (next_id w) (head_styles w)
    (body_style w) (scrollY w) (listeners w) (observed w) (statsObserved w)
    (timers w) (next_timer w) (originalText w) (i w) (konamiIndex w)
    (domContentLoaded w) (prevented w) (scrolls w) (alerts w) (errors w).
Definition set_next_id f (w : World) : World :=
  mkWorld (page w) (elems w) (body w) (f (next_id w)) (head_styles w)
    (body_style w) (scrollY w) (listeners w) (observed w) (statsObserved w)
    (timers w) (next_timer w) (originalText w) (i w) (konamiIndex w)
    (domContentLoaded w) (prevented w) (scrolls w) (alerts w) (errors w).
Definition set_head_styles f (w : World) : World :=
  mkWorld (page w) (elems w) (body w) (next_id w) (f (head_styles w))
    (body_style w) (scrollY w) (listeners w) (observed w) (statsObserved w)
    (timers w) (next_timer w) (originalText w) (i w) (konamiIndex w)
    (domContentLoaded w) (prevented w) (scrolls w) (alerts w) (errors w).
Definition set_body_style f (w : World) : World :=
  mkWorld (page w) (elems w) (body w) (next_id w) (head_styles w)
    (f (body_style w)) (scrollY w) (listeners w) (observed w) (statsObserved w)
    (timers w) (next_timer w) (originalText w) (i w) (konamiIndex w)
    (domContentLoaded w) (prevented w) (scrolls w) (alerts w) (errors w).
Definition set_scrollY f (w : World) : World :=
  mkWorld (page w) (elems w) (body w) (next_id w) (head_styles w)
    (body_style w) (f (scrollY w)) (listeners w) (observed w) (statsObserved w)
    (timers w) (next_timer w) (originalText w) (i w) (konamiIndex w)
    (domContentLoaded w) (prevented w) (scrolls w) (alerts w) (errors w).
Definition set_listeners f (w : World) : World :=
  mkWorld (page w) (elems w) (body w) (next_id w) (head_styles w)
    (body_style w) (scrollY w) (f (listeners w)) (observed w) (statsObserved w)
    (timers w) (next_timer w) (originalText w) (i w) (konamiIndex w)
    (domContentLoaded w) (prevented w) (scrolls w) (alerts w) (errors w).
Definition set_observed f (w : World) : World :=
  mkWorld (page w) (elems w) (body w) (next_id w) (head_styles w)
    (body_style w) (scrollY w) (listeners w) (f (observed w)) (statsObserved w)
    (timers w) (next_timer w) (originalText w) (i w) (konamiIndex w)
    (domContentLoaded w) (prevented w) (scrolls w) (alerts w) (errors w).
Definition set_statsObserved f (w : World) : World :=
  mkWorld (page w) (elems w) (body w) (next_id w) (head_styles w)
    (body_style w) (scrollY w) (listeners w) (observed w) (f (statsObserved w))
    (timers w) (next_timer w) (originalText w) (i w) (konamiIndex w)
    (domContentLoaded w) (prevented w) (scrolls w) (alerts w) (errors w).
Definition set_timers f (w : World) : World :=
  mkWorld (page w) (elems w) (body w) (next_id w) (head_styles w)
    (body_style w) (scrollY w) (listeners w) (observed w) (statsObserved w)
    (f (timers w)) (next_timer w) (originalText w) (i w) (konamiIndex w)
    (domContentLoaded w) (prevented w) (scrolls w) (alerts w) (errors w).
Definition set_next_timer f (w : World) : World :=
  mkWorld (page w) (elems w) (body w) (next_id w) (head_styles w)
    (body_style w) (scrollY w) (listeners w) (observed w) (statsObserved w)
    (timers w) (f (next_timer w)) (originalText w) (i w) (konamiIndex w)
    (domContentLoaded w) (prevented w) (scrolls w) (alerts w) (errors w).
Definition set_originalText f (w : World) : World :=
  mkWorld (page w) (elems w) (body w) (next_id w) (head_styles w)
    (body_style w) (scrollY w) (listeners w) (observed w) (statsObserved w)
    (timers w) (next_timer w) (f (originalText w)) (i w) (konamiIndex w)
    (domContentLoaded w) (prevented w) (scrolls w) (alerts w) (errors w).
Definition set_i f (w : World) : World :=
  mkWorld (page w) (elems w) (body w) (next_id w) (head_styles w)
    (body_style w) (scrollY w) (listeners w) (observed w) (statsObserved w)
    (timers w) (next_timer w) (originalText w) (f (i w)) (konamiIndex w)
    (domContentLoaded w) (prevented w) (scrolls w) (alerts w) (errors w).
Definition set_konamiIndex f (w : World) : World :=
  mkWorld (page w) (elems w) (body w) (next_id w) (head_styles w)
    (body_style w) (scrollY w) (listeners w) (observed w) (statsObserved w)
    (timers w) (next_timer w) (originalText w) (i w) (f (konamiIndex w))
    (domContentLoaded w) (prevented w) (scrolls w) (alerts w) (errors w).
Definition set_domContentLoaded f (w : World) : World :=
  mkWorld (page w) (elems w) (body w) (next_id w) (head_styles w)
    (body_style w) (scrollY w) (listeners w) (observed w) (statsObserved w)
    (timers w) (next_timer w) (originalText w) (i w) (konamiIndex w)
    (f (domContentLoaded w)) (prevented w) (scrolls w) (alerts w) (errors w).
Definition set_prevented f (w : World) : World :=
  mkWorld (page w) (elems w) (body w) (next_id w) (head_styles w)
    (body_style w) (scrollY w) (listeners w) (observed w) (statsObserved w)
    (timers w) (next_timer w) (originalText w) (i w) (konamiIndex w)
    (domContentLoaded w) (f (prevented w)) (scrolls w) (alerts w) (errors w).
Definition set_scrolls f (w : World) : World :=
  mkWorld (page w) (elems w) (body w) (next_id w) (head_styles w)
    (body_style w) (scrollY w) (listeners w) (observed w) (statsObserved w)
    (timers w) (next_timer w) (originalText w) (i w) (konamiIndex w)
    (domContentLoaded w) (prevented w) (f (scrolls w)) (alerts w) (errors w).
Definition set_alerts f (w : World) : World :=
  mkWorld (page w) (elems w) (body w) (next_id w) (head_styles w)
    (body_style w) (scrollY w) (listeners w) (observed w) (statsObserved w)
    (timers w) (next_timer w) (originalText w) (i w) (konamiIndex w)
    (domContentLoaded w) (prevented w) (scrolls w) (f (alerts w)) (errors w).
Definition set_errors f (w : World) : World :=
  mkWorld (page w) (elems w) (body w) (next_id w) (head_styles w)
    (body_style w) (scrollY w) (listeners w) (observed w) (statsObserved w)
    (timers w) (next_timer w) (originalText w) (i w) (konamiIndex w)
    (domContentLoaded w) (prevented w) (scrolls w) (alerts w) (f (errors w)).

(** ** Running the script

    A computation changes the world and returns or throws; what it changed
    before it threw stays changed. *)

Inductive Outcome (A : Type) :=
| Returned (a : A)
| Threw (e : Exn).
Arguments Returned {A} a.
Arguments Threw {A} e.

Definition JS (A : Type) : Type := World -> Outcome A * World.

#[global] Instance JS_ret : MRet JS := fun A a w => (Returned a, w).
#[global] Instance JS_bind : MBind JS := fun A B k m w =>
  match m w with
  | (Returned a, w') => k a w'
  | (Threw e, w') => (Threw e, w')
  end.

Definition throw {A} (e : Exn) : JS A := fun w => (Threw e, w).
Definition get : JS World := fun w => (Returned w, w).
Definition modify (f : World -> World) : JS unit := fun w => (Returned tt, f w).

(** Reading a property of what a selector returned: a [TypeError] on
    [null]. *)
Definition deref (o : option ElemId) : JS ElemId :=
  match o with
  | Some e => mret e
  | None => throw TypeError
  end.

Fixpoint forEach {A} (l : list A) (f : A -> JS unit) : JS unit :=
  match l with
  | [] => mret tt
  | x :: r => f x;; forEach r f
  end.

Definition update_elem (e : ElemId) (f : Element -> Element) : JS unit :=
  modify (set_elems (fun els => <[e := f (els e)]> els)).

Definition setStyle (e : ElemId) (f : Style -> Style) : JS unit :=
  update_elem e (with_style f).

(** [e.textContent = s] *)
Definition setTextContent (e : ElemId) (s : jsstring) : JS unit :=
  update_elem e (with_content (Text s)).

(** The children that [e.innerHTML = s] leaves. *)
Definition parseHTML (p : Page) (s : jsstring) : Content :=
  match parseText 0 s with
  | Some t => Text t
  | None => parseMarkup p s
  end.

Definition setInnerHTML (e : ElemId) (s : jsstring) : JS unit :=
  w ← get;
  update_elem e (with_content (parseHTML (page w) s)).

Definition addEventListener (l : Listener) : JS unit :=
  modify (set_listeners (fun ls => ls ++ [l])).

(** [setInterval] and [setTimeout]: a new entry of the timer table, and its
    identifier. *)
Definition setTimer (rep : bool) (ms : Z) (cb : Callback) : JS nat :=
  w ← get;
  let tid := next_timer w in
  modify (set_timers (fun ts => <[tid := mkTimer rep ms cb]> ts));;
  modify (set_next_timer S);;
  mret tid.

Definition clearInterval (tid : nat) : JS unit :=
  modify (set_timers (fun ts => delete tid ts)).

Definition observe (e : ElemId) (l : list ElemId) : list ElemId :=
  if bool_decide (e ∈ l) then l else l ++ [e].

Definition unobserve (e : ElemId) (l : list ElemId) : list ElemId :=
  filter (fun x => x ≠ e) l.

Definition ACTIVE : jsstring := js "active".

Definition classList_toggle (tok : jsstring) (l : list jsstring) : list jsstring :=
  if bool_decide (tok ∈ l) then filter (fun t => t ≠ tok) l else l ++ [tok].

Definition classList_remove (tok : jsstring) (l : list jsstring) : list jsstring :=
  filter (fun t => t ≠ tok) l.

(** *** Mobile navigation (lines 1-16) *)

Definition hamburger_click : JS unit :=
  w ← get;
  h ← deref (q_hamburger (page w));
  update_elem h (with_classList (classList_toggle ACTIVE));;
  m ← deref (q_navMenu (page w));
  update_elem m (with_classList (classList_toggle ACTIVE)).

Definition navLink_click : JS unit :=
  w ← get;
  h ← deref (q_hamburger (page w));
  update_elem h (with_classList (classList_remove ACTIVE));;
  m ← deref (q_navMenu (page w));
  update_elem m (with_classList (classList_remove ACTIVE)).

(** *** Smooth scrolling (lines 18-31) *)

Definition SMOOTH : jsstring := js "smooth".

Definition anchor_click (anchor : ElemId) : JS unit :=
  modify (set_prevented (fun l => l ++ [anchor]));;
  w ← get;
  match querySelector (page w) (href (page w) anchor) with
  | QSyntaxError => throw SyntaxError
  | QNull => mret tt
  | QFound target =>
      let offsetTop := offsetTop (page w) target - 80 in
      modify (set_scrolls (fun l => l ++ [mkScrollTo offsetTop SMOOTH]))
  end.

(** *** Navbar background on scroll (lines 33-43) *)

Definition ELEVATED_BACKGROUND : jsstring := js "rgba(255, 255, 255, 0.98)".
Definition ELEVATED_SHADOW : jsstring := js "0 2px 20px rgba(0, 0, 0, 0.1)".
Definition RESTING_BACKGROUND : jsstring := js "rgba(255, 255, 255, 0.95)".
Definition RESTING_SHADOW : jsstring := js "none".

Definition scroll_navbar : JS unit :=
  w ← get;
  let navbar := q_navbar (page w) in
  if (100 <? scrollY w)%float then
    nb ← deref navbar;
    setStyle nb (set_background ELEVATED_BACKGROUND);;
    setStyle nb (set_boxShadow ELEVATED_SHADOW)
  else
    nb ← deref navbar;
    setStyle nb (set_background RESTING_BACKGROUND);;
    setStyle nb (set_boxShadow RESTING_SHADOW).

(** *** Reveal on intersection (lines 45-69) *)

Definition REVEALED_OPACITY : jsstring := js "1".
Definition REVEALED_TRANSFORM : jsstring := js "translateY(0)".
Definition HIDDEN_OPACITY : jsstring := js "0".
Definition HIDDEN_TRANSFORM : jsstring := js "translateY(30px)".
Definition REVEAL_TRANSITION : jsstring :=
  js "opacity 0.6s ease, transform 0.6s ease".

Definition observer_callback (entries : list (ElemId * bool)) : JS unit :=
  forEach entries (fun entry =>
    if snd entry then
      setStyle (fst entry) (set_opacity REVEALED_OPACITY);;
      setStyle (fst entry) (set_transform REVEALED_TRANSFORM)
    else mret tt).

(** *** Counter animation (lines 71-107) *)

Definition counter_tick (timer : nat) (env : CounterEnv) : JS unit :=
  let current := (current env + increment env)%float in
  modify (set_timers (fun ts =>
    <[timer := mkTimer true 30
                 (CounterTick (mkCounterEnv (element env) (target env)
                    (numericTarget env) (increment env) current))]> ts));;
  if (numericTarget env <=? current)%float then
    setTextContent (element env) (target env);;
    clearInterval timer
  else
    setTextContent (element env)
      (Number_toString (Math_floor current)
       ++ (if includes PLUS (target env) then js "+" else [])).

Definition animateCounter (element : ElemId) : JS unit :=
  w ← get;
  let target := textContent (elems w element) in
  let isInfinity := bool_decide (target = INFINITY_SIGN) in
  if isInfinity then mret tt
  else
    let numericTarget := parseInt (replace PLUS [] target) in
    let current := 0%float in
    let increment := (numericTarget / 50)%float in
    _ ← setTimer true 30
          (CounterTick (mkCounterEnv element target numericTarget increment
                                     current));
    mret tt.

Definition statsObserver_callback (entries : list (ElemId * bool)) : JS unit :=
  forEach entries (fun entry =>
    if snd entry then
      animateCounter (fst entry);;
      modify (set_statsObserved (unobserve (fst entry)))
    else mret tt).

Definition domContentLoaded_handler : JS unit :=
  w ← get;
  let animatedElements := q_animated (page w) in
  forEach animatedElements (fun el =>
    setStyle el (set_opacity HIDDEN_OPACITY);;
    setStyle el (set_transform HIDDEN_TRANSFORM);;
    setStyle el (set_transition REVEAL_TRANSITION);;
    modify (set_observed (observe el)));;
  let stats := q_stats (page w) in
  modify (set_statsObserved (fun _ => []));;
  forEach stats (fun stat =>
    w' ← get;
    if bool_decide (textContent (elems w' stat) ≠ INFINITY_SIGN) then
      modify (set_statsObserved (observe stat))
    else mret tt).

(** *** Parallax of the hero section (lines 110-119) *)

Definition scroll_parallax : JS unit :=
  w ← get;
  let scrolled := scrollY w in
  let parallax := q_hero (page w) in
  let speed := (scrolled * 0.5)%float in
  match parallax with
  | Some hero =>
      setStyle hero
        (set_transform (js "translateY(" ++ Number_toString speed ++ js "px)"))
  | None => mret tt
  end.

(** *** Typing effect of the hero title (lines 121-137) *)

Definition typeWriter : JS unit :=
  w ← get;
  heroTitle ← deref (q_heroTitle (page w));
  if bool_decide (i w < length (originalText w))%nat then
    setInnerHTML heroTitle
      (innerHTML (elems w heroTitle) ++ charAt (originalText w) (i w));;
    modify (set_i S);;
    _ ← setTimer false 100 TypeWriter;
    mret tt
  else mret tt.

(** *** Fade-in of images (lines 139-153) *)

Definition IMG_TRANSITION : jsstring := js "opacity 0.5s ease".

Definition img_load (img : ElemId) : JS unit :=
  setStyle img (set_opacity REVEALED_OPACITY).

(** The callback of [images.forEach]. *)
Definition each_image (p : Page) (img : ElemId) : JS unit :=
  setStyle img (set_opacity HIDDEN_OPACITY);;
  setStyle img (set_transition IMG_TRANSITION);;
  addEventListener (OnImgLoad img);;
  if complete p img then setStyle img (set_opacity REVEALED_OPACITY)
  else mret tt.

(** *** Konami code (lines 155-174) *)

Definition konamiCode : list jsstring :=
  [js "ArrowUp"; js "ArrowUp"; js "ArrowDown"; js "ArrowDown";
   js "ArrowLeft"; js "ArrowRight"; js "ArrowLeft"; js "ArrowRight";
   js "KeyB"; js "KeyA"].

Definition RAINBOW : jsstring := js "rainbow 2s infinite".

(** The message of the alert. *)
Definition CELEBRATION : jsstring :=
  [55356; 57225; 32; 1042; 1072; 1083; 1077; 1085; 1090; 1080; 1085; 32;
   1076; 1077; 1081; 1089; 1090; 1074; 1080; 1090; 1077; 1083; 1100; 1085;
   1086; 32; 1074; 1077; 1083; 1080; 1082; 1080; 1081; 33; 32; 1040; 32;
   1074; 1099; 32; 45; 32; 1082; 1088; 1091; 1090; 1086; 1081; 32; 1088;
   1072; 1079; 1088; 1072; 1073; 1086; 1090; 1095; 1080; 1082; 33; 32;
   55356; 57225].

Definition konami_end : JS unit :=
  modify (set_body_style (set_animation []));;
  modify (set_alerts (fun l => l ++ [CELEBRATION])).

(** The effect (lines 164-168): the animation starts, and its end is due
    after two seconds. *)
Definition activate_easter_egg : JS unit :=
  modify (set_body_style (set_animation RAINBOW));;
  _ ← setTimer false 2000 KonamiEnd;
  mret tt.

Definition keydown (code : jsstring) : JS unit :=
  w ← get;
  if bool_decide (konamiCode !! konamiIndex w = Some code) then
    modify (set_konamiIndex S);;
    w' ← get;
    if bool_decide (konamiIndex w' = length konamiCode) then
      activate_easter_egg;;
      modify (set_konamiIndex (fun _ => 0%nat))
    else mret tt
  else
    modify (set_konamiIndex (fun _ => 0%nat)).

(** *** Injected style sheet (lines 176-189) *)

Definition rainbowCSS : jsstring := js "
@keyframes rainbow {
    0% { filter: hue-rotate(0deg); }
    25% { filter: hue-rotate(90deg); }
    50% { filter: hue-rotate(180deg); }
    75% { filter: hue-rotate(270deg); }
    100% { filter: hue-rotate(360deg); }
}
".

(** *** Button hover (lines 191-200) *)

Definition btn_mouseenter (this : ElemId) : JS unit :=
  setStyle this (set_transform (js "translateY(-3px) scale(1.05)")).

Definition btn_mouseleave (this : ElemId) : JS unit :=
  setStyle this (set_transform (js "translateY(0) scale(1)")).

(** The callback of the loop over the buttons. *)
Definition each_btn (btn : ElemId) : JS unit :=
  addEventListener (OnBtnMouseenter btn);;
  addEventListener (OnBtnMouseleave btn).

(** *** Lightbox (lines 202-236) *)

Definition MODAL_CSS : jsstring := js "
            position: fixed;
            top: 0;
            left: 0;
            width: 100%;
            height: 100%;
            background: rgba(0, 0, 0, 0.9);
            z-index: 10000;
            display: flex;
            justify-content: center;
            align-items: center;
            cursor: pointer;
        ".

Definition MODAL_IMG_CSS : jsstring := js "
            max-width: 90%;
            max-height: 90%;
            object-fit: contain;
            border-radius: 10px;
        ".

(** [document.createElement]: a new element, not yet in the document. *)
Definition createElement : JS ElemId :=
  w ← get;
  let e := next_id w in
  modify (set_next_id S);;
  modify (set_elems (fun els => <[e := newElement]> els));;
  mret e.

(** [document.body.removeChild(n)]: the child is taken out, or a
    [NotFoundError] when [n] is no child of [body]. *)
Definition body_removeChild (n : ElemId) : JS unit :=
  w ← get;
  if bool_decide (n ∈ map node_id (body w)) then
    modify (set_body (filter (fun c => node_id c ≠ n)))
  else throw NotFoundError.

Definition modal_click (modal : ElemId) : JS unit :=
  body_removeChild modal.

Definition gallery_click (img : ElemId) : JS unit :=
  modal ← createElement;
  setStyle modal (set_cssText MODAL_CSS);;
  modalImg ← createElement;
  w ← get;
  update_elem modalImg (with_src (src (elems w img)));;
  setStyle modalImg (set_cssText MODAL_IMG_CSS);;
  (* modal.appendChild(modalImg); document.body.appendChild(modal) *)
  modify (set_body (fun b => b ++ [El modal [El modalImg []]]));;
  addEventListener (OnModalClick modal).

(** *** The script, top to bottom *)

Definition script : JS unit :=
  w ← get;
  let p := page w in
  (* 5 *)
  hamburger ← deref (q_hamburger p);
  addEventListener (OnHamburgerClick hamburger);;
  (* 11 *)
  forEach (q_navLinks p) (fun link => addEventListener (OnNavLinkClick link));;
  (* 19 *)
  forEach (q_anchors p) (fun anchor => addEventListener (OnAnchorClick anchor));;
  (* 34 *)
  addEventListener OnScrollNavbar;;
  (* 51 *)
  modify (set_observed (fun _ => []));;
  (* 61 *)
  addEventListener OnDOMContentLoaded;;
  (* 111 *)
  addEventListener OnScrollParallax;;
  (* 122 *)
  match q_heroTitle p with
  | Some heroTitle =>
      w1 ← get;
      modify (set_originalText (fun _ => innerHTML (elems w1 heroTitle)));;
      setInnerHTML heroTitle [];;
      modify (set_i (fun _ => 0%nat));;
      _ ← setTimer false 1000 TypeWriter;
      mret tt
  | None => mret tt
  end;;
  (* 140 *)
  forEach (q_images p) (each_image p);;
  (* 156 *)
  modify (set_konamiIndex (fun _ => 0%nat));;
  addEventListener OnKeydown;;
  (* 187 *)
  modify (set_head_styles (fun l => l ++ [rainbowCSS]));;
  (* 192 *)
  forEach (q_btns p) each_btn;;
  (* 203 *)
  forEach (q_galleryImgs p) (fun img => addEventListener (OnGalleryClick img)).

(** ** Events *)

Inductive Event :=
| EvDOMContentLoaded
| EvClick (path : list ElemId)      (* the target, then its ancestors *)
| EvScroll (y : float)              (* the offset scrolled to *)
| EvIntersection (o : ObserverId) (entries : list (ElemId * bool))
| EvIntervalTick (timer : nat)
| EvTimeout (timer : nat)
| EvLoad (img : ElemId)
| EvKeydown (code : jsstring)
| EvMouseenter (el : ElemId)
| EvMouseleave (el : ElemId).

(** The body of a listener, on the event it is called with. *)
Definition run_listener (ev : Event) (l : Listener) : JS unit :=
  match l with
  | OnHamburgerClick _ => hamburger_click
  | OnNavLinkClick _ => navLink_click
  | OnAnchorClick anchor => anchor_click anchor
  | OnScrollNavbar => scroll_navbar
  | OnDOMContentLoaded => domContentLoaded_handler
  | OnScrollParallax => scroll_parallax
  | OnImgLoad img => img_load img
  | OnKeydown => match ev with EvKeydown code => keydown code | _ => mret tt end
  | OnBtnMouseenter btn => btn_mouseenter btn
  | OnBtnMouseleave btn => btn_mouseleave btn
  | OnGalleryClick img => gallery_click img
  | OnModalClick modal => modal_click modal
  end.

Definition run_callback (timer : nat) (cb : Callback) : JS unit :=
  match cb with
  | CounterTick env => counter_tick timer env
  | TypeWriter => typeWriter
  | KonamiEnd => konami_end
  end.

(** A call from the host: an exception that escapes is reported, and the
    host goes on. *)
Definition invoke (m : JS unit) (w : World) : World :=
  match m w with
  | (Returned _, w') => w'
  | (Threw e, w') => set_errors (fun es => es ++ [e]) w'
  end.

(** Every listener that [sel] selects, in registration order; the list is
    read when the dispatch starts. *)
Definition dispatch (ev : Event) (sel : Listener -> bool) (w : World) : World :=
  fold_left (fun w l => invoke (run_listener ev l) w)
            (List.filter sel (listeners w)) w.

Definition on_click (e : ElemId) (l : Listener) : bool :=
  match l with
  | OnHamburgerClick x | OnNavLinkClick x | OnAnchorClick x
  | OnGalleryClick x | OnModalClick x => Nat.eqb x e
  | _ => false
  end.

Definition on_scroll (l : Listener) : bool :=
  match l with OnScrollNavbar | OnScrollParallax => true | _ => false end.

Definition on_domContentLoaded (l : Listener) : bool :=
  match l with OnDOMContentLoaded => true | _ => false end.

Definition on_keydown (l : Listener) : bool :=
  match l with OnKeydown => true | _ => false end.

Definition on_load (e : ElemId) (l : Listener) : bool :=
  match l with OnImgLoad x => Nat.eqb x e | _ => false end.

Definition on_mouseenter (e : ElemId) (l : Listener) : bool :=
  match l with OnBtnMouseenter x => Nat.eqb x e | _ => false end.

Definition on_mouseleave (e : ElemId) (l : Listener) : bool :=
  match l with OnBtnMouseleave x => Nat.eqb x e | _ => false end.

(** The targets an observer reports are among those it observes. *)
Definition observed_by (o : ObserverId) (w : World) : list ElemId :=
  match o with
  | RevealObserver => observed w
  | StatsObserver => statsObserved w
  end.

Definition observer_of (o : ObserverId) : list (ElemId * bool) -> JS unit :=
  match o with
  | RevealObserver => observer_callback
  | StatsObserver => statsObserver_callback
  end.

(** One event, handled to completion. *)
Definition handle (ev : Event) (w : World) : World :=
  match ev with
  | EvDOMContentLoaded =>
      if domContentLoaded w then w
      else dispatch ev on_domContentLoaded
             (set_domContentLoaded (fun _ => true) w)
  | EvClick path =>
      fold_left (fun w e => dispatch ev (on_click e) w) path w
  | EvScroll y =>
      dispatch ev on_scroll (set_scrollY (fun _ => y) w)
  | EvIntersection o entries =>
      invoke (observer_of o
                (List.filter (fun en => bool_decide (fst en ∈ observed_by o w))
                             entries)) w
  | EvIntervalTick timer =>
      match timers w !! timer with
      | Some (mkTimer true _ cb) => invoke (run_callback timer cb) w
      | _ => w
      end
  | EvTimeout timer =>
      match timers w !! timer with
      | Some (mkTimer false _ cb) =>
          invoke (run_callback timer cb) (set_timers (delete timer) w)
      | _ => w
      end
  | EvLoad img => dispatch ev (on_load img) w
  | EvKeydown _ => dispatch ev on_keydown w
  | EvMouseenter el => dispatch ev (on_mouseenter el) w
  | EvMouseleave el => dispatch ev (on_mouseleave el) w
  end.

Definition run (evs : list Event) (w : World) : World :=
  fold_left (fun w ev => handle ev w) evs w.

(** The world before the script runs, and after. *)
Definition initial (p : Page) : World :=
  mkWorld p (elements0 p) (body0 p) (fresh0 p) [] noStyle 0%float [] [] []
          ∅ 1%nat [] 0%nat 0%nat false [] [] [] [].

Definition load (p : Page) : World := invoke script (initial p).

(** ** Invariants of computations *)

(** [m] keeps [P], whether it returns or throws. *)
Definition preserves {A} (P : World -> Prop) (m : JS A) : Prop :=
  forall w, P w -> P (snd (m w)).

(** ** What the script leaves when it runs through *)

(** The listeners registered by the script on a page with a toggle control,
    in order. *)
Definition script_listeners (p : Page) (hamburger : ElemId) : list Listener :=
  [OnHamburgerClick hamburger]
  ++ map OnNavLinkClick (q_navLinks p)
  ++ map OnAnchorClick (q_anchors p)
  ++ [OnScrollNavbar; OnDOMContentLoaded; OnScrollParallax]
  ++ map OnImgLoad (q_images p)
  ++ [OnKeydown]
  ++ flat_map (fun btn => [OnBtnMouseenter btn; OnBtnMouseleave btn]) (q_btns p)
  ++ map OnGalleryClick (q_galleryImgs p).

(** The timer table after the script: the first call of [typeWriter], due
    after a second, when the page has a title. *)
Definition script_timers (p : Page) : gmap nat Timer :=
  match q_heroTitle p with
  | Some _ => {[ 1%nat := mkTimer false 1000 TypeWriter ]}
  | None => ∅
  end.

Definition script_next_timer (p : Page) : nat :=
  match q_heroTitle p with Some _ => 2%nat | None => 1%nat end.

Definition script_originalText (p : Page) : jsstring :=
  match q_heroTitle p with
  | Some heroTitle => innerHTML (elements0 p heroTitle)
  | None => []
  end.

(** ** The navbar, as the specification words it *)

(** The background and the shadow of the navbar. *)
Definition navbar_look (w : World) (navbar : ElemId) : jsstring * jsstring :=
  (background (style (elems w navbar)), boxShadow (style (elems w navbar))).

Definition ELEVATED : jsstring * jsstring :=
  (ELEVATED_BACKGROUND, ELEVATED_SHADOW).
Definition RESTING : jsstring * jsstring :=
  (RESTING_BACKGROUND, RESTING_SHADOW).

(** "If vertical scroll offset > 100 units, apply an elevated style;
    otherwise apply the resting style." *)
Definition spec_navbar_look (offset : float) : jsstring * jsstring :=
  if (100 <? offset)%float then ELEVATED else RESTING.

(** ** The Konami detector, fed with keys *)

Definition feed (codes : list jsstring) (w : World) : World :=
  run (map EvKeydown codes) w.

(** The world after the effect was triggered once. *)
Definition celebrated (w : World) : World := snd (activate_easter_egg w).

(** ** The counter, tick by tick *)

(** The running value after [n] ticks. *)
Definition running (increment : float) (n : nat) : float :=
  Nat.iter n (fun current => (current + increment)%float) 0%float.

(** Whether the running value has reached the target at tick [n]. *)
Definition reached (numericTarget increment : float) (n : nat) : bool :=
  (numericTarget <=? running increment n)%float.

(** [n] ticks of one interval. *)
Definition ticks (timer : nat) (n : nat) : list Event :=
  repeat (EvIntervalTick timer) n.

(** The text of an intermediate tick (line 88). *)
Definition frame (target : jsstring) (current : float) : jsstring :=
  Number_toString (Math_floor current)
  ++ (if includes PLUS target then js "+" else []).

(** The element comes into view. *)
Definition becomes_visible (el : ElemId) : Event :=
  EvIntersection StatsObserver [(el, true)].

(** The interval that [animateCounter] creates for a literal. *)
Definition counter_interval (el : ElemId) (literal : jsstring) (current : float)
  : Timer :=
  let numericTarget := parseInt (replace PLUS [] literal) in
  mkTimer true 30
    (CounterTick (mkCounterEnv el literal numericTarget
                               (numericTarget / 50)%float current)).

(** The numeric target and the increment of a literal. *)
Definition target_of (literal : jsstring) : float :=
  parseInt (replace PLUS [] literal).
Definition increment_of (literal : jsstring) : float :=
  (target_of literal / 50)%float.

(** ** A page to run the script on *)

Definition demo_elements (e : ElemId) : Element :=
  match e with
  | 8%nat => mkElement (Text (js "120+")) noStyle [] []
  | 9%nat => mkElement (Text INFINITY_SIGN) noStyle [] []
  | 11%nat =>
      mkElement (Markup (js "Hi <b>there</b>") (js "Hi there")) noStyle [] []
  | 12%nat => mkElement (Text []) noStyle [] (js "photo.jpg")
  | 14%nat => mkElement (Text (js "42")) noStyle [] []
  | 15%nat => mkElement (Text (js "++5")) noStyle [] []
  | 16%nat => mkElement (Text (js "soon+")) noStyle [] []
  | _ => newElement
  end.

(** The links of the page: one to the section 6, one to nothing ('#'). *)
Definition demo_href (e : ElemId) : jsstring :=
  match e with
  | 3%nat => js "#about"
  | _ => js "#"
  end.

(** [querySelector] on the selectors of the links: a bare '#' is no
    selector. *)
Definition demo_querySelector (selector : jsstring) : QueryResult :=
  if bool_decide (selector = js "#about") then QFound 6%nat
  else if bool_decide (selector = js "#") then QSyntaxError
  else QNull.

Definition demo_page : Page :=
  mkPage (Some 1%nat) (Some 2%nat) [3%nat] [3%nat; 4%nat] (Some 5%nat)
         [6%nat; 7%nat] [8%nat; 9%nat; 14%nat; 15%nat; 16%nat] (Some 10%nat)
         (Some 11%nat) [12%nat] [13%nat] [12%nat]
         demo_querySelector demo_href (fun _ => 600) (fun _ => true)
         (fun s => Markup s []) demo_elements
         [El 5%nat [El 1%nat []; El 2%nat [El 3%nat []; El 4%nat []]];
          El 10%nat [El 11%nat []; El 13%nat []];
          El 6%nat [El 7%nat [El 12%nat []];
                    El 8%nat []; El 9%nat []; El 14%nat []; El 15%nat [];
                    El 16%nat []]]
         100%nat.

(** The page once loaded and ready. *)
Definition demo_ready : World := handle EvDOMContentLoaded (load demo_page).

(** ** Literals that are no number *)

(** "Stripping a trailing [+] (if present)", in the words of the
    specification. *)
Definition strip_trailing_plus (s : jsstring) : jsstring :=
  match rev s with
  | c :: r => if c =? PLUS then rev r else s
  | [] => s
  end.

(** The claim on literals that are no number, in the words of the
    specification: a literal that cannot be read as an integer once a
    trailing [+] is stripped shows "NaN" at every tick and its interval is
    never cleared. *)
Definition spec_never_stops (w : World) (el : ElemId) : Prop :=
  let literal := textContent (elems w el) in
  el ∈ statsObserved w ->
  literal <> INFINITY_SIGN ->
  parseInt (strip_trailing_plus literal) = nan ->
  forall n, (1 <= n)%nat ->
    let wn := run (ticks (next_timer w) n) (handle (becomes_visible el) w) in
    is_Some (timers wn !! next_timer w)
    /\ textContent (elems wn el)
       = js "NaN" ++ (if includes PLUS literal then js "+" else []).

(** ** Counters and the infinite sign *)

(** The events of the Counter Animator: intersections, and the ticks of the
    intervals they start. *)
Definition counter_event (ev : Event) : Prop :=
  match ev with
  | EvIntersection _ _ | EvIntervalTick _ => True
  | _ => False
  end.

(** No interval animates [el]. *)
Definition no_interval_for (el : ElemId) (w : World) : Prop :=
  forall t tm env,
    timers w !! t = Some tm -> callback tm = CounterTick env ->
    element env <> el.

(** No interval animates anything. *)
Definition no_counter_interval (w : World) : Prop :=
  forall t tm env, timers w !! t = Some tm -> callback tm <> CounterTick env.

(** Every interval is the interval of a counter. *)
Definition intervals_are_counters (w : World) : Prop :=
  forall t tm, timers w !! t = Some tm -> repeats tm = true ->
    exists env, callback tm = CounterTick env.

(** Before the document is ready no counter is observed or animated. *)
Definition not_ready (w : World) : Prop :=
  domContentLoaded w = true
  \/ (statsObserved w = [] /\ no_counter_interval w).

(** A counter that shows the infinite sign and is left alone. *)
Definition left_alone (el : ElemId) (w : World) : Prop :=
  (el ∉ statsObserved w)
  /\ no_interval_for el w
  /\ textContent (elems w el) = INFINITY_SIGN.

(** ** Revealed elements *)

Definition reveal_event (ev : Event) : Prop :=
  match ev with
  | EvScroll _ | EvIntersection _ _ => True
  | _ => False
  end.

(** Fully opaque. *)
Definition opaque (el : ElemId) (w : World) : Prop :=
  opacity (style (elems w el)) = REVEALED_OPACITY.

(** At its place: zero offset. *)
Definition in_place (el : ElemId) (w : World) : Prop :=
  transform (style (elems w el)) = REVEALED_TRANSFORM.

(** The one-shot transition, in the words of the specification: a
    registered element that is revealed after page load is never hidden
    again and never gets its downward offset back, whatever is scrolled and
    whatever intersects. *)
Definition spec_reveal_one_shot (p : Page) (el : ElemId) : Prop :=
  In el (q_animated p) ->
  forall evs0 evs,
    let w := run evs0 (load p) in
    domContentLoaded w = true ->
    opaque el w -> in_place el w ->
    Forall reveal_event evs ->
    let w' := run evs w in
    opacity (style (elems w' el)) <> HIDDEN_OPACITY
    /\ transform (style (elems w' el)) <> HIDDEN_TRANSFORM.

(** A page whose hero section is one of the revealed sections. *)
Definition hero_revealed_page : Page :=
  mkPage (Some 1%nat) (Some 2%nat) [] [] (Some 5%nat)
         [6%nat] [] (Some 6%nat) None [] [] []
         (fun _ => QNull) (fun _ => []) (fun _ => 0) (fun _ => true)
         (fun s => Markup s []) (fun _ => newElement)
         [El 5%nat [El 1%nat []; El 2%nat []]; El 6%nat []]
         100%nat.

(** ** The lightbox *)

(** The listeners of the lightbox. *)
Definition lightbox_listener (l : Listener) : bool :=
  match l with
  | OnGalleryClick _ | OnModalClick _ => true
  | _ => false
  end.

(** The part of the world that clicks on the lightbox change: the children
    of [body], the next new element and the listeners. *)
Definition Stage : Type := list Node * ElemId * list Listener.

Definition stage (w : World) : Stage := (body w, next_id w, listeners w).

(** What a click listener does to the stage. *)
Definition stage_step (s : Stage) (l : Listener) : Stage :=
  let '(b, n, ls) := s in
  match l with
  | OnGalleryClick _ =>
      (b ++ [El n [El (S n) []]], S (S n), ls ++ [OnModalClick n])
  | OnModalClick m =>
      (if bool_decide (m ∈ map node_id b)
       then filter (fun c => node_id c ≠ m) b else b, n, ls)
  | _ => s
  end.

(** The overlay that a click on a gallery image makes in [w]. *)
Definition overlay (w : World) : Node :=
  El (next_id w) [El (S (next_id w)) []].

(** What the script takes for granted of a page: the gallery images are
    distinct elements of the page, and the elements of the page are older
    than the ones the script creates. *)
Definition page_wf (p : Page) : Prop :=
  NoDup (q_galleryImgs p)
  /\ Forall (fun g => g < fresh0 p)%nat (q_galleryImgs p)
  /\ Forall (fun n => node_id n < fresh0 p)%nat (body0 p).

(** Created elements are newer than the page, and older than the next. *)
Definition elements_in_order (w : World) : Prop :=
  Forall (fun n => node_id n < next_id w)%nat (body w)
  /\ (fresh0 (page w) <= next_id w)%nat
  /\ Forall (fun l => match l with
                      | OnGalleryClick g => (g < fresh0 (page w))%nat
                      | OnModalClick m =>
                          (fresh0 (page w) <= m < next_id w)%nat
                      | _ => True
                      end) (listeners w).

(** An element that is in the page and has no listener of the lightbox. *)
Definition plain_element (w : World) (a : ElemId) : Prop :=
  (a < next_id w)%nat
  /\ forall l, In l (listeners w) -> on_click a l = true ->
               lightbox_listener l = false.

(** A click that goes through the elements of [path], whatever event [ev]
    the listeners are called with. *)
Definition click_through (ev : Event) (path : list ElemId) (w : World)
  : World :=
  fold_left (fun w e => dispatch ev (on_click e) w) path w.

(** The click listener of the gallery image [g]. *)
Definition on_gallery_click (g : ElemId) (l : Listener) : bool :=
  match l with
  | OnGalleryClick x => Nat.eqb x g
  | _ => false
  end.

(** ** Pages that lack an element *)

(** The demo page without its toggle control. *)
Definition no_hamburger_page : Page :=
  mkPage None (Some 2%nat) [3%nat] [3%nat; 4%nat] (Some 5%nat)
         [6%nat; 7%nat] [8%nat; 9%nat; 14%nat; 15%nat; 16%nat] (Some 10%nat)
         (Some 11%nat) [12%nat] [13%nat] [12%nat]
         demo_querySelector demo_href (fun _ => 600) (fun _ => true)
         (fun s => Markup s []) demo_elements
         [El 5%nat [El 2%nat [El 3%nat []; El 4%nat []]];
          El 10%nat [El 11%nat []; El 13%nat []];
          El 6%nat [El 7%nat [El 12%nat []];
                    El 8%nat []; El 9%nat []; El 14%nat []; El 15%nat [];
                    El 16%nat []]]
         100%nat.

(** The demo page without its navbar. *)
Definition no_navbar_page : Page :=
  mkPage (Some 1%nat) (Some 2%nat) [3%nat] [3%nat; 4%nat] None
         [6%nat; 7%nat] [8%nat; 9%nat; 14%nat; 15%nat; 16%nat] (Some 10%nat)
         (Some 11%nat) [12%nat] [13%nat] [12%nat]
         demo_querySelector demo_href (fun _ => 600) (fun _ => true)
         (fun s => Markup s []) demo_elements
         [El 1%nat []; El 2%nat [El 3%nat []; El 4%nat []];
          El 10%nat [El 11%nat []; El 13%nat []];
          El 6%nat [El 7%nat [El 12%nat []];
                    El 8%nat []; El 9%nat []; El 14%nat []; El 15%nat [];
                    El 16%nat []]]
         100%nat.

(** The demo page without its menu panel. *)
Definition no_navMenu_page : Page :=
  mkPage (Some 1%nat) None [] [3%nat; 4%nat] (Some 5%nat)
         [6%nat; 7%nat] [8%nat; 9%nat; 14%nat; 15%nat; 16%nat] (Some 10%nat)
         (Some 11%nat) [12%nat] [13%nat] [12%nat]
         demo_querySelector demo_href (fun _ => 600) (fun _ => true)
         (fun s => Markup s []) demo_elements
         [El 5%nat [El 1%nat []; El 3%nat []; El 4%nat []];
          El 10%nat [El 11%nat []; El 13%nat []];
          El 6%nat [El 7%nat [El 12%nat []];
                    El 8%nat []; El 9%nat []; El 14%nat []; El 15%nat [];
                    El 16%nat []]]
         100%nat.

(** ** The title, typed *)

(** The timeouts of the typing effect, in the order they are due: the
    identifiers [first], [first + 1], ... *)
Definition typing_timeouts (first n : nat) : list Event :=
  map EvTimeout (seq first n).

(** What the typing effect leaves of one unit of the captured string: NUL
    is dropped and a carriage return is read as a line feed, as the parser
    does with the last unit of the string it is given. *)
Definition typed1 (c : Z) : jsstring :=
  if c =? 0 then [] else if c =? 13 then [10] else [c].

Definition typed (s : jsstring) : jsstring := flat_map typed1 s.

(** A unit that the parser and the serialiser leave as it is. *)
Definition plain_unit (c : Z) : Prop :=
  c <> 0 /\ c <> 13 /\ c <> AMP /\ c <> LT /\ c <> GT /\ c <> NBSP.

(** The typing effect after [k] units: the title holds them as text, and the
    next call of [typeWriter] is due. *)
Definition typing (p : Page) (heroTitle : ElemId) (captured : jsstring)
  (k : nat) (w : World) : Prop :=
  page w = p
  /\ originalText w = captured
  /\ i w = k
  /\ content (elems w heroTitle) = Text (typed (firstn k captured))
  /\ (exists ms, timers w !! S k = Some (mkTimer false ms TypeWriter))
  /\ next_timer w = S (S k).

(** ** The parallax, as a function of the offset *)


(** ** Button hover *)

Definition HOVER_TRANSFORM : jsstring := js "translateY(-3px) scale(1.05)".
Definition REST_TRANSFORM : jsstring := js "translateY(0) scale(1)".

(** ** Fade-in of images *)

(** An image as the loop over the images leaves it: transparent, unless it
    was complete already, with the transition set. *)
Definition faded (p : Page) (img : ElemId) (w : World) : Prop :=
  opacity (style (elems w img))
  = (if complete p img then REVEALED_OPACITY else HIDDEN_OPACITY)
  /\ transition (style (elems w img)) = IMG_TRANSITION.

(** ** Counters that have been started *)


(** ** What a computation establishes *)

(** From a world with [P], [m] returns and leaves a world with [Q]. *)
Definition establishes {A} (P : World -> Prop) (m : JS A) (Q : World -> Prop)
  : Prop :=
  forall w, P w -> (exists a, fst (m w) = Returned a) /\ Q (snd (m w)).

(** ** Registration at DOMContentLoaded *)

(** An element as the loop over the animated elements leaves it: hidden,
    30px down, with its transition, and a target of the observer. *)
Definition registered (el : ElemId) (w : World) : Prop :=
  opacity (style (elems w el)) = HIDDEN_OPACITY
  /\ transform (style (elems w el)) = HIDDEN_TRANSFORM
  /\ transition (style (elems w el)) = REVEAL_TRANSITION
  /\ el ∈ observed w.

(** ** The worlds the page can be in

    The world after the script, and every world that a call from the host
    leaves: a listener that is registered, the callback of a timer that is
    due, an observer on targets it observes. *)
Inductive reachable (p : Page) : World -> Prop :=
| reach_load : reachable p (load p)
| reach_listener ev l w :
    reachable p w -> In l (listeners w) ->
    reachable p (invoke (run_listener ev l) w)
| reach_interval t d cb w :
    reachable p w -> timers w !! t = Some (mkTimer true d cb) ->
    reachable p (invoke (run_callback t cb) w)
| reach_timeout t d cb w :
    reachable p w -> timers w !! t = Some (mkTimer false d cb) ->
    reachable p (invoke (run_callback t cb) (set_timers (delete t) w))
| reach_intersection o es w :
    reachable p w -> Forall (fun en => fst en ∈ observed_by o w) es ->
    reachable p (invoke (observer_of o es) w)
| reach_scroll y w :
    reachable p w -> reachable p (set_scrollY (fun _ => y) w)
| reach_ready w :
    reachable p w -> reachable p (set_domContentLoaded (fun _ => true) w).

(** A listener that the script registers on the page [p], or the listener
    of an overlay. *)
Definition listener_of_page (p : Page) (l : Listener) : Prop :=
  match l with
  | OnHamburgerClick x => q_hamburger p = Some x
  | OnNavLinkClick x => In x (q_navLinks p)
  | OnAnchorClick x => In x (q_anchors p)
  | OnImgLoad x => In x (q_images p)
  | OnBtnMouseenter x | OnBtnMouseleave x => In x (q_btns p)
  | OnGalleryClick x => In x (q_galleryImgs p)
  | OnScrollNavbar | OnDOMContentLoaded | OnScrollParallax | OnKeydown
  | OnModalClick _ => True
  end.

(** ** The timer table *)

(** A timer as the script makes them: the interval of a counter of the
    page, every 30ms, with the numeric target and the increment that
    [animateCounter] computes from the literal; the timeout of the typing
    effect, after 1000ms or 100ms, on a page with a title; the timeout that
    ends the easter egg, after 2000ms. *)
Definition timer_of_page (p : Page) (tm : Timer) : Prop :=
  match callback tm with
  | CounterTick env =>
      repeats tm = true /\ delay tm = 30
      /\ In (element env) (q_stats p)
      /\ target env <> INFINITY_SIGN
      /\ numericTarget env = target_of (target env)
      /\ increment env = (numericTarget env / 50)%float
  | TypeWriter =>
      repeats tm = false /\ (delay tm = 1000 \/ delay tm = 100)
      /\ is_Some (q_heroTitle p)
  | KonamiEnd => repeats tm = false /\ delay tm = 2000
  end.

(** The targets of the observer of the counters are counters of the page,
    and the timers are timers of the page, under identifiers that have been
    handed out. *)
Definition timers_of_page (p : Page) (w : World) : Prop :=
  (forall s, s ∈ statsObserved w -> In s (q_stats p))
  /\ (forall t tm, timers w !! t = Some tm ->
        timer_of_page p tm /\ (t < next_timer w)%nat).

(** ** Exceptions *)

(** From a world with [P], [m] keeps [P] and throws nothing but what [ok]
    allows. *)
Definition throws_only {A} (ok : Exn -> Prop) (P : World -> Prop) (m : JS A)
  : Prop :=
  forall w, P w ->
    P (snd (m w))
    /\ match fst (m w) with Threw e => ok e | Returned _ => True end.

(** A page with the elements that the script reads without a guard: the
    toggle control, the menu panel and the navbar; and whose in-page links
    have a [href] that is a selector. *)
Definition complete_page (p : Page) : Prop :=
  is_Some (q_hamburger p) /\ is_Some (q_navMenu p) /\ is_Some (q_navbar p)
  /\ Forall (fun a => querySelector p (href p a) <> QSyntaxError)
            (q_anchors p).

(** ** Smooth scrolling, over time *)

(** A call of [window.scrollTo] as the handler of the in-page links makes
    it: smooth, to 80 above the element that the [href] of a link
    selects. *)
Definition anchor_scroll (p : Page) (s : ScrollToOptions) : Prop :=
  behavior s = SMOOTH
  /\ exists anchor target,
       In anchor (q_anchors p)
       /\ querySelector p (href p anchor) = QFound target
       /\ top s = offsetTop p target - 80.

(** The calls of [window.scrollTo] and of [preventDefault] so far. *)
Definition trail (w : World) : list ScrollToOptions * list ElemId :=
  (scrolls w, prevented w).

Definition anchor_trail (p : Page) (w : World) : Prop :=
  Forall (anchor_scroll p) (scrolls w)
  /\ (length (scrolls w) <= length (prevented w))%nat
  /\ Forall (fun a => In a (q_anchors p)) (prevented w).

(** ** The children of the page, over time *)



(** ** The mobile menu *)

(** The element carries the class 'active'. *)
Definition active (w : World) (e : ElemId) : Prop :=
  ACTIVE ∈ classList (elems w e).


(** A listener that opens or closes the menu. *)
Definition menu_listener (l : Listener) : bool :=
  match l with
  | OnHamburgerClick _ | OnNavLinkClick _ => true
  | _ => false
  end.

Definition hamburger_listener (l : Listener) : bool :=
  match l with
  | OnHamburgerClick _ => true
  | _ => false
  end.

(** The listeners that the script registers after those of the menu, and
    those of the overlays [ms]. *)
Definition later_listeners (p : Page) (ms : list ElemId) : list Listener :=
  (map OnAnchorClick (q_anchors p)
   ++ [OnScrollNavbar; OnDOMContentLoaded; OnScrollParallax]
   ++ map OnImgLoad (q_images p)
   ++ [OnKeydown]
   ++ flat_map (fun btn => [OnBtnMouseenter btn; OnBtnMouseleave btn])
               (q_btns p)
   ++ map OnGalleryClick (q_galleryImgs p))
  ++ map OnModalClick ms.

(** Neither the toggle control nor the menu panel is 'active'. *)
Definition menu_closed (h m : ElemId) (w : World) : Prop :=
  ~ active w h /\ ~ active w m.

(** ** Literals *)

(** A decimal digit, as a code unit. *)
Definition is_digit (c : Z) : Prop := 48 <= c <= 57.

(** The running value stays below the target for 49 ticks and has reached it
    at tick 51. *)
Definition lands_at_50_or_51 (numericTarget increment : float) : bool :=
  forallb (fun k => negb (reached numericTarget increment k)) (seq 1 49)
  && reached numericTarget increment 51.

(** The integers from [lo] on, [n] of them. *)
Definition Zrange (lo : Z) (n : nat) : list Z :=
  map (fun i => lo + Z.of_nat i) (seq 0 n).

(** ** What the script writes to *)






(** ** What the overlay shows *)

(** The [src] and the [cssText] of an element. *)
Definition look (w : World) (e : ElemId) : jsstring * jsstring :=
  (src (elems w e), cssText (style (elems w e))).

(** ** The numbers that a counter shows *)

(** The whole part of a number that is not negative. *)
Definition floor_Z (x : float) : Z :=
  match Prim2SF x with
  | S754_finite false m e =>
      if 0 <=? e then Z.shiftl (Z.pos m) e else Z.shiftr (Z.pos m) (- e)
  | _ => 0
  end.

(** Zero, or a positive number with a fraction part in its significand. *)
Definition fractional (x : float) : bool :=
  match Prim2SF x with
  | S754_zero _ => true
  | S754_finite false _ e => e <? 0
  | _ => false
  end.

(** The running value of the target [n] has, at each of the first 49
    ticks, a whole part below [n] that is no less than the one before. *)
Definition counts_up (n : Z) : bool :=
  let inc := (Z2float n / 50)%float in
  forallb (fun k =>
             let x := running inc k in
             fractional x && (floor_Z x <? n)
             && (floor_Z (running inc (pred k)) <=? floor_Z x))
          (seq 1 49).

(** ** A click on an in-page link *)

Definition anchor_listener (l : Listener) : bool :=
  match l with
  | OnAnchorClick _ => true
  | _ => false
  end.

(** The listener of the in-page link [a]. *)
Definition on_anchor_click (a : ElemId) (l : Listener) : bool :=
  match l with
  | OnAnchorClick x => Nat.eqb x a
  | _ => false
  end.

(** ** The typing effect, over time *)

(** At most one call of [typeWriter] is due. *)
Definition one_typing (ts : gmap nat Timer) : Prop :=
  forall t1 t2 tm1 tm2,
    ts !! t1 = Some tm1 -> ts !! t2 = Some tm2 ->
    callback tm1 = TypeWriter -> callback tm2 = TypeWriter -> t1 = t2.

(** No call of [typeWriter] is due. *)
Definition no_typing (ts : gmap nat Timer) : Prop :=
  forall t tm, ts !! t = Some tm -> callback tm <> TypeWriter.

(** The captured markup is the one the script captured, the index is within
    it, and at most one call of [typeWriter] is due. *)
Definition typing_state (captured : jsstring) (w : World) : Prop :=
  originalText w = captured
  /\ (i w <= length captured)%nat
  /\ one_typing (timers w).

(** * Properties

    ** Reasoning about computations *)

Lemma preserves_ret {A} P (a : A) : preserves P (mret a).
Proof. intros w H. exact H. Qed.

Lemma preserves_throw {A} P e : preserves P (@throw A e).
Proof. intros w H. exact H. Qed.

Lemma preserves_get P : preserves P get.
Proof. intros w H. exact H. Qed.

Lemma preserves_modify P f :
  (forall w, P w -> P (f w)) -> preserves P (modify f).
Proof. intros Hf w H. apply Hf, H. Qed.

Lemma preserves_bind {A B} P (m : JS A) (k : A -> JS B) :
  preserves P m -> (forall a, preserves P (k a)) -> preserves P (mbind k m).
Proof.
  intros Hm Hk w H. unfold mbind, JS_bind.
  specialize (Hm w H). destruct (m w) as [[a|e] w']; simpl in *.
  - apply Hk, Hm.
  - exact Hm.
Qed.

Lemma preserves_forEach {A} P (l : list A) (f : A -> JS unit) :
  (forall x, preserves P (f x)) -> preserves P (forEach l f).
Proof.
  intros Hf. induction l as [|x l IH]; simpl.
  - apply preserves_ret.
  - apply preserves_bind; [apply Hf | intros _; exact IH].
Qed.

Lemma preserves_deref P o : preserves P (deref o).
Proof. destruct o; [apply preserves_ret | apply preserves_throw]. Qed.

Lemma preserves_invoke P (m : JS unit) :
  preserves P m ->
  (forall w e, P w -> P (set_errors (fun es => es ++ [e]) w)) ->
  forall w, P w -> P (invoke m w).
Proof.
  intros Hm He w H. unfold invoke. specialize (Hm w H).
  destruct (m w) as [[a|e] w']; simpl in *; auto.
Qed.

Lemma fold_left_invariant {A B} (P : A -> Prop) (f : A -> B -> A) l :
  (forall a b, P a -> P (f a b)) -> forall a, P a -> P (fold_left f l a).
Proof.
  intros Hf. induction l as [|b l IH]; simpl; auto.
Qed.

(** Opens a computation along its binds, loops and branches, leaving the
    world updates. *)
Ltac preserve_step :=
  lazymatch goal with
  | |- preserves _ (mret _) => apply preserves_ret
  | |- preserves _ (throw _) => apply preserves_throw
  | |- preserves _ get => apply preserves_get
  | |- preserves _ (deref _) => apply preserves_deref
  | |- preserves _ (mbind _ _) => apply preserves_bind; [| intros ?]
  | |- preserves _ (forEach _ _) => apply preserves_forEach; intros ?
  | |- preserves _ (modify _) => apply preserves_modify; intros ? ?
  | |- preserves _ (if ?b then _ else _) => destruct b
  | |- preserves _ (match ?x with _ => _ end) => destruct x
  | |- preserves _ (let _ := _ in _) => cbv zeta
  end.

Ltac unfold_handlers :=
  unfold hamburger_click, navLink_click, anchor_click, scroll_navbar,
    observer_callback, counter_tick, animateCounter, statsObserver_callback,
    domContentLoaded_handler, scroll_parallax, typeWriter, img_load,
    konami_end, keydown, activate_easter_egg, each_image, each_btn,
    btn_mouseenter, btn_mouseleave, modal_click,
    body_removeChild, gallery_click, createElement, setTimer, clearInterval,
    setInnerHTML, setTextContent, setStyle, update_elem, addEventListener
    in *.

Ltac preserve := repeat first [preserve_step | progress unfold_handlers].

(** A property that every call from the host keeps is kept by every event. *)
Section Invariant.
Variable P : World -> Prop.
Hypothesis P_listener :
  forall ev l, on_domContentLoaded l = false ->
    preserves P (run_listener ev l).
Hypothesis P_ready :
  forall w, P w -> domContentLoaded w = false ->
    P (dispatch EvDOMContentLoaded on_domContentLoaded
         (set_domContentLoaded (fun _ => true) w)).
Hypothesis P_callback :
  forall w t tm, P w -> timers w !! t = Some tm ->
    (if repeats tm then P (invoke (run_callback t (callback tm)) w)
     else P (invoke (run_callback t (callback tm))
                    (set_timers (delete t) w))).
Hypothesis P_intersection :
  forall w o es, P w -> Forall (fun en => fst en ∈ observed_by o w) es ->
    P (invoke (observer_of o es) w).
Hypothesis P_errors :
  forall w e, P w -> P (set_errors (fun es => es ++ [e]) w).
Hypothesis P_scrollY : forall w y, P w -> P (set_scrollY (fun _ => y) w).

Lemma fold_invoke_invariant ev ls w :
  (forall l, In l ls -> on_domContentLoaded l = false) ->
  P w -> P (fold_left (fun w l => invoke (run_listener ev l) w) ls w).
Proof.
  revert w. induction ls as [|l ls IH]; intros w Hls Hw; [exact Hw|].
  simpl. apply IH; [intros; apply Hls; now right|].
  apply preserves_invoke; auto. apply P_listener, Hls. now left.
Qed.

Lemma dispatch_invariant ev sel w :
  (forall l, sel l = true -> on_domContentLoaded l = false) ->
  P w -> P (dispatch ev sel w).
Proof.
  intros Hsel. unfold dispatch. apply fold_invoke_invariant.
  intros l Hl. apply List.filter_In in Hl as [_ Hl]. now apply Hsel.
Qed.

Lemma handle_invariant ev w : P w -> P (handle ev w).
Proof.
  intros H. destruct ev; simpl;
    try (apply dispatch_invariant; auto; now intros []).
  - destruct (domContentLoaded w) eqn:E; auto.
  - revert w H. apply fold_left_invariant. intros.
    apply dispatch_invariant; auto. now intros [].
  - apply P_intersection; [exact H|].
    apply List.Forall_forall. intros en Hen.
    apply List.filter_In in Hen as [_ Hen].
    now apply bool_decide_eq_true in Hen.
  - destruct (timers w !! timer) as [[[] d cb]|] eqn:Ht; auto.
    apply (P_callback w timer _ H Ht).
  - destruct (timers w !! timer) as [[[] d cb]|] eqn:Ht; auto.
    apply (P_callback w timer _ H Ht).
Qed.

Lemma run_invariant evs w : P w -> P (run evs w).
Proof.
  unfold run. apply fold_left_invariant. intros. now apply handle_invariant.
Qed.
End Invariant.

(** The same, for a property that listeners, timer callbacks and observer
    callbacks keep whatever they are called with. *)
Section SimpleInvariant.
Variable P : World -> Prop.
Hypothesis P_listener : forall ev l, preserves P (run_listener ev l).
Hypothesis P_callback : forall t cb, preserves P (run_callback t cb).
Hypothesis P_observer : forall o es, preserves P (observer_of o es).
Hypothesis P_errors :
  forall w e, P w -> P (set_errors (fun es => es ++ [e]) w).
Hypothesis P_scrollY : forall w y, P w -> P (set_scrollY (fun _ => y) w).
Hypothesis P_loaded :
  forall w, P w -> P (set_domContentLoaded (fun _ => true) w).
Hypothesis P_timeout :
  forall w t, P w -> P (set_timers (delete t) w).

Lemma dispatch_simple_invariant ev sel w : P w -> P (dispatch ev sel w).
Proof.
  unfold dispatch. apply fold_left_invariant.
  intros a l Ha. apply preserves_invoke; auto.
Qed.

Lemma run_simple_invariant evs w : P w -> P (run evs w).
Proof.
  apply run_invariant; auto.
  - intros w' Hw' _. apply dispatch_simple_invariant; auto.
  - intros w' t tm Hw' _. destruct (repeats tm);
      apply preserves_invoke; auto.
  - intros w' o es Hw' _. apply preserves_invoke; auto.
Qed.
End SimpleInvariant.

(** ** The script at load *)

(** Two worlds with the same fields are the same world. *)
Lemma world_eq w1 w2 :
  page w1 = page w2 -> elems w1 = elems w2 -> body w1 = body w2 ->
  next_id w1 = next_id w2 -> head_styles w1 = head_styles w2 ->
  body_style w1 = body_style w2 -> scrollY w1 = scrollY w2 ->
  listeners w1 = listeners w2 -> observed w1 = observed w2 ->
  statsObserved w1 = statsObserved w2 -> timers w1 = timers w2 ->
  next_timer w1 = next_timer w2 -> originalText w1 = originalText w2 ->
  i w1 = i w2 -> konamiIndex w1 = konamiIndex w2 ->
  domContentLoaded w1 = domContentLoaded w2 -> prevented w1 = prevented w2 ->
  scrolls w1 = scrolls w2 -> alerts w1 = alerts w2 -> errors w1 = errors w2 ->
  w1 = w2.
Proof.
  destruct w1, w2; simpl; intros; subst; reflexivity.
Qed.

Ltac world_eq := apply world_eq; simpl; try reflexivity.

Lemma forEach_addEventListener {A} (f : A -> Listener) l w :
  forEach l (fun x => addEventListener (f x)) w
  = (Returned tt, set_listeners (fun ls => ls ++ map f l) w).
Proof.
  revert w. induction l as [|x l IH]; intros w; simpl.
  - unfold mret, JS_ret. f_equal. world_eq. now rewrite app_nil_r.
  - unfold mbind, JS_bind, addEventListener, modify. rewrite IH.
    f_equal. world_eq. now rewrite <- app_assoc.
Qed.

Lemma forEach_btns l w :
  forEach l each_btn w
  = (Returned tt,
     set_listeners (fun ls => ls ++ flat_map (fun btn =>
        [OnBtnMouseenter btn; OnBtnMouseleave btn]) l) w).
Proof.
  revert w. induction l as [|x l IH]; intros w; simpl.
  - unfold mret, JS_ret. f_equal. world_eq. now rewrite app_nil_r.
  - unfold mbind, JS_bind. unfold each_btn at 1.
    unfold mbind, JS_bind, addEventListener, modify.
    rewrite IH. f_equal. world_eq. now rewrite <- !app_assoc.
Qed.

(** The loop over the images changes styles only, and registers one
    listener per image. *)
Lemma forEach_images p l w :
  exists els,
    forEach l (each_image p) w
    = (Returned tt,
       set_listeners (fun ls => ls ++ map OnImgLoad l)
         (set_elems (fun _ => els) w))
    /\ forall e, content (els e) = content (elems w e).
Proof.
  revert w. induction l as [|x l IH]; intros w.
  - exists (elems w). split; [|reflexivity].
    simpl. unfold mret, JS_ret. f_equal. world_eq. now rewrite app_nil_r.
  - cbn [forEach].
    unfold mbind, JS_bind, mret, JS_ret.
    unfold each_image at 1.
    unfold mbind, JS_bind, mret, JS_ret, setStyle, update_elem,
      addEventListener, modify.
    destruct (complete p x); cbv beta iota;
      match goal with
      | |- context [forEach l ?f ?w1] =>
          destruct (IH w1) as (els & -> & Hc)
      end;
      (exists els; split;
       [ f_equal; world_eq; now rewrite <- app_assoc
       | intros e; rewrite Hc; simpl;
         unfold insert, fn_insert; repeat case_decide; subst; reflexivity ]).
Qed.

#[local] Arguments each_image : simpl never.
#[local] Arguments each_btn : simpl never.

(** On a page with a toggle control the script runs through. *)
Lemma load_ok p h :
  q_hamburger p = Some h ->
  exists els,
    load p = mkWorld p els (body0 p) (fresh0 p) [rainbowCSS] noStyle 0%float
               (script_listeners p h) [] [] (script_timers p)
               (script_next_timer p) (script_originalText p)
               0%nat 0%nat false [] [] [] []
    /\ (forall e, q_heroTitle p <> Some e ->
                  content (els e) = content (elements0 p e))
    /\ (forall t, q_heroTitle p = Some t -> content (els t) = Text []).
Proof.
  intros Hh. unfold load, invoke, script, script_listeners, script_timers,
    script_next_timer, script_originalText.
  unfold mbind, JS_bind, get. simpl. rewrite Hh. simpl.
  rewrite !forEach_addEventListener.
  destruct (q_heroTitle p) as [t|] eqn:Ht; unfold mret, JS_ret;
    match goal with
    | |- context [forEach (q_images p) ?f ?w1] =>
        destruct (forEach_images p (q_images p) w1) as (els & -> & Hc)
    end;
    rewrite forEach_btns, forEach_addEventListener;
    (exists els; split; [|split]).
  - world_eq. now rewrite <- !app_assoc.
  - intros e He. rewrite Hc. simpl. unfold insert, fn_insert.
    case_decide; [congruence | reflexivity].
  - intros t' [= <-]. rewrite Hc. simpl. unfold insert, fn_insert.
    case_decide; [reflexivity | congruence].
  - world_eq. now rewrite <- !app_assoc.
  - intros e He. rewrite Hc. reflexivity.
  - intros t' [=].
Qed.

(** Without a toggle control the script stops at its first statement. *)
Lemma load_without_hamburger p :
  q_hamburger p = None ->
  load p = set_errors (fun _ => [TypeError]) (initial p).
Proof.
  intros Hh. unfold load, invoke, script, mbind, JS_bind, get. simpl.
  rewrite Hh. reflexivity.
Qed.

(** ** What no event changes *)

(** Proves that every step keeps a property that the world updates keep,
    when [tac] shows the latter. *)
Ltac invariant_by tac :=
  apply run_simple_invariant;
  [ intros ev l; destruct l; simpl; try destruct ev; preserve; tac
  | intros t cb; destruct cb; simpl; preserve; tac
  | intros o es; destruct o; simpl; preserve; tac
  | intros; tac
  | intros; tac
  | intros; tac
  | intros; tac
  | tac .. ].

Lemma page_run evs w : page (run evs w) = page w.
Proof.
  pattern (run evs w). invariant_by ltac:(simpl; auto).
Qed.

(** Listeners are only added, and only to overlays. *)
Lemma listeners_run sel evs w :
  (forall m, sel (OnModalClick m) = false) ->
  List.filter sel (listeners (run evs w)) = List.filter sel (listeners w).
Proof.
  intros Hsel. pattern (run evs w).
  invariant_by ltac:(simpl; try rewrite List.filter_app; simpl;
                     try rewrite Hsel; try rewrite app_nil_r; auto).
Qed.

Lemma filter_map_nil {A B} (sel : B -> bool) (f : A -> B) l :
  (forall x, sel (f x) = false) -> List.filter sel (map f l) = [].
Proof.
  intros H. induction l as [|x l IH]; simpl; [reflexivity|].
  now rewrite H.
Qed.

Lemma filter_btns_nil (sel : Listener -> bool) l :
  (forall x, sel (OnBtnMouseenter x) = false) ->
  (forall x, sel (OnBtnMouseleave x) = false) ->
  List.filter sel
    (flat_map (fun btn => [OnBtnMouseenter btn; OnBtnMouseleave btn]) l) = [].
Proof.
  intros H1 H2. induction l as [|x l IH]; simpl; [reflexivity|].
  now rewrite H1, H2.
Qed.

(** The listeners of one kind among those of the script. *)
Ltac filter_script_listeners :=
  unfold script_listeners;
  rewrite ?List.filter_app; simpl;
  rewrite ?filter_map_nil by reflexivity;
  rewrite ?filter_btns_nil by reflexivity;
  simpl.

Lemma script_listeners_scroll p h :
  List.filter on_scroll (script_listeners p h)
  = [OnScrollNavbar; OnScrollParallax].
Proof. filter_script_listeners. reflexivity. Qed.

Lemma script_listeners_keydown p h :
  List.filter on_keydown (script_listeners p h) = [OnKeydown].
Proof. filter_script_listeners. reflexivity. Qed.

Lemma script_listeners_domContentLoaded p h :
  List.filter on_domContentLoaded (script_listeners p h) = [OnDOMContentLoaded].
Proof. filter_script_listeners. reflexivity. Qed.

(** The listeners of a kind that overlays do not have, after any events. *)
Lemma listeners_reachable sel p h evs :
  q_hamburger p = Some h ->
  (forall m, sel (OnModalClick m) = false) ->
  List.filter sel (listeners (run evs (load p)))
  = List.filter sel (script_listeners p h).
Proof.
  intros Hh Hsel. rewrite listeners_run by exact Hsel.
  destruct (load_ok p h Hh) as (els & -> & _). reflexivity.
Qed.

Lemma page_reachable p evs : page (run evs (load p)) = p.
Proof.
  rewrite page_run. unfold load, invoke.
  assert (H : preserves (fun w => page w = p) script).
  { unfold script. preserve; simpl; auto. }
  specialize (H (initial p) eq_refl).
  destruct (script (initial p)) as [[a|e] w']; simpl in *; exact H.
Qed.

(** ** Scroll Reactor: the navbar *)

(** The navbar handler alone, on any world with a navbar. *)
Lemma scroll_navbar_look w nb :
  q_navbar (page w) = Some nb ->
  navbar_look (invoke scroll_navbar w) nb = spec_navbar_look (scrollY w).
Proof.
  intros Hnb. unfold invoke, scroll_navbar, spec_navbar_look, navbar_look,
    mbind, JS_bind, get. simpl. rewrite Hnb.
  destruct (100 <? scrollY w)%float; simpl;
    unfold insert, fn_insert; repeat case_decide; try congruence; reflexivity.
Qed.

Lemma scroll_parallax_look w nb :
  navbar_look (invoke scroll_parallax w) nb = navbar_look w nb.
Proof.
  unfold invoke, scroll_parallax, navbar_look, mbind, JS_bind, get. simpl.
  destruct (q_hero (page w)) as [hero|]; simpl; [|reflexivity].
  unfold insert, fn_insert. case_decide; subst; reflexivity.
Qed.

(** C6. After every scroll event the background and the shadow of the navbar
    are those the offset alone decides, elevated above 100 and resting
    otherwise: elevated at offset 101, resting at offset 100. *)
Theorem navbar_look_function_of_offset p h nb evs y :
  q_hamburger p = Some h ->
  q_navbar p = Some nb ->
  let w := handle (EvScroll y) (run evs (load p)) in
  navbar_look w nb = spec_navbar_look y
  /\ (y = 101%float -> navbar_look w nb = ELEVATED)
  /\ (y = 100%float -> navbar_look w nb = RESTING).
Proof.
  intros Hh Hnb w.
  assert (Hw : navbar_look w nb = spec_navbar_look y).
  { subst w. simpl. unfold dispatch. simpl.
    rewrite (listeners_reachable on_scroll p h evs Hh) by reflexivity.
    rewrite script_listeners_scroll. simpl.
    rewrite scroll_parallax_look, scroll_navbar_look; [reflexivity|].
    simpl. now rewrite page_reachable. }
  split; [exact Hw|]. split; intros ->; rewrite Hw; reflexivity.
Qed.

(** ** Konami Detector *)

Lemma keydown_listeners code w :
  listeners (invoke (keydown code) w) = listeners w.
Proof.
  assert (H : preserves (fun w' => listeners w' = listeners w) (keydown code))
    by (preserve; simpl; auto).
  apply (preserves_invoke _ _ H); auto.
Qed.

(** With the one listener of the script, feeding keys is running the
    handler on each. *)
Lemma feed_keydown codes w :
  List.filter on_keydown (listeners w) = [OnKeydown] ->
  feed codes w = fold_left (fun w code => invoke (keydown code) w) codes w.
Proof.
  unfold feed, run. revert w.
  induction codes as [|c codes IH]; intros w Hl; simpl; [reflexivity|].
  unfold dispatch. rewrite Hl. simpl. apply IH.
  now rewrite keydown_listeners.
Qed.

Lemma feed_app codes1 codes2 w :
  feed (codes1 ++ codes2) w = feed codes2 (feed codes1 w).
Proof. unfold feed, run. now rewrite map_app, fold_left_app. Qed.

Lemma feed_konamiCode w :
  List.filter on_keydown (listeners w) = [OnKeydown] ->
  konamiIndex w = 0%nat ->
  feed konamiCode w = celebrated w.
Proof.
  intros Hl Hi. rewrite feed_keydown by exact Hl.
  destruct w; simpl in *; subst. reflexivity.
Qed.

Lemma celebrated_ready w :
  List.filter on_keydown (listeners w) = [OnKeydown] ->
  konamiIndex w = 0%nat ->
  List.filter on_keydown (listeners (celebrated w)) = [OnKeydown]
  /\ konamiIndex (celebrated w) = 0%nat.
Proof. intros Hl Hi. split; [exact Hl | exact Hi]. Qed.

Lemma keydown_mismatch code w :
  konamiCode !! konamiIndex w <> Some code ->
  invoke (keydown code) w = set_konamiIndex (fun _ => 0%nat) w.
Proof.
  intros H. unfold invoke, keydown, mbind, JS_bind, get.
  rewrite bool_decide_eq_false_2 by exact H. reflexivity.
Qed.

Lemma nine_keys w :
  konamiIndex w = 0%nat ->
  fold_left (fun w code => invoke (keydown code) w) (firstn 9 konamiCode) w
  = set_konamiIndex (fun _ => 9%nat) w.
Proof.
  intros Hi. destruct w; simpl in Hi; subst. reflexivity.
Qed.

Lemma feed_nine_then_wrong w wrong :
  List.filter on_keydown (listeners w) = [OnKeydown] ->
  konamiIndex w = 0%nat ->
  wrong <> js "KeyA" ->
  feed (firstn 9 konamiCode ++ [wrong]) w = w.
Proof.
  intros Hl Hi Hw. rewrite feed_keydown by exact Hl.
  rewrite fold_left_app, nine_keys by exact Hi.
  cbn [fold_left]. rewrite keydown_mismatch.
  - world_eq. now rewrite Hi.
  - cbn [konamiIndex set_konamiIndex]. intros [= E]. apply Hw. now rewrite <- E.
Qed.

(** The end of the effect: the timeout that [celebrated] leaves clears the
    animation and shows the message, once. *)
Lemma celebrated_timeout w :
  let w' := handle (EvTimeout (next_timer w)) (celebrated w) in
  alerts w' = alerts w ++ [CELEBRATION]
  /\ animation (body_style w') = []
  /\ konamiIndex w' = konamiIndex w
  /\ listeners w' = listeners w
  /\ next_timer w' = S (next_timer w).
Proof.
  destruct w; simpl. rewrite lookup_insert_eq. simpl. repeat split.
Qed.

(** C2. From the detector at index zero: the ten keys of the sequence
    trigger the effect once (the animation, and one message when its timeout
    fires) and leave the index at zero; nine correct keys and a wrong one
    leave the index at zero and nothing triggered; the sequence twice
    triggers the effect twice. *)
Theorem konami_detector p h evs wrong :
  q_hamburger p = Some h ->
  konamiIndex (run evs (load p)) = 0%nat ->
  wrong <> js "KeyA" ->
  let w := run evs (load p) in
  let t := next_timer w in
  (feed konamiCode w = celebrated w
   /\ konamiIndex (feed konamiCode w) = 0%nat
   /\ animation (body_style (feed konamiCode w)) = RAINBOW
   /\ alerts (feed konamiCode w) = alerts w
   /\ alerts (handle (EvTimeout t) (feed konamiCode w))
      = alerts w ++ [CELEBRATION])
  /\ feed (firstn 9 konamiCode ++ [wrong]) w = w
  /\ (feed (konamiCode ++ konamiCode) w = celebrated (celebrated w)
      /\ konamiIndex (feed (konamiCode ++ konamiCode) w) = 0%nat
      /\ alerts (run [EvTimeout t; EvTimeout (S t)]
                     (feed (konamiCode ++ konamiCode) w))
         = alerts w ++ [CELEBRATION; CELEBRATION]).
Proof.
  intros Hh Hi Hw w t.
  assert (Hl : List.filter on_keydown (listeners w) = [OnKeydown]).
  { subst w. rewrite (listeners_reachable on_keydown p h evs Hh) by reflexivity.
    apply script_listeners_keydown. }
  assert (H1 : feed konamiCode w = celebrated w)
    by (apply feed_konamiCode; assumption).
  split; [|split].
  - rewrite H1. repeat split; try (now destruct w).
    + exact Hi.
    + apply celebrated_timeout.
  - now apply feed_nine_then_wrong.
  - assert (H2 : feed (konamiCode ++ konamiCode) w = celebrated (celebrated w)).
    { rewrite feed_app, H1. apply feed_konamiCode; now apply celebrated_ready. }
    rewrite H2. repeat split.
    + exact Hi.
    + subst t. clear. destruct w; simpl.
      rewrite lookup_insert_ne by lia. rewrite lookup_insert_eq. simpl.
      rewrite lookup_delete_ne by lia. rewrite lookup_insert_eq. simpl.
      now rewrite <- app_assoc.
Qed.

(** ** Counter Animator *)

Lemma handle_tick_running w t env :
  timers w !! t = Some (mkTimer true 30 (CounterTick env)) ->
  (numericTarget env <=? current env + increment env)%float = false ->
  let w' := handle (EvIntervalTick t) w in
  timers w' !! t
  = Some (mkTimer true 30
            (CounterTick (mkCounterEnv (element env) (target env)
               (numericTarget env) (increment env)
               (current env + increment env)%float)))
  /\ textContent (elems w' (element env))
     = frame (target env) (current env + increment env)%float.
Proof.
  intros Ht Hr. simpl. rewrite Ht. simpl.
  unfold invoke, counter_tick, mbind, JS_bind, modify. simpl. rewrite Hr.
  simpl. rewrite lookup_insert_eq. split; [reflexivity|].
  unfold insert at 1, fn_insert. case_decide; [reflexivity | congruence].
Qed.

Lemma handle_tick_reached w t env :
  timers w !! t = Some (mkTimer true 30 (CounterTick env)) ->
  (numericTarget env <=? current env + increment env)%float = true ->
  let w' := handle (EvIntervalTick t) w in
  timers w' !! t = None
  /\ textContent (elems w' (element env)) = target env.
Proof.
  intros Ht Hr. simpl. rewrite Ht. simpl.
  unfold invoke, counter_tick, mbind, JS_bind, modify. simpl. rewrite Hr.
  simpl. rewrite lookup_delete_eq. split; [reflexivity|].
  unfold insert at 1, fn_insert. case_decide; [reflexivity | congruence].
Qed.

Lemma handle_tick_cleared w t :
  timers w !! t = None -> handle (EvIntervalTick t) w = w.
Proof. intros Ht. simpl. now rewrite Ht. Qed.

Lemma run_app evs1 evs2 w : run (evs1 ++ evs2) w = run evs2 (run evs1 w).
Proof. unfold run. apply fold_left_app. Qed.

Lemma ticks_succ t n w :
  run (ticks t (S n)) w = handle (EvIntervalTick t) (run (ticks t n) w).
Proof.
  unfold ticks. simpl repeat. rewrite repeat_cons, run_app. reflexivity.
Qed.

Lemma ticks_cleared t n w :
  timers w !! t = None -> run (ticks t n) w = w.
Proof.
  intros Ht. induction n as [|n IH]; [reflexivity|].
  rewrite ticks_succ, IH. now apply handle_tick_cleared.
Qed.

(** While the target is not reached, each tick adds the increment and shows
    the floor of the running value. *)
Lemma ticks_running t el tg nt inc n w :
  timers w !! t
  = Some (mkTimer true 30 (CounterTick (mkCounterEnv el tg nt inc 0))) ->
  (forall k, (1 <= k <= n)%nat -> reached nt inc k = false) ->
  let w' := run (ticks t n) w in
  timers w' !! t
  = Some (mkTimer true 30
            (CounterTick (mkCounterEnv el tg nt inc (running inc n))))
  /\ ((1 <= n)%nat -> textContent (elems w' el) = frame tg (running inc n)).
Proof.
  intros Ht. induction n as [|n IH]; intros Hr.
  - split; [exact Ht | lia].
  - destruct IH as [IHt _]; [intros k Hk; apply Hr; lia|].
    rewrite ticks_succ.
    destruct (handle_tick_running _ _ _ IHt) as [Ht' Hx].
    { apply (Hr (S n)). lia. }
    split; [exact Ht' | intros _; exact Hx].
Qed.

(** At the first tick that reaches the target the interval stops and the
    literal is shown, for good. *)
Lemma ticks_reached t el tg nt inc n m w :
  timers w !! t
  = Some (mkTimer true 30 (CounterTick (mkCounterEnv el tg nt inc 0))) ->
  (forall k, (1 <= k < S n)%nat -> reached nt inc k = false) ->
  reached nt inc (S n) = true ->
  let w' := run (ticks t (S n + m)) w in
  timers w' !! t = None /\ textContent (elems w' el) = tg.
Proof.
  intros Ht Hr Hn. cbv zeta.
  unfold ticks. rewrite repeat_app, run_app.
  fold (ticks t (S n)) (ticks t m). rewrite ticks_succ.
  destruct (ticks_running t el tg nt inc n w Ht) as [Ht' _].
  { intros k Hk. apply Hr. lia. }
  destruct (handle_tick_reached _ _ _ Ht' Hn) as [Hc Hx].
  rewrite ticks_cleared by exact Hc. split; assumption.
Qed.

(** Coming into view starts the animation, once. *)
Lemma becomes_visible_starts w el :
  el ∈ statsObserved w ->
  textContent (elems w el) <> INFINITY_SIGN ->
  let w1 := handle (becomes_visible el) w in
  timers w1 !! next_timer w
  = Some (counter_interval el (textContent (elems w el)) 0)
  /\ elems w1 = elems w
  /\ el ∉ statsObserved w1.
Proof.
  intros Ho Hx. cbv zeta. unfold becomes_visible.
  cbn [handle observer_of observed_by List.filter fst snd].
  rewrite bool_decide_eq_true_2 by exact Ho.
  unfold statsObserver_callback. cbn [forEach fst snd].
  unfold invoke, animateCounter, mbind, JS_bind, get.
  rewrite bool_decide_eq_false_2 by exact Hx.
  unfold setTimer, mbind, JS_bind, get, modify, mret, JS_ret. cbn.
  rewrite lookup_insert_eq. split; [reflexivity|]. split; [reflexivity|].
  intros Hin. apply list_elem_of_filter in Hin as [Hne _].
  now apply Hne.
Qed.



(** *** Literals that are no number *)

Lemma running_nan n : (1 <= n)%nat -> running nan n = nan.
Proof.
  induction n as [|[|n] IH]; intros Hn; [lia | reflexivity |].
  change (running nan (S (S n))) with (running nan (S n) + nan)%float.
  rewrite IH by lia. reflexivity.
Qed.

Lemma reached_nan n : reached nan nan n = false.
Proof.
  destruct n as [|n]; [reflexivity|].
  unfold reached. rewrite running_nan by lia. reflexivity.
Qed.

(** C10, as amended. A counter whose literal is not the infinite sign and
    reads as no number once its first '+' is removed: once visible, no tick
    reaches the target, the interval stays in the timer table, and every
    tick sets the text to "NaN", followed by '+' when the literal has one. *)
Theorem counter_nan_never_stops w el literal :
  el ∈ statsObserved w ->
  textContent (elems w el) = literal ->
  literal <> INFINITY_SIGN ->
  target_of literal = nan ->
  forall n, (1 <= n)%nat ->
    let t := next_timer w in
    let wn := run (ticks t n) (handle (becomes_visible el) w) in
    reached (target_of literal) (increment_of literal) n = false
    /\ timers wn !! t
       = Some (mkTimer true 30
                 (CounterTick (mkCounterEnv el literal nan nan nan)))
    /\ textContent (elems wn el)
       = js "NaN" ++ (if includes PLUS literal then js "+" else []).
Proof.
  intros Ho Hx Hne Hnan n Hn t wn.
  destruct (becomes_visible_starts w el Ho) as (Ht & _ & _);
    [now rewrite Hx|].
  rewrite Hx in Ht. unfold counter_interval in Ht.
  unfold increment_of. fold (target_of literal) in Ht. rewrite Hnan in *.
  change (nan / 50)%float with nan in *.
  destruct (ticks_running t el literal nan nan n _ Ht) as [Ht' Hf].
  { intros k _. apply reached_nan. }
  specialize (Hf Hn). rewrite running_nan in Ht', Hf by exact Hn.
  split; [apply reached_nan|]. split; [exact Ht' | exact Hf].
Qed.

(** The literal "++5" reads as no number once a trailing '+' is stripped
    (it has none), yet the script removes its first '+' and animates to 5:
    the first tick shows "0+". *)
Lemma counter_nan_counterexample : ~ spec_never_stops demo_ready 15%nat.
Proof.
  intros H.
  assert (Ho : 15%nat ∈ statsObserved demo_ready)
    by (vm_compute; repeat constructor).
  specialize (H Ho).
  assert (Hne : textContent (elems demo_ready 15%nat) <> INFINITY_SIGN)
    by (vm_compute; discriminate).
  specialize (H Hne).
  assert (Hp : parseInt (strip_trailing_plus
                           (textContent (elems demo_ready 15%nat))) = nan)
    by (vm_compute; reflexivity).
  destruct (H Hp 1%nat (le_n 1)) as [_ Htext].
  vm_compute in Htext. discriminate Htext.
Qed.

(** *** Counters that show the infinite sign *)

Lemma preserves_forEach_In {A} P (l : list A) (f : A -> JS unit) :
  (forall x, In x l -> preserves P (f x)) -> preserves P (forEach l f).
Proof.
  induction l as [|x l IH]; intros Hf; simpl.
  - apply preserves_ret.
  - apply preserves_bind; [apply Hf; now left|].
    intros _. apply IH. intros y Hy. apply Hf. now right.
Qed.

Lemma preserves_get_bind {B} P (k : World -> JS B) :
  (forall w, P w -> P (snd (k w w))) -> preserves P (mbind k get).
Proof. intros H w Hw. apply H, Hw. Qed.

(** Nothing the script does changes whether the document is ready. *)
Lemma ready_kept_listener ev l :
  preserves (fun w => domContentLoaded w = true) (run_listener ev l).
Proof. destruct l; simpl; try destruct ev; preserve; simpl; auto. Qed.

Lemma ready_kept_callback t cb :
  preserves (fun w => domContentLoaded w = true) (run_callback t cb).
Proof. destruct cb; simpl; preserve; simpl; auto. Qed.

Lemma ready_kept_observer o es :
  preserves (fun w => domContentLoaded w = true) (observer_of o es).
Proof. destruct o; simpl; preserve; simpl; auto. Qed.

Lemma ready_after_dispatch ev sel w :
  domContentLoaded w = true -> domContentLoaded (dispatch ev sel w) = true.
Proof.
  apply (dispatch_simple_invariant (fun w => domContentLoaded w = true)).
  - apply ready_kept_listener.
  - auto.
Qed.

(** The timers that listeners and timeouts add are no counter intervals. *)
Ltac not_ready_leaf :=
  lazymatch goal with
  | H : not_ready _ |- not_ready _ =>
      destruct H as [H|[H1 H2]];
      [ left; exact H
      | right; split; [exact H1|];
        intros t' tm' env'; simpl;
        try (intros [[_ <-]|[_ Hold]]%lookup_insert_Some;
             [discriminate | exact (H2 _ _ _ Hold)]);
        try (intros [_ Hold]%lookup_delete_Some; exact (H2 _ _ _ Hold));
        try apply H2 ]
  end.

Lemma not_ready_run evs w : not_ready w -> not_ready (run evs w).
Proof.
  apply run_invariant.
  - intros ev l Hl. destruct l; try discriminate Hl; simpl; try destruct ev;
      preserve; not_ready_leaf.
  - intros w' Hw' _. left. now apply ready_after_dispatch.
  - intros w' t tm Hw' Ht. destruct Hw' as [Hr|[Ho Hn]].
    + destruct (repeats tm); left;
        (apply (preserves_invoke _ _ (ready_kept_callback _ _)); auto).
    + destruct tm as [rep d cb]. simpl.
      destruct cb as [env| |];
        [exfalso; exact (Hn _ _ env Ht eq_refl)| |];
        destruct rep;
        (apply preserves_invoke;
         [ simpl; preserve; not_ready_leaf
         | intros; not_ready_leaf
         | try (right; split; [exact Ho|];
                intros t' tm' env'; simpl;
                intros [_ Hold]%lookup_delete_Some;
                exact (Hn _ _ _ Hold));
           try (right; split; assumption) ]).
  - intros w' o es Hw' Hes. destruct Hw' as [Hr|[Ho Hn]].
    + left. apply (preserves_invoke _ _ (ready_kept_observer _ _)); auto.
    + destruct o.
      * apply preserves_invoke;
          [simpl; preserve; not_ready_leaf | intros; not_ready_leaf
          | right; split; assumption].
      * simpl in Hes. rewrite Ho in Hes. destruct es as [|en es].
        -- right. split; assumption.
        -- apply Forall_cons in Hes as [Hen _]. inversion Hen.
  - intros; not_ready_leaf.
  - intros; not_ready_leaf.
Qed.

(** Every interval is the interval of a counter, whatever happens. *)
Ltac intervals_leaf :=
  lazymatch goal with
  | H : intervals_are_counters _ |- intervals_are_counters _ =>
      intros t' tm'; simpl;
      try (intros [[_ <-]|[_ Hold]]%lookup_insert_Some;
           [ simpl; first [discriminate | intros _; eexists; reflexivity]
           | exact (H _ _ Hold) ]);
      try (intros [_ Hold]%lookup_delete_Some; exact (H _ _ Hold));
      try apply H
  end.

Lemma intervals_are_counters_run evs w :
  intervals_are_counters w -> intervals_are_counters (run evs w).
Proof.
  invariant_by ltac:(try intervals_leaf).
Qed.

Lemma left_alone_style el e f w :
  left_alone el w ->
  left_alone el (set_elems (fun els => <[e := with_style f (els e)]> els) w).
Proof.
  intros (H1 & H2 & H3). split; [exact H1|]. split; [exact H2|].
  simpl. unfold insert, fn_insert. case_decide; subst; exact H3.
Qed.

Lemma left_alone_text el e s w :
  e <> el -> left_alone el w ->
  left_alone el
    (set_elems (fun els => <[e := with_content (Text s) (els e)]> els) w).
Proof.
  intros He (H1 & H2 & H3). split; [exact H1|]. split; [exact H2|].
  simpl. unfold insert, fn_insert. case_decide; [congruence | exact H3].
Qed.

Lemma left_alone_insert el t tm w :
  (forall env, callback tm = CounterTick env -> element env <> el) ->
  left_alone el w ->
  left_alone el (set_timers (fun ts => <[t := tm]> ts) w).
Proof.
  intros Htm (H1 & H2 & H3). split; [exact H1|]. split; [|exact H3].
  intros t' tm' env. simpl.
  intros [[_ <-]|[_ Hold]]%lookup_insert_Some; [apply Htm | exact (H2 _ _ _ Hold)].
Qed.

Lemma left_alone_delete el t w :
  left_alone el w -> left_alone el (set_timers (fun ts => delete t ts) w).
Proof.
  intros (H1 & H2 & H3). split; [exact H1|]. split; [|exact H3].
  intros t' tm' env. simpl.
  intros [_ Hold]%lookup_delete_Some. exact (H2 _ _ _ Hold).
Qed.

Lemma left_alone_unobserve el e w :
  left_alone el w -> left_alone el (set_statsObserved (unobserve e) w).
Proof.
  intros (H1 & H2 & H3). split; [|split; [exact H2 | exact H3]].
  simpl. unfold unobserve. intros [_ Hin]%list_elem_of_filter. now apply H1.
Qed.

Lemma left_alone_observer el es :
  preserves (left_alone el) (observer_callback es).
Proof. preserve; now apply left_alone_style. Qed.

Lemma left_alone_animateCounter el e :
  e <> el -> preserves (left_alone el) (animateCounter e).
Proof.
  intros He. preserve; try assumption.
  apply left_alone_insert; [|assumption]. intros env [= <-]. exact He.
Qed.

Lemma left_alone_statsObserver el es :
  Forall (fun en => fst en <> el) es ->
  preserves (left_alone el) (statsObserver_callback es).
Proof.
  intros Hes. unfold statsObserver_callback.
  apply preserves_forEach_In. intros en Hen.
  assert (He : fst en <> el)
    by (exact (proj1 (List.Forall_forall _ _) Hes en Hen)).
  destruct (snd en); [|apply preserves_ret].
  apply preserves_bind; [now apply left_alone_animateCounter|].
  intros _. apply preserves_modify. intros w. apply left_alone_unobserve.
Qed.

Lemma left_alone_counter_tick el t env :
  element env <> el -> preserves (left_alone el) (counter_tick t env).
Proof.
  intros He. preserve.
  - apply left_alone_insert; [|assumption]. intros env' [= <-]. exact He.
  - now apply left_alone_text.
  - now apply left_alone_delete.
  - now apply left_alone_text.
Qed.

Lemma left_alone_errors el e w :
  left_alone el w -> left_alone el (set_errors (fun es => es ++ [e]) w).
Proof. intros H. exact H. Qed.

(** The events of the Counter Animator leave such a counter alone. *)
Lemma left_alone_handle el ev w :
  counter_event ev -> intervals_are_counters w ->
  left_alone el w -> left_alone el (handle ev w).
Proof.
  intros Hev Hi Hw. destruct ev; try contradiction; simpl.
  - apply preserves_invoke; [|intros; apply left_alone_errors|]; try assumption.
    destruct o; simpl; [apply left_alone_observer|].
    apply left_alone_statsObserver. apply List.Forall_forall.
    intros en [_ Hen]%List.filter_In. simpl in Hen.
    apply bool_decide_eq_true in Hen. intros E. rewrite E in Hen.
    now apply (proj1 Hw).
  - destruct (timers w !! timer) as [[[] d cb]|] eqn:Ht; try assumption.
    destruct (Hi _ _ Ht eq_refl) as [env Hcb]. simpl in Hcb. subst cb.
    apply preserves_invoke; [|intros; apply left_alone_errors|]; try assumption.
    simpl. apply left_alone_counter_tick.
    exact (proj1 (proj2 Hw) _ _ env Ht eq_refl).
Qed.

Lemma left_alone_observe el stat w :
  textContent (elems w stat) <> INFINITY_SIGN ->
  left_alone el w -> left_alone el (set_statsObserved (observe stat) w).
Proof.
  intros Hs (H1 & H2 & H3). split; [|split; [exact H2 | exact H3]].
  simpl. unfold observe. case_bool_decide; [exact H1|].
  intros [Hin|Hin%list_elem_of_singleton]%elem_of_app; [now apply H1|].
  subst. now apply Hs.
Qed.

(** Registration leaves such a counter alone: it is not observed. *)
Lemma left_alone_ready el : preserves (left_alone el) domContentLoaded_handler.
Proof.
  unfold domContentLoaded_handler.
  apply preserves_bind; [apply preserves_get | intros w0]. cbv zeta.
  apply preserves_bind; [|intros _; apply preserves_bind; [|intros _]].
  - preserve; first [now apply left_alone_style | assumption].
  - apply preserves_modify. intros w (H1 & H2 & H3).
    split; [|split; [exact H2 | exact H3]]. simpl. apply not_elem_of_nil.
  - apply preserves_forEach. intros stat. apply preserves_get_bind.
    intros w Hw. case_bool_decide; [|exact Hw].
    now apply left_alone_observe.
Qed.

Lemma fold_left_invariant_In {A B} (P : A -> Prop) (f : A -> B -> A) l :
  (forall a b, In b l -> P a -> P (f a b)) ->
  forall a, P a -> P (fold_left f l a).
Proof.
  induction l as [|b l IH]; intros Hf a Ha; simpl; [exact Ha|].
  apply IH; [intros; apply Hf; [now right | assumption]|].
  apply Hf; [now left | exact Ha].
Qed.

Lemma left_alone_document_ready el w :
  left_alone el w -> left_alone el (handle EvDOMContentLoaded w).
Proof.
  intros Hw. simpl. destruct (domContentLoaded w); [exact Hw|].
  unfold dispatch. apply fold_left_invariant_In; [|exact Hw].
  intros a l [_ Hl]%List.filter_In Ha.
  destruct l; try discriminate Hl.
  apply preserves_invoke; [apply left_alone_ready | auto | exact Ha].
Qed.

Lemma left_alone_run el evs w :
  Forall counter_event evs -> intervals_are_counters w ->
  left_alone el w -> left_alone el (run evs w).
Proof.
  revert w. induction evs as [|ev evs IH]; intros w Hevs Hi Hw; [exact Hw|].
  apply Forall_cons in Hevs as [Hev Hevs].
  change (run (ev :: evs) w) with (run evs (handle ev w)).
  apply IH; [exact Hevs | | now apply left_alone_handle].
  exact (intervals_are_counters_run [ev] w Hi).
Qed.

Lemma script_timers_lookup p t tm :
  script_timers p !! t = Some tm -> tm = mkTimer false 1000 TypeWriter.
Proof.
  unfold script_timers. destruct (q_heroTitle p).
  - now intros [_ <-]%lookup_singleton_Some.
  - now rewrite lookup_empty.
Qed.

(** The timers of the world that the script leaves. *)
Lemma load_timers p t tm :
  timers (load p) !! t = Some tm -> tm = mkTimer false 1000 TypeWriter.
Proof.
  destruct (q_hamburger p) as [h|] eqn:Hh.
  - destruct (load_ok p h Hh) as (els & -> & _). apply script_timers_lookup.
  - rewrite (load_without_hamburger p Hh). simpl. now rewrite lookup_empty.
Qed.

Lemma load_statsObserved p : statsObserved (load p) = [].
Proof.
  destruct (q_hamburger p) as [h|] eqn:Hh.
  - now destruct (load_ok p h Hh) as (els & -> & _).
  - now rewrite (load_without_hamburger p Hh).
Qed.

Lemma not_ready_load p : not_ready (load p).
Proof.
  right. split; [apply load_statsObserved|].
  intros t tm env Ht E. apply load_timers in Ht. now subst.
Qed.

Lemma intervals_are_counters_load p : intervals_are_counters (load p).
Proof.
  intros t tm Ht E. apply load_timers in Ht. now subst.
Qed.

(** C4. A counter that shows the infinite sign when the document gets
    ready is not registered with the observer of the counters; whatever
    intersections and ticks follow, it stays unobserved, no interval is made
    for it, and its text stays the infinite sign. *)
Theorem infinity_never_animated p evs0 evs el :
  let w0 := run evs0 (load p) in
  domContentLoaded w0 = false ->
  textContent (elems w0 el) = INFINITY_SIGN ->
  Forall counter_event evs ->
  let w := run evs (handle EvDOMContentLoaded w0) in
  (el ∉ statsObserved w)
  /\ no_interval_for el w
  /\ textContent (elems w el) = INFINITY_SIGN.
Proof.
  intros w0 Hflag Htext Hevs w.
  assert (H0 : left_alone el w0).
  { destruct (not_ready_run evs0 (load p) (not_ready_load p)) as [E|[Ho Hn]].
    - fold w0 in E. congruence.
    - fold w0 in Ho, Hn. split; [|split; [|exact Htext]].
      + rewrite Ho. apply not_elem_of_nil.
      + intros t tm env Ht E. exfalso. now apply (Hn t tm env). }
  apply left_alone_run; [exact Hevs | | now apply left_alone_document_ready].
  apply (intervals_are_counters_run [EvDOMContentLoaded]).
  apply intervals_are_counters_run, intervals_are_counters_load.
Qed.

(** ** Reveal Animator *)

Ltac style_leaf :=
  simpl; unfold insert, fn_insert; try case_decide; subst; simpl;
  first [assumption | reflexivity | idtac].

Lemma opaque_observer o es el : preserves (opaque el) (observer_of o es).
Proof. destruct o; simpl; preserve; unfold opaque in *; style_leaf. Qed.

Lemma opaque_scroll ev l el :
  on_scroll l = true -> preserves (opaque el) (run_listener ev l).
Proof.
  intros Hl. destruct l; try discriminate Hl; simpl; preserve;
    unfold opaque in *; style_leaf.
Qed.

Lemma in_place_observer o es el : preserves (in_place el) (observer_of o es).
Proof. destruct o; simpl; preserve; unfold in_place in *; style_leaf. Qed.

(** Scrolling moves the hero section only. *)
Lemma in_place_scroll ev l el :
  on_scroll l = true ->
  preserves (fun w => q_hero (page w) <> Some el /\ in_place el w)
            (run_listener ev l).
Proof.
  intros Hl. destruct l; try discriminate Hl; simpl.
  - preserve; unfold in_place in *;
      match goal with H : _ /\ _ |- _ => destruct H as [H1 H2] end;
      (split; [exact H1|]); simpl; unfold insert, fn_insert;
      case_decide; subst; exact H2.
  - unfold scroll_parallax. apply preserves_get_bind. intros w [Hh Hp].
    cbv zeta. destruct (q_hero (page w)) as [hero|] eqn:E;
      [|simpl; rewrite E; now split].
    split; [simpl; now rewrite E|].
    unfold in_place in *. simpl. unfold insert, fn_insert.
    case_decide; [congruence | exact Hp].
Qed.

Lemma reveal_event_handle ev (P : World -> Prop) w :
  reveal_event ev ->
  (forall l, on_scroll l = true -> preserves P (run_listener ev l)) ->
  (forall o es, preserves P (observer_of o es)) ->
  (forall w y, P w -> P (set_scrollY (fun _ => y) w)) ->
  (forall w e, P w -> P (set_errors (fun es => es ++ [e]) w)) ->
  P w -> P (handle ev w).
Proof.
  intros Hev Hs Ho Hy He Hw. destruct ev; try contradiction; simpl.
  - unfold dispatch. apply fold_left_invariant_In; [|now apply Hy].
    intros a l [_ Hl]%List.filter_In Ha.
    apply preserves_invoke; auto.
  - apply preserves_invoke; auto.
Qed.

Lemma reveal_events_run evs (P : World -> Prop) :
  Forall reveal_event evs ->
  (forall ev l, on_scroll l = true -> preserves P (run_listener ev l)) ->
  (forall o es, preserves P (observer_of o es)) ->
  (forall w y, P w -> P (set_scrollY (fun _ => y) w)) ->
  (forall w e, P w -> P (set_errors (fun es => es ++ [e]) w)) ->
  forall w, P w -> P (run evs w).
Proof.
  intros Hevs Hs Ho Hy He.
  induction evs as [|ev evs IH]; intros w Hw; [exact Hw|].
  apply Forall_cons in Hevs as [Hev Hevs].
  change (run (ev :: evs) w) with (run evs (handle ev w)).
  apply IH; [exact Hevs|]. apply reveal_event_handle; auto.
Qed.

(** C5, as amended. Whatever is scrolled and whatever intersects, an element
    that is fully opaque stays fully opaque; and an element at zero offset
    stays at zero offset unless it is the hero section, which the parallax
    moves at every scroll. *)
Theorem reveal_one_shot w el evs :
  Forall reveal_event evs ->
  (opaque el w -> opaque el (run evs w))
  /\ (q_hero (page w) <> Some el -> in_place el w -> in_place el (run evs w)).
Proof.
  intros Hevs. split.
  - apply (reveal_events_run evs (opaque el) Hevs); auto.
    + intros; now apply opaque_scroll.
    + intros; apply opaque_observer.
  - intros Hh Hp.
    apply (reveal_events_run evs
             (fun w => q_hero (page w) <> Some el /\ in_place el w) Hevs);
      auto.
    + intros; now apply in_place_scroll.
    + intros o es w' [H1 H2]. split.
      * assert (Hpg : preserves (fun w0 => page w0 = page w') (observer_of o es))
          by (destruct o; simpl; preserve; simpl; auto).
        now rewrite (Hpg w' eq_refl).
      * now apply in_place_observer.
Qed.

(** On a page whose hero section is also a revealed section, scrolling to
    offset 60 after the reveal gives the section its offset of 30px
    back. *)
Lemma reveal_counterexample : ~ spec_reveal_one_shot hero_revealed_page 6%nat.
Proof.
  intros H.
  destruct (H (or_introl eq_refl)
              [EvDOMContentLoaded;
               EvIntersection RevealObserver [(6%nat, true)]]
              [EvScroll 60%float]) as [_ Ht].
  - reflexivity.
  - reflexivity.
  - reflexivity.
  - repeat constructor.
  - apply Ht. vm_compute. reflexivity.
Qed.

(** ** Lightbox Controller *)

Lemma gallery_click_run img w :
  exists w',
    gallery_click img w = (Returned tt, w')
    /\ stage w' = stage_step (stage w) (OnGalleryClick img)
    /\ page w' = page w.
Proof.
  eexists. split; [reflexivity|]. split; reflexivity.
Qed.

Lemma modal_click_run m w :
  stage (snd (modal_click m w)) = stage_step (stage w) (OnModalClick m)
  /\ page (snd (modal_click m w)) = page w.
Proof.
  unfold modal_click, body_removeChild, mbind, JS_bind, get, stage.
  simpl. case_bool_decide; split; reflexivity.
Qed.

(** What a click listener does to the stage is [stage_step]. *)
Lemma click_listener_stage ev e l w :
  on_click e l = true ->
  stage (invoke (run_listener ev l) w) = stage_step (stage w) l
  /\ page (invoke (run_listener ev l) w) = page w.
Proof.
  intros Hl. destruct l; try discriminate Hl; simpl run_listener.
  - assert (H : preserves (fun w' => stage w' = stage w /\ page w' = page w)
                          hamburger_click)
      by (preserve; simpl; auto).
    apply (preserves_invoke _ _ H); auto.
  - assert (H : preserves (fun w' => stage w' = stage w /\ page w' = page w)
                          navLink_click)
      by (preserve; simpl; auto).
    apply (preserves_invoke _ _ H); auto.
  - assert (H : preserves (fun w' => stage w' = stage w /\ page w' = page w)
                          (anchor_click anchor))
      by (preserve; simpl; auto).
    apply (preserves_invoke _ _ H); auto.
  - destruct (gallery_click_run img w) as (w' & E & Hs & Hp).
    unfold invoke. rewrite E. split; assumption.
  - destruct (modal_click_run modal w) as [Hs Hp].
    unfold invoke. destruct (modal_click modal w) as [[a|x] w'];
      simpl in *; split; assumption.
Qed.

Lemma fold_click_listeners_stage ev e ls w :
  Forall (fun l => on_click e l = true) ls ->
  let w' := fold_left (fun w l => invoke (run_listener ev l) w) ls w in
  stage w' = fold_left stage_step ls (stage w) /\ page w' = page w.
Proof.
  revert w. induction ls as [|l ls IH]; intros w Hls; [now split|].
  apply Forall_cons in Hls as [Hl Hls]. simpl.
  destruct (click_listener_stage ev e l w Hl) as [Hs Hp].
  destruct (IH (invoke (run_listener ev l) w) Hls) as [Hs' Hp'].
  cbv zeta in Hs', Hp'. rewrite Hs', Hs, Hp', Hp. now split.
Qed.

Lemma dispatch_click_stage ev e w :
  stage (dispatch ev (on_click e) w)
  = fold_left stage_step (List.filter (on_click e) (listeners w)) (stage w)
  /\ page (dispatch ev (on_click e) w) = page w.
Proof.
  unfold dispatch. apply (fold_click_listeners_stage ev e).
  apply List.Forall_forall. now intros l [_ Hl]%List.filter_In.
Qed.

(** Only the listeners of the lightbox change the stage. *)
Lemma fold_stage_step_lightbox ls s :
  fold_left stage_step ls s
  = fold_left stage_step (List.filter lightbox_listener ls) s.
Proof.
  revert s. induction ls as [|l ls IH]; intros s; [reflexivity|].
  simpl. destruct (lightbox_listener l) eqn:E; simpl; rewrite IH.
  - reflexivity.
  - f_equal. destruct s as [[b n] L]. now destruct l.
Qed.

Lemma stage_invoke (m : JS unit) w :
  stage (invoke m w) = stage (snd (m w)) /\ page (invoke m w) = page (snd (m w)).
Proof. unfold invoke. destruct (m w) as [[a|e] w']; now split. Qed.

(** Nothing but the lightbox changes the stage. *)
Lemma stage_kept_listener s p ev l :
  lightbox_listener l = false ->
  preserves (fun w => stage w = s /\ page w = p) (run_listener ev l).
Proof.
  intros Hl. destruct l; try discriminate Hl; simpl; try destruct ev;
    preserve; simpl; auto.
Qed.

Lemma stage_kept_callback s p t cb :
  preserves (fun w => stage w = s /\ page w = p) (run_callback t cb).
Proof. destruct cb; simpl; preserve; simpl; auto. Qed.

Lemma stage_kept_observer s p o es :
  preserves (fun w => stage w = s /\ page w = p) (observer_of o es).
Proof. destruct o; simpl; preserve; simpl; auto. Qed.

Lemma elements_in_order_ext w w' :
  stage w' = stage w -> page w' = page w ->
  elements_in_order w -> elements_in_order w'.
Proof.
  unfold stage, elements_in_order. intros [= Hb Hn Hl] Hp.
  now rewrite Hb, Hn, Hl, Hp.
Qed.

Lemma elements_in_order_step w w' l :
  stage w' = stage_step (stage w) l -> page w' = page w ->
  elements_in_order w -> elements_in_order w'.
Proof.
  unfold stage, stage_step, elements_in_order.
  intros Hs Hp (Hb & Hf & Hl). rewrite Hp.
  destruct l; try (injection Hs as -> -> ->; now repeat split).
  - injection Hs as -> -> ->. split; [|split; [lia|]].
    + apply Forall_app. split.
      * eapply Forall_impl; [exact Hb|]. simpl. intros; lia.
      * apply Forall_singleton. simpl. lia.
    + apply Forall_app. split.
      * eapply Forall_impl; [exact Hl|]. intros []; simpl; auto; lia.
      * apply Forall_singleton. simpl. lia.
  - injection Hs as -> -> ->. split; [|split; assumption].
    case_bool_decide; [|exact Hb].
    apply Forall_forall. intros x [_ Hx]%list_elem_of_filter.
    revert x Hx. now apply Forall_forall.
Qed.

Lemma elements_in_order_listener ev l :
  preserves elements_in_order (run_listener ev l).
Proof.
  intros w Hw. destruct (lightbox_listener l) eqn:E.
  - assert (Hc : on_click (match l with
                           | OnGalleryClick x | OnModalClick x => x
                           | _ => 0%nat end) l = true)
      by (destruct l; try discriminate E; simpl; apply Nat.eqb_refl).
    destruct (click_listener_stage ev _ l w Hc) as [Hs Hp].
    destruct (stage_invoke (run_listener ev l) w) as [Hs' Hp'].
    rewrite Hs' in Hs. rewrite Hp' in Hp.
    exact (elements_in_order_step w _ l Hs Hp Hw).
  - destruct (stage_kept_listener (stage w) (page w) ev l E w) as [Hs Hp];
      [now split|].
    exact (elements_in_order_ext w _ Hs Hp Hw).
Qed.

Lemma elements_in_order_run evs w :
  elements_in_order w -> elements_in_order (run evs w).
Proof.
  apply run_simple_invariant.
  - apply elements_in_order_listener.
  - intros t cb w' Hw'.
    destruct (stage_kept_callback (stage w') (page w') t cb w') as [Hs Hp];
      [now split|].
    exact (elements_in_order_ext w' _ Hs Hp Hw').
  - intros o es w' Hw'.
    destruct (stage_kept_observer (stage w') (page w') o es w') as [Hs Hp];
      [now split|].
    exact (elements_in_order_ext w' _ Hs Hp Hw').
  - intros w' e Hw'. exact Hw'.
  - intros w' y Hw'. exact Hw'.
  - intros w' Hw'. exact Hw'.
  - intros w' t Hw'. exact Hw'.
Qed.

Lemma script_listeners_no_modal p h m :
  ~ In (OnModalClick m) (script_listeners p h).
Proof.
  unfold script_listeners. rewrite !in_app_iff, !in_map_iff, in_flat_map.
  simpl. intros H.
  repeat match goal with
         | H : _ \/ _ |- _ => destruct H as [H|H]
         | H : exists _, _ |- _ => destruct H as [? H]
         | H : _ /\ _ |- _ => destruct H as [H ?]
         end; try discriminate; try contradiction.
Qed.

Lemma script_listeners_gallery p h g :
  In (OnGalleryClick g) (script_listeners p h) -> In g (q_galleryImgs p).
Proof.
  unfold script_listeners. rewrite !in_app_iff, !in_map_iff, in_flat_map.
  simpl. intros H.
  repeat match goal with
         | H : _ \/ _ |- _ => destruct H as [H|H]
         | H : exists _, _ |- _ => destruct H as [? H]
         | H : _ /\ _ |- _ => destruct H as [H ?]
         end; try discriminate; try contradiction.
  now injection H as <-.
Qed.

Lemma elements_in_order_load p :
  page_wf p -> elements_in_order (load p).
Proof.
  intros (_ & Hg & Hb). destruct (q_hamburger p) as [h|] eqn:Hh.
  - destruct (load_ok p h Hh) as (els & -> & _).
    split; [exact Hb|]. split; [simpl; lia|]. simpl.
    apply List.Forall_forall. intros l Hl. destruct l; try exact I.
    + apply script_listeners_gallery in Hl.
      exact (proj1 (List.Forall_forall _ _) Hg _ Hl).
    + now apply script_listeners_no_modal in Hl.
  - rewrite (load_without_hamburger p Hh).
    split; [exact Hb|]. split; [simpl; lia | constructor].
Qed.

Lemma filter_filter_andb {A} (f g : A -> bool) l :
  List.filter f (List.filter g l) = List.filter (fun x => g x && f x) l.
Proof.
  induction l as [|x l IH]; [reflexivity|]. simpl.
  destruct (g x); simpl; [destruct (f x)|]; now rewrite IH.
Qed.

Lemma filter_none {A} (f : A -> bool) l :
  (forall x, In x l -> f x = false) -> List.filter f l = [].
Proof.
  induction l as [|x l IH]; intros H; [reflexivity|]. simpl.
  rewrite (H x) by now left. apply IH. intros; apply H; now right.
Qed.

Lemma plain_dispatch ev a w :
  plain_element w a ->
  stage (dispatch ev (on_click a) w) = stage w
  /\ page (dispatch ev (on_click a) w) = page w.
Proof.
  intros [_ Ha]. destruct (dispatch_click_stage ev a w) as [Hs Hp].
  split; [|exact Hp]. rewrite Hs, fold_stage_step_lightbox.
  rewrite filter_filter_andb, filter_none; [reflexivity|].
  intros l Hl. destruct (on_click a l) eqn:E; [|reflexivity].
  simpl. now apply Ha.
Qed.

Lemma plain_element_ext w w' a :
  next_id w' = next_id w -> listeners w' = listeners w ->
  plain_element w a -> plain_element w' a.
Proof. unfold plain_element. intros -> ->. auto. Qed.

Lemma plain_path ev anc w :
  Forall (plain_element w) anc ->
  stage (click_through ev anc w) = stage w
  /\ page (click_through ev anc w) = page w.
Proof.
  revert w. induction anc as [|a anc IH]; intros w Hanc; [now split|].
  apply Forall_cons in Hanc as [Ha Hanc]. unfold click_through. simpl.
  destruct (plain_dispatch ev a w Ha) as [Hs Hp].
  destruct (IH (dispatch ev (on_click a) w)) as [Hs' Hp'].
  { eapply Forall_impl; [exact Hanc|]. intros x.
    injection Hs as _ Hn Hl. now apply plain_element_ext. }
  unfold click_through in Hs', Hp'. rewrite Hs', Hp', Hs, Hp. now split.
Qed.

(** A click on a gallery image, on its way up through plain elements. *)
Lemma open_stage ev g anc w :
  List.filter lightbox_listener (List.filter (on_click g) (listeners w))
  = [OnGalleryClick g] ->
  Forall (plain_element w) anc ->
  stage (click_through ev (g :: anc) w)
  = (body w ++ [overlay w], S (S (next_id w)),
     listeners w ++ [OnModalClick (next_id w)])
  /\ page (click_through ev (g :: anc) w) = page w.
Proof.
  intros Hg Hanc. unfold click_through. simpl.
  destruct (dispatch_click_stage ev g w) as [Hs Hp].
  rewrite fold_stage_step_lightbox, Hg in Hs. simpl in Hs.
  destruct (plain_path ev anc (dispatch ev (on_click g) w)) as [Hs' Hp'].
  { eapply Forall_impl; [exact Hanc|]. intros a [Ha Hl].
    unfold plain_element. injection Hs as _ -> ->. split; [lia|].
    intros l [Hin|[<-|[]]]%in_app_iff; [now apply Hl|].
    simpl. intros E%Nat.eqb_eq. lia. }
  unfold click_through in Hs', Hp'. rewrite Hs', Hp', Hs, Hp. now split.
Qed.

Lemma filter_fresh_child b n kids :
  Forall (fun c => node_id c < n)%nat b ->
  filter (fun c => node_id c ≠ n) (b ++ [El n kids]) = b.
Proof.
  intros Hb. rewrite filter_app.
  rewrite (filter_cons_False _ (El n kids)) by (simpl; intros H; now apply H).
  simpl. rewrite app_nil_r.
  induction Hb as [|c b Hc Hb IH]; [reflexivity|].
  rewrite filter_cons_True by lia. now rewrite IH.
Qed.

(** A click on the overlay that was opened last, on its way up through
    plain elements. *)
Lemma close_stage ev b n kids n' L anc w :
  stage w = (b ++ [El n kids], n', L ++ [OnModalClick n]) ->
  Forall (fun c => node_id c < n)%nat b ->
  (forall l, In l L -> on_click n l = true -> lightbox_listener l = false) ->
  Forall (plain_element w) anc ->
  stage (click_through ev (n :: anc) w) = (b, n', L ++ [OnModalClick n])
  /\ page (click_through ev (n :: anc) w) = page w.
Proof.
  intros Hw Hb HL Hanc. unfold click_through. simpl.
  destruct (dispatch_click_stage ev n w) as [Hs Hp].
  assert (Hl : listeners w = L ++ [OnModalClick n]) by now injection Hw.
  rewrite fold_stage_step_lightbox, filter_filter_andb, Hw, Hl in Hs.
  rewrite List.filter_app, filter_none in Hs.
  2:{ intros l Hin. destruct (on_click n l) eqn:E; [|reflexivity].
      simpl. now apply HL. }
  simpl in Hs. rewrite Nat.eqb_refl in Hs. simpl in Hs.
  rewrite bool_decide_eq_true_2 in Hs.
  2:{ rewrite map_app. apply elem_of_app. right. simpl. apply list_elem_of_here. }
  rewrite filter_fresh_child in Hs by exact Hb.
  destruct (plain_path ev anc (dispatch ev (on_click n) w)) as [Hs' Hp'].
  { eapply Forall_impl; [exact Hanc|]. intros a Ha.
    injection Hw as _ Hn1 Hl1. injection Hs as _ Hn2 Hl2.
    apply (plain_element_ext w); [congruence | congruence | exact Ha]. }
  unfold click_through in Hs', Hp'. rewrite Hs', Hp', Hs, Hp. now split.
Qed.

Lemma filter_gallery_once g l :
  NoDup l -> In g l ->
  List.filter (on_gallery_click g) (map OnGalleryClick l) = [OnGalleryClick g].
Proof.
  intros Hnd. induction Hnd as [|x l Hx Hnd IH]; intros Hg; [destruct Hg|].
  simpl. destruct (Nat.eqb_spec x g) as [->|Hne].
  - f_equal. apply filter_none. intros y [z [<- Hz]]%in_map_iff. simpl.
    apply Nat.eqb_neq. intros ->. apply Hx. now apply list_elem_of_In.
  - destruct Hg as [->|Hg]; [contradiction | now apply IH].
Qed.

Lemma script_listeners_gallery_click p h g :
  NoDup (q_galleryImgs p) -> In g (q_galleryImgs p) ->
  List.filter (on_gallery_click g) (script_listeners p h) = [OnGalleryClick g].
Proof.
  intros Hnd Hg. unfold script_listeners. rewrite !List.filter_app. simpl.
  rewrite !(filter_map_nil (on_gallery_click g)) by reflexivity.
  rewrite (filter_btns_nil (on_gallery_click g)) by reflexivity.
  simpl. now apply filter_gallery_once.
Qed.

(** In a world in order, the lightbox listeners on an element of the page
    are its gallery listeners. *)
Lemma lightbox_on_page_element w g :
  elements_in_order w -> (g < fresh0 (page w))%nat ->
  List.filter lightbox_listener (List.filter (on_click g) (listeners w))
  = List.filter (on_gallery_click g) (listeners w).
Proof.
  intros (_ & _ & Hl) Hg. rewrite filter_filter_andb.
  apply List.filter_ext_in. intros l Hin.
  pose proof (proj1 (List.Forall_forall _ _) Hl l Hin) as Hb.
  destruct l; simpl; rewrite ?andb_true_r, ?andb_false_r; try reflexivity.
  simpl in Hb. apply Nat.eqb_neq. lia.
Qed.

(** In a world in order, a new element has no lightbox listener. *)
Lemma no_lightbox_on_new w n l :
  elements_in_order w -> (next_id w <= n)%nat ->
  In l (listeners w) -> on_click n l = true -> lightbox_listener l = false.
Proof.
  intros (_ & Hf & Hl) Hn Hin Hc.
  pose proof (proj1 (List.Forall_forall _ _) Hl l Hin) as Hb.
  destruct l; try reflexivity; simpl in *; apply Nat.eqb_eq in Hc; lia.
Qed.

Lemma plain_after_open w w1 a :
  next_id w1 = S (S (next_id w)) ->
  listeners w1 = listeners w ++ [OnModalClick (next_id w)] ->
  plain_element w a -> plain_element w1 a.
Proof.
  intros Hn Hl [Ha HL]. split; [lia|]. rewrite Hl.
  intros l [Hin|[<-|[]]]%in_app_iff; [now apply HL|].
  simpl. intros E%Nat.eqb_eq. lia.
Qed.

(** C8. On a page whose gallery images are distinct elements: a click on a
    gallery image appends one element to the page, the overlay with its
    image inside, and a click on that overlay, or on the image inside it,
    takes it away again: the children of the page and the element count are
    as before the first click. *)
Theorem lightbox_round_trip p h evs g anc anc2 :
  page_wf p ->
  q_hamburger p = Some h ->
  In g (q_galleryImgs p) ->
  let w := run evs (load p) in
  Forall (plain_element w) anc ->
  Forall (plain_element w) anc2 ->
  let modal := next_id w in
  let w1 := handle (EvClick (g :: anc)) w in
  let w2 := handle (EvClick (modal :: anc2)) w1 in
  let w2' := handle (EvClick (S modal :: modal :: anc2)) w1 in
  (body w1 = body w ++ [El modal [El (S modal) []]]
   /\ length (body w1) = S (length (body w))
   /\ element_count (body w1) = (element_count (body w) + 2)%nat)
  /\ (body w2 = body w /\ element_count (body w2) = element_count (body w))
  /\ (body w2' = body w /\ element_count (body w2') = element_count (body w)).
Proof.
  intros Hwf Hh Hg w Hanc Hanc2 modal w1 w2 w2'.
  assert (Ho : elements_in_order w)
    by (apply elements_in_order_run, elements_in_order_load, Hwf).
  assert (Hpg : page w = p) by apply page_reachable.
  assert (Hgf : (g < fresh0 (page w))%nat).
  { rewrite Hpg. destruct Hwf as (_ & Hf & _).
    exact (proj1 (List.Forall_forall _ _) Hf g Hg). }
  destruct (open_stage (EvClick (g :: anc)) g anc w) as [Hs1 Hp1];
    [|exact Hanc|].
  { rewrite (lightbox_on_page_element w g Ho Hgf).
    unfold w. rewrite (listeners_reachable _ p h evs Hh) by reflexivity.
    apply script_listeners_gallery_click; [apply Hwf | exact Hg]. }
  change (click_through (EvClick (g :: anc)) (g :: anc) w) with w1 in Hs1, Hp1.
  assert (Hb1 : body w1 = body w ++ [overlay w]) by now injection Hs1.
  assert (Hn1 : next_id w1 = S (S (next_id w))) by now injection Hs1.
  assert (Hl1 : listeners w1 = listeners w ++ [OnModalClick (next_id w)])
    by now injection Hs1.
  assert (Hplain : Forall (plain_element w1) anc2).
  { eapply Forall_impl; [exact Hanc2|]. intros a.
    now apply plain_after_open. }
  assert (Hclose : forall ev w',
            stage w' = stage w1 ->
            body (click_through ev (modal :: anc2) w') = body w).
  { intros ev w' Hw'.
    destruct (close_stage ev (body w) modal [El (S modal) []]
                (S (S (next_id w))) (listeners w) anc2 w') as [Hs _].
    - rewrite Hw'. exact Hs1.
    - apply Ho.
    - intros l. apply (no_lightbox_on_new w); [exact Ho | unfold modal; lia].
    - eapply Forall_impl; [exact Hplain|]. intros a.
      injection Hw' as _ Hn Hl. now apply (plain_element_ext w1).
    - now injection Hs. }
  split; [|split].
  - split; [exact Hb1|]. rewrite Hb1. split.
    + rewrite length_app. simpl. lia.
    + unfold element_count. rewrite map_app, list_sum_app. simpl. lia.
  - assert (E : body w2 = body w) by now apply Hclose.
    split; [exact E | now rewrite E].
  - assert (E : body w2' = body w).
    { unfold w2'. simpl handle. apply Hclose.
      apply plain_dispatch. split; [rewrite Hn1; unfold modal; lia|].
      rewrite Hl1. intros l [Hin|[<-|[]]]%in_app_iff.
      - apply (no_lightbox_on_new w); [exact Ho | unfold modal; lia | exact Hin].
      - simpl. intros E%Nat.eqb_eq. unfold modal in E. lia. }
    split; [exact E | now rewrite E].
Qed.

(** ** Smooth scrolling *)

(** What a click on an anchor does, by what [querySelector] answers. *)
Lemma anchor_click_cases anchor w :
  let w' := invoke (anchor_click anchor) w in
  prevented w' = prevented w ++ [anchor]
  /\ match querySelector (page w) (href (page w) anchor) with
     | QFound target =>
         scrolls w' = scrolls w
                      ++ [mkScrollTo (offsetTop (page w) target - 80) SMOOTH]
         /\ errors w' = errors w
     | QNull => scrolls w' = scrolls w /\ errors w' = errors w
     | QSyntaxError =>
         scrolls w' = scrolls w /\ errors w' = errors w ++ [SyntaxError]
     end.
Proof.
  unfold invoke, anchor_click, mbind, JS_bind, modify, get. simpl.
  destruct (querySelector (page w) (href (page w) anchor)); simpl;
    repeat split.
Qed.

(** C7, at a link whose href is a bare '#': the default is prevented, then
    [querySelector] rejects the selector and the handler throws, where the
    claim has a silent no-op. *)
Theorem anchor_click_bare_hash_throws :
  let w := handle (EvClick [4%nat]) demo_ready in
  href (page demo_ready) 4%nat = js "#"
  /\ prevented w = [4%nat]
  /\ scrolls w = []
  /\ errors w = [SyntaxError].
Proof. vm_compute. repeat split. Qed.

(** ** Missing elements *)

(** C3, at pages that lack an element.  Without the toggle control the
    script throws at its first statement: nothing is registered, so the keys
    of the Konami sequence and the timeouts do nothing.  Without the navbar
    every scroll event throws in the navbar listener (the parallax still
    runs).  Without the menu panel a click on the toggle control throws. *)
Theorem missing_element_throws :
  (errors (load no_hamburger_page) = [TypeError]
   /\ listeners (load no_hamburger_page) = []
   /\ timers (load no_hamburger_page) = ∅
   /\ feed konamiCode (load no_hamburger_page) = load no_hamburger_page
   /\ innerHTML (elems (load no_hamburger_page) 11%nat) = js "Hi <b>there</b>")
  /\ (let w := handle (EvScroll 150%float) (load no_navbar_page) in
      errors w = [TypeError]
      /\ transform (style (elems w 10%nat)) = js "translateY(75px)")
  /\ (let w := handle (EvClick [1%nat]) (load no_navMenu_page) in
      errors w = [TypeError]).
Proof.
  split; [|split].
  - rewrite (load_without_hamburger no_hamburger_page eq_refl).
    repeat split.
  - vm_compute. split; reflexivity.
  - vm_compute. reflexivity.
Qed.

(** ** Typing Animator *)

(** C9, at a title with markup.  The content is captured and cleared, the
    first call is due after 1000ms and each next one after 100ms; when the
    last timeout has run, the title holds the captured markup as text: its
    [innerHTML] is the escaped string, not the captured one. *)
Theorem typing_escapes_markup :
  let w0 := load demo_page in
  let w1 := run (typing_timeouts 1 1) w0 in
  let w := run (typing_timeouts 1 16) w0 in
  (originalText w0 = js "Hi <b>there</b>"
   /\ content (elems w0 11%nat) = Text []
   /\ timers w0 = {[ 1%nat := mkTimer false 1000 TypeWriter ]})
  /\ (innerHTML (elems w1 11%nat) = js "H"
      /\ timers w1 = {[ 2%nat := mkTimer false 100 TypeWriter ]})
  /\ (timers w = ∅
      /\ i w = length (originalText w)
      /\ content (elems w 11%nat) = Text (js "Hi <b>there</b>")
      /\ innerHTML (elems w 11%nat) = js "Hi &lt;b&gt;there&lt;/b&gt;"
      /\ innerHTML (elems w 11%nat) <> originalText w).
Proof.
  vm_compute. repeat split. discriminate.
Qed.

(** ** Typing Animator, in general *)

Lemma typed_clean s : Forall (fun x => x <> 0 /\ x <> 13) (typed s).
Proof.
  induction s as [|c s IH]; [constructor|].
  unfold typed. simpl. fold (typed s). apply Forall_app. split; [|exact IH].
  unfold typed1.
  destruct (Z.eqb_spec c 0); [constructor|].
  destruct (Z.eqb_spec c 13); repeat constructor; lia.
Qed.

Lemma parseText_last c : parseText 0 [c] = Some (typed1 c).
Proof.
  unfold typed1. simpl.
  destruct (Z.eqb_spec c 0); [reflexivity|].
  destruct (Z.eqb_spec c 13); [reflexivity|].
  destruct (Z.eqb_spec c AMP) as [->|?]; [reflexivity|].
  destruct (Z.eqb_spec c LT) as [->|?]; reflexivity.
Qed.

(** The parser reads back what the serialiser wrote, and the unit added. *)
Lemma parseText_escape cur c :
  Forall (fun x => x <> 0 /\ x <> 13) cur ->
  parseText 0 (escape cur ++ [c]) = Some (cur ++ typed1 c).
Proof.
  intros H. induction H as [|x cur [H0 H13] Hcur IH].
  - apply parseText_last.
  - unfold escape. simpl flat_map. fold (escape cur).
    rewrite <- app_assoc. unfold escape1.
    destruct (Z.eqb_spec x AMP) as [->|Ha].
    { simpl. unfold AMP in IH |- *. now rewrite IH. }
    destruct (Z.eqb_spec x NBSP) as [->|Hn].
    { simpl. now rewrite IH. }
    destruct (Z.eqb_spec x LT) as [->|Hl].
    { simpl. now rewrite IH. }
    destruct (Z.eqb_spec x GT) as [->|Hg].
    { simpl. now rewrite IH. }
    cbn [app parseText].
    rewrite (proj2 (Z.eqb_neq x 0) H0), (proj2 (Z.eqb_neq x 13) H13),
      (proj2 (Z.eqb_neq x AMP) Ha), (proj2 (Z.eqb_neq x LT) Hl).
    now rewrite IH.
Qed.

Lemma typing_load p h t :
  q_hamburger p = Some h -> q_heroTitle p = Some t ->
  typing p t (innerHTML (elements0 p t)) 0 (load p).
Proof.
  intros Hh Ht. destruct (load_ok p h Hh) as (els & -> & _ & Hc).
  unfold typing, script_timers, script_next_timer, script_originalText.
  rewrite Ht. simpl. repeat split; try reflexivity.
  - now apply Hc.
  - exists 1000. apply lookup_singleton_eq.
Qed.

Lemma firstn_succ {A} (l : list A) k c :
  nth_error l k = Some c -> firstn (S k) l = firstn k l ++ [c].
Proof.
  revert k. induction l as [|x l IH]; intros [|k] H; try discriminate.
  - now injection H as ->.
  - simpl in H. cbn [firstn]. now rewrite (IH k H).
Qed.

Lemma typing_step p t captured k w :
  q_heroTitle p = Some t ->
  typing p t captured k w -> (k < length captured)%nat ->
  typing p t captured (S k) (handle (EvTimeout (S k)) w).
Proof.
  intros Ht (Hp & Ho & Hi & Hc & [ms Hm] & Hn) Hk.
  destruct (nth_error captured k) as [c|] eqn:Hnth;
    [|apply nth_error_None in Hnth; lia].
  cbn [handle]. rewrite Hm. cbn [repeats callback run_callback].
  unfold invoke, typeWriter, mbind, JS_bind, get.
  cbn [page set_timers]. rewrite Hp, Ht. cbn [deref].
  unfold mret, JS_ret. cbn [originalText i set_timers].
  rewrite Ho, Hi, bool_decide_eq_true_2 by exact Hk.
  unfold setInnerHTML, update_elem, setTimer, mbind, JS_bind, get, modify,
    mret, JS_ret.
  cbn. unfold innerHTML, charAt. rewrite Hc, Hnth.
  unfold parseHTML. rewrite parseText_escape by apply typed_clean.
  unfold typing. cbn. rewrite Hn, lookup_insert_eq.
  repeat split; try assumption; try reflexivity; try (now rewrite Hi);
    try (now exists 100).
  unfold insert, fn_insert. rewrite decide_True by reflexivity. cbn.
  rewrite (firstn_succ _ _ _ Hnth). unfold typed.
  rewrite flat_map_app. simpl. now rewrite app_nil_r.
Qed.

Lemma typing_end p t captured w :
  q_heroTitle p = Some t ->
  typing p t captured (length captured) w ->
  let w' := handle (EvTimeout (S (length captured))) w in
  originalText w' = captured
  /\ content (elems w' t) = Text (typed captured)
  /\ timers w' !! S (length captured) = None.
Proof.
  intros Ht (Hp & Ho & Hi & Hc & [ms Hm] & Hn).
  cbn [handle]. rewrite Hm. cbn [repeats callback run_callback].
  unfold invoke, typeWriter, mbind, JS_bind, get.
  cbn [page set_timers]. rewrite Hp, Ht. cbn [deref].
  unfold mret, JS_ret. cbn [originalText i set_timers].
  rewrite Ho, Hi, bool_decide_eq_false_2 by lia.
  cbn. rewrite firstn_all in Hc. rewrite lookup_delete_eq.
  now repeat split.
Qed.

Lemma typing_timeouts_succ first n :
  typing_timeouts first (S n)
  = typing_timeouts first n ++ [EvTimeout (first + n)].
Proof. unfold typing_timeouts. now rewrite seq_S, map_app. Qed.

Lemma typing_run p h t k :
  q_hamburger p = Some h -> q_heroTitle p = Some t ->
  (k <= length (innerHTML (elements0 p t)))%nat ->
  typing p t (innerHTML (elements0 p t)) k
         (run (typing_timeouts 1 k) (load p)).
Proof.
  intros Hh Ht. induction k as [|k IH]; intros Hk.
  - now apply (typing_load p h).
  - rewrite typing_timeouts_succ, run_app.
    apply (typing_step p t _ k); [exact Ht | apply IH; lia | lia].
Qed.

Lemma escape_no_markup s : ~ In LT (escape s).
Proof.
  induction s as [|c s IH]; [intros []|].
  unfold escape. simpl. fold (escape s). rewrite in_app_iff.
  intros [H|H]; [|now apply IH]. unfold escape1 in H.
  destruct (Z.eqb_spec c AMP); [vm_compute in H; intuition discriminate|].
  destruct (Z.eqb_spec c NBSP); [vm_compute in H; intuition discriminate|].
  destruct (Z.eqb_spec c LT); [vm_compute in H; intuition discriminate|].
  destruct (Z.eqb_spec c GT); [vm_compute in H; intuition discriminate|].
  destruct H as [H|[]]. congruence.
Qed.

Lemma escape_plain s : Forall plain_unit s -> escape (typed s) = s.
Proof.
  induction 1 as [|c s (H0 & H13 & Ha & Hl & Hg & Hn) Hs IH]; [reflexivity|].
  unfold typed. simpl. fold (typed s). unfold typed1.
  rewrite (proj2 (Z.eqb_neq c 0) H0), (proj2 (Z.eqb_neq c 13) H13).
  unfold escape. simpl. fold (escape (typed s)). unfold escape1.
  rewrite (proj2 (Z.eqb_neq c AMP) Ha), (proj2 (Z.eqb_neq c NBSP) Hn),
    (proj2 (Z.eqb_neq c LT) Hl), (proj2 (Z.eqb_neq c GT) Hg).
  simpl. now rewrite IH.
Qed.

(** X1. On every page with a title, when the last timeout of the typing
    effect has run the title holds the captured string as one text node.
    Its markup is the escaped text: the captured string itself when that
    holds plain units only, and never when it holds a tag. *)
Theorem typing_result p h t :
  q_hamburger p = Some h -> q_heroTitle p = Some t ->
  let captured := innerHTML (elements0 p t) in
  let w := run (typing_timeouts 1 (S (length captured))) (load p) in
  originalText w = captured
  /\ content (elems w t) = Text (typed captured)
  /\ innerHTML (elems w t) = escape (typed captured)
  /\ (Forall plain_unit captured -> innerHTML (elems w t) = captured)
  /\ (In LT captured -> innerHTML (elems w t) <> captured).
Proof.
  intros Hh Ht captured w.
  assert (H : originalText w = captured
              /\ content (elems w t) = Text (typed captured)
              /\ timers w !! S (length captured) = None).
  { unfold w. rewrite typing_timeouts_succ, run_app.
    apply (typing_end p t); [exact Ht|].
    now apply (typing_run p h). }
  destruct H as (Ho & Hc & _).
  assert (Hi : innerHTML (elems w t) = escape (typed captured))
    by (unfold innerHTML; now rewrite Hc).
  repeat split; try assumption.
  - intros Hp. rewrite Hi. now apply escape_plain.
  - intros Hin E. rewrite Hi in E. rewrite <- E in Hin.
    now apply escape_no_markup in Hin.
Qed.

(** ** The properties, on the demo page *)

Lemma navbar_look_function_of_offset_witness :
  navbar_look (handle (EvScroll 101%float) (load demo_page)) 5%nat = ELEVATED
  /\ navbar_look (handle (EvScroll 100%float) (load demo_page)) 5%nat = RESTING.
Proof.
  split.
  - apply (navbar_look_function_of_offset demo_page 1%nat 5%nat [] 101%float);
      reflexivity.
  - apply (navbar_look_function_of_offset demo_page 1%nat 5%nat [] 100%float);
      reflexivity.
Defined.

Lemma konami_detector_witness :
  feed konamiCode (load demo_page) = celebrated (load demo_page)
  /\ feed (firstn 9 konamiCode ++ [js "KeyB"]) (load demo_page)
     = load demo_page
  /\ feed (konamiCode ++ konamiCode) (load demo_page)
     = celebrated (celebrated (load demo_page)).
Proof.
  assert (Hw : js "KeyB" <> js "KeyA") by discriminate.
  pose proof (konami_detector demo_page 1%nat [] (js "KeyB")
                eq_refl eq_refl Hw) as H.
  cbv zeta in H. split; [apply H|]. split; apply H.
Defined.


Lemma infinity_never_animated_witness :
  let w := run [becomes_visible 9%nat; EvIntervalTick 2%nat]
               (handle EvDOMContentLoaded (run [] (load demo_page))) in
  (9%nat ∉ statsObserved w)
  /\ no_interval_for 9%nat w
  /\ textContent (elems w 9%nat) = INFINITY_SIGN.
Proof.
  apply (infinity_never_animated demo_page []
           [becomes_visible 9%nat; EvIntervalTick 2%nat] 9%nat).
  - reflexivity.
  - reflexivity.
  - repeat constructor.
Defined.

Lemma reveal_one_shot_witness :
  let w := handle (EvIntersection RevealObserver [(7%nat, true)]) demo_ready in
  let evs := [EvScroll 150%float;
              EvIntersection RevealObserver [(7%nat, false)]] in
  (opaque 7%nat w -> opaque 7%nat (run evs w))
  /\ (q_hero (page w) <> Some 7%nat ->
      in_place 7%nat w -> in_place 7%nat (run evs w)).
Proof.
  apply reveal_one_shot. repeat constructor.
Defined.

Lemma counter_nan_never_stops_witness :
  let wn := run (ticks (next_timer demo_ready) 3)
                (handle (becomes_visible 16%nat) demo_ready) in
  reached (target_of (js "soon+")) (increment_of (js "soon+")) 3 = false
  /\ timers wn !! next_timer demo_ready
     = Some (mkTimer true 30
               (CounterTick (mkCounterEnv 16%nat (js "soon+") nan nan nan)))
  /\ textContent (elems wn 16%nat) = js "NaN+".
Proof.
  apply (counter_nan_never_stops demo_ready 16%nat (js "soon+")).
  - vm_compute. repeat constructor.
  - reflexivity.
  - discriminate.
  - reflexivity.
  - lia.
Defined.

Lemma demo_page_wf : page_wf demo_page.
Proof.
  split; [|split].
  - apply NoDup_singleton.
  - repeat constructor.
  - repeat constructor; cbn; lia.
Qed.

Lemma demo_plain a :
  In a [7%nat; 6%nat] -> plain_element (load demo_page) a.
Proof.
  intros Ha. split.
  - vm_compute in Ha |- *. intuition lia.
  - intros l Hl Hc. vm_compute in Hl.
    repeat (destruct Hl as [<-|Hl]; [try reflexivity|]);
      try contradiction;
      simpl in Ha; destruct Ha as [<-|[<-|[]]]; discriminate Hc.
Qed.

Lemma lightbox_round_trip_witness :
  let w := load demo_page in
  let w1 := handle (EvClick [12%nat; 7%nat; 6%nat]) w in
  let w2 := handle (EvClick [100%nat]) w1 in
  let w2' := handle (EvClick [101%nat; 100%nat]) w1 in
  (body w1 = body w ++ [El 100%nat [El 101%nat []]]
   /\ length (body w1) = S (length (body w))
   /\ element_count (body w1) = (element_count (body w) + 2)%nat)
  /\ (body w2 = body w /\ element_count (body w2) = element_count (body w))
  /\ (body w2' = body w /\ element_count (body w2') = element_count (body w)).
Proof.
  apply (lightbox_round_trip demo_page 1%nat [] 12%nat [7%nat; 6%nat] []).
  - exact demo_page_wf.
  - reflexivity.
  - now left.
  - apply List.Forall_forall. exact demo_plain.
  - constructor.
Defined.

(** The literals of the specification: "120+" and "42" are shown again when
    their animations end, after 50 ticks each, and the interval is gone. *)
Example counter_120_plus :
  let w := run (ticks 2 50) (handle (becomes_visible 8%nat) demo_ready) in
  textContent (elems w 8%nat) = js "120+" /\ timers w !! 2%nat = None.
Proof. vm_compute. split; reflexivity. Qed.

Example counter_42 :
  let w := run (ticks 2 50) (handle (becomes_visible 14%nat) demo_ready) in
  textContent (elems w 14%nat) = js "42" /\ timers w !! 2%nat = None.
Proof. vm_compute. split; reflexivity. Qed.

(** Every literal from "1" to "1000" is landed on at tick 50 or 51: the
    running value is a sum of binary64 numbers, and for some targets (5, 7,
    10, ...) fifty increments stay just below. *)
Example counters_land :
  forallb (fun n =>
             let literal := digits (Z.of_nat n) in
             negb (reached (target_of literal) (increment_of literal) 49)
             && reached (target_of literal) (increment_of literal) 51)
          (seq 1 1000) = true.
Proof. vm_compute. reflexivity. Qed.

(** The listener of the keys is the one that reads its event. *)
Ltac keydown_event ev :=
  lazymatch goal with
  | |- context [match ev with _ => _ end] => destruct ev
  end.

(** ** Parallax of the hero section *)




(** ** Listeners of one element *)

Lemma filter_eqb_repeat e l :
  List.filter (fun x => Nat.eqb x e) l
  = repeat e (length (List.filter (fun x => Nat.eqb x e) l)).
Proof.
  induction l as [|x l IH]; [reflexivity|]. simpl.
  destruct (Nat.eqb_spec x e) as [->|]; simpl; [f_equal|]; exact IH.
Qed.

Lemma filter_eqb_length e l :
  In e l -> (1 <= length (List.filter (fun x => Nat.eqb x e) l))%nat.
Proof.
  intros H. assert (Hin : In e (List.filter (fun x => Nat.eqb x e) l)).
  { apply List.filter_In. split; [exact H | apply Nat.eqb_refl]. }
  destruct (List.filter (fun x => Nat.eqb x e) l); [destruct Hin | simpl; lia].
Qed.

Lemma map_repeat {A B} (f : A -> B) a n : map f (repeat a n) = repeat (f a) n.
Proof. induction n as [|n IH]; simpl; [reflexivity | now rewrite IH]. Qed.

(** What the last of several calls establishes. *)
Lemma fold_repeat_last {A B} (f : A -> B -> A) (Q : A -> Prop) b n a :
  (forall a, Q (f a b)) -> (1 <= n)%nat -> Q (fold_left f (repeat b n) a).
Proof.
  intros Hf Hn. destruct n as [|n]; [lia|].
  simpl repeat. rewrite repeat_cons, fold_left_app. simpl. apply Hf.
Qed.

Lemma filter_map_eqb (sel : Listener -> bool) (f : ElemId -> Listener)
  (e : ElemId) l :
  (forall x, sel (f x) = Nat.eqb x e) ->
  List.filter sel (map f l)
  = repeat (f e) (length (List.filter (fun x => Nat.eqb x e) l)).
Proof.
  intros H. induction l as [|x l IH]; [reflexivity|]. simpl. rewrite H.
  destruct (Nat.eqb_spec x e) as [->|]; simpl; [f_equal|]; exact IH.
Qed.

(** ** Button hover *)

Lemma filter_btns_enter e l :
  List.filter (on_mouseenter e)
    (flat_map (fun btn => [OnBtnMouseenter btn; OnBtnMouseleave btn]) l)
  = repeat (OnBtnMouseenter e)
           (length (List.filter (fun x => Nat.eqb x e) l)).
Proof.
  induction l as [|x l IH]; [reflexivity|]. simpl.
  destruct (Nat.eqb_spec x e) as [->|]; simpl; [f_equal|]; exact IH.
Qed.

Lemma filter_btns_leave e l :
  List.filter (on_mouseleave e)
    (flat_map (fun btn => [OnBtnMouseenter btn; OnBtnMouseleave btn]) l)
  = repeat (OnBtnMouseleave e)
           (length (List.filter (fun x => Nat.eqb x e) l)).
Proof.
  induction l as [|x l IH]; [reflexivity|]. simpl.
  destruct (Nat.eqb_spec x e) as [->|]; simpl; [f_equal|]; exact IH.
Qed.

Lemma script_listeners_mouseenter p h e :
  List.filter (on_mouseenter e) (script_listeners p h)
  = repeat (OnBtnMouseenter e)
           (length (List.filter (fun x => Nat.eqb x e) (q_btns p))).
Proof.
  unfold script_listeners. rewrite !List.filter_app. simpl.
  rewrite !(filter_map_nil (on_mouseenter e)) by reflexivity.
  rewrite filter_btns_enter. simpl. now rewrite app_nil_r.
Qed.

Lemma script_listeners_mouseleave p h e :
  List.filter (on_mouseleave e) (script_listeners p h)
  = repeat (OnBtnMouseleave e)
           (length (List.filter (fun x => Nat.eqb x e) (q_btns p))).
Proof.
  unfold script_listeners. rewrite !List.filter_app. simpl.
  rewrite !(filter_map_nil (on_mouseleave e)) by reflexivity.
  rewrite filter_btns_leave. simpl. now rewrite app_nil_r.
Qed.

Lemma filter_eqb_absent e l :
  ~ In e l -> List.filter (fun x => Nat.eqb x e) l = [].
Proof.
  intros H. apply filter_none. intros x Hx. apply Nat.eqb_neq.
  intros ->. now apply H.
Qed.

Lemma setStyle_transform e v w :
  transform (style (elems (invoke (setStyle e (set_transform v)) w) e)) = v.
Proof.
  unfold invoke, setStyle, update_elem, modify. simpl.
  unfold insert, fn_insert. now rewrite decide_True.
Qed.

(** X3. Entering a button lifts it, and leaving it lets it down to the
    fixed resting transform, whatever transform it had before; hovering an
    element that is no button changes nothing. *)
Theorem button_hover p h evs btn :
  q_hamburger p = Some h ->
  let w0 := run evs (load p) in
  (In btn (q_btns p) ->
   transform (style (elems (handle (EvMouseenter btn) w0) btn))
   = HOVER_TRANSFORM
   /\ transform (style (elems (handle (EvMouseleave btn) w0) btn))
      = REST_TRANSFORM
   /\ transform (style (elems (run [EvMouseenter btn; EvMouseleave btn] w0)
                              btn))
      = REST_TRANSFORM)
  /\ (~ In btn (q_btns p) ->
      handle (EvMouseenter btn) w0 = w0 /\ handle (EvMouseleave btn) w0 = w0).
Proof.
  intros Hh w0.
  assert (Henter : forall evs',
            List.filter (on_mouseenter btn) (listeners (run evs' (load p)))
            = repeat (OnBtnMouseenter btn)
                (length (List.filter (fun x => Nat.eqb x btn) (q_btns p)))).
  { intros evs'.
    rewrite (listeners_reachable (on_mouseenter btn) p h evs' Hh)
      by reflexivity.
    apply script_listeners_mouseenter. }
  assert (Hleave : forall evs',
            List.filter (on_mouseleave btn) (listeners (run evs' (load p)))
            = repeat (OnBtnMouseleave btn)
                (length (List.filter (fun x => Nat.eqb x btn) (q_btns p)))).
  { intros evs'.
    rewrite (listeners_reachable (on_mouseleave btn) p h evs' Hh)
      by reflexivity.
    apply script_listeners_mouseleave. }
  split.
  - intros Hin. pose proof (filter_eqb_length btn _ Hin) as Hn.
    split; [|split].
    + cbn [handle]. unfold dispatch, w0. rewrite Henter.
      apply (fold_repeat_last _
               (fun w => transform (style (elems w btn)) = HOVER_TRANSFORM));
        [|exact Hn].
      intros a. apply setStyle_transform.
    + cbn [handle]. unfold dispatch, w0. rewrite Hleave.
      apply (fold_repeat_last _
               (fun w => transform (style (elems w btn)) = REST_TRANSFORM));
        [|exact Hn].
      intros a. apply setStyle_transform.
    + change (run [EvMouseenter btn; EvMouseleave btn] w0)
        with (handle (EvMouseleave btn) (run [EvMouseenter btn] w0)).
      unfold w0. rewrite <- run_app.
      cbn [handle]. unfold dispatch. rewrite Hleave.
      apply (fold_repeat_last _
               (fun w => transform (style (elems w btn)) = REST_TRANSFORM));
        [|exact Hn].
      intros a. apply setStyle_transform.
  - intros Hout. cbn [handle]. unfold dispatch, w0.
    rewrite Henter, Hleave, filter_eqb_absent by exact Hout.
    split; reflexivity.
Qed.

(** ** Fade-in of images *)

(** Once an image has its load listener it is as the loop leaves it. *)
Lemma each_image_faded p img x :
  preserves (fun w => page w = p
                      /\ (In (OnImgLoad img) (listeners w) -> faded p img w))
            (each_image p x).
Proof.
  intros w [Hp H]. unfold each_image, mbind, JS_bind, setStyle, update_elem,
    addEventListener, modify, mret, JS_ret.
  destruct (complete p x) eqn:E; simpl;
    (split; [exact Hp|]); intros Hin; unfold faded; simpl;
    unfold insert, fn_insert;
    (destruct (decide (x = img)) as [->|Hne];
     [ rewrite ?decide_True by reflexivity; rewrite E; split; reflexivity
     | rewrite ?decide_False by exact Hne;
       apply in_app_iff in Hin as [Hin|[Hin|[]]];
       [exact (H Hin) | congruence] ]).
Qed.

Ltac faded_leaf :=
  lazymatch goal with
  | H : _ /\ (_ -> faded _ _ _) |- _ =>
      let Hpage := fresh "Hpage" in
      let Hf := fresh "Hf" in
      let Hin := fresh "Hin" in
      destruct H as [Hpage Hf]; split; [exact Hpage|];
      simpl; intros Hin;
      try (apply in_app_iff in Hin as [Hin|[Hin|[]]]; [|discriminate Hin]);
      specialize (Hf Hin); unfold faded in *; simpl;
      unfold insert, fn_insert; try case_decide; subst; exact Hf
  end.

Lemma script_faded p img :
  preserves (fun w => page w = p
                      /\ (In (OnImgLoad img) (listeners w) -> faded p img w))
            script.
Proof.
  unfold script. apply preserves_get_bind. intros w [Hp H].
  cbv zeta. rewrite Hp.
  match goal with
  | |- page (snd (?m w)) = _ /\ _ =>
      assert (Hm : preserves
                (fun w => page w = p
                   /\ (In (OnImgLoad img) (listeners w) -> faded p img w)) m)
  end.
  { repeat first
      [ lazymatch goal with
        | |- preserves _ (each_image _ _) => apply each_image_faded
        end
      | preserve_step
      | progress unfold each_btn, setTimer, setInnerHTML, update_elem,
          addEventListener in * ];
      faded_leaf. }
  apply Hm. now split.
Qed.

Lemma script_listeners_load p h e :
  List.filter (on_load e) (script_listeners p h)
  = repeat (OnImgLoad e)
           (length (List.filter (fun x => Nat.eqb x e) (q_images p))).
Proof.
  unfold script_listeners. rewrite !List.filter_app. simpl.
  rewrite (filter_map_eqb (on_load e) OnImgLoad e) by reflexivity.
  rewrite (filter_btns_nil (on_load e)) by reflexivity.
  rewrite !(filter_map_nil (on_load e)) by reflexivity.
  simpl. now rewrite app_nil_r.
Qed.

Lemma setStyle_opacity e v w :
  opacity (style (elems (invoke (setStyle e (set_opacity v)) w) e)) = v.
Proof.
  unfold invoke, setStyle, update_elem, modify. simpl.
  unfold insert, fn_insert. now rewrite decide_True.
Qed.

(** X4. When the script has run, every image of the page has its fade
    transition and is transparent, unless it was complete already; its
    load event makes it opaque, whenever it comes. *)
Theorem image_fade p h img :
  q_hamburger p = Some h ->
  In img (q_images p) ->
  let w := load p in
  opacity (style (elems w img))
  = (if complete p img then js "1" else js "0")
  /\ transition (style (elems w img)) = js "opacity 0.5s ease"
  /\ forall evs,
       opacity (style (elems (handle (EvLoad img) (run evs w)) img)) = js "1".
Proof.
  intros Hh Hin w.
  assert (H : page w = p
              /\ (In (OnImgLoad img) (listeners w) -> faded p img w)).
  { unfold w, load. apply (preserves_invoke _ _ (script_faded p img)).
    - intros w' e H'. exact H'.
    - split; [reflexivity | intros []]. }
  destruct H as [_ H]. destruct H as [Ho Ht].
  { unfold w. destruct (load_ok p h Hh) as (els & -> & _). cbn [listeners].
    unfold script_listeners. rewrite !in_app_iff. do 4 right. left.
    now apply in_map. }
  split; [exact Ho|]. split; [exact Ht|].
  intros evs. cbn [handle]. unfold dispatch, w.
  rewrite (listeners_reachable (on_load img) p h evs Hh) by reflexivity.
  rewrite script_listeners_load.
  apply (fold_repeat_last _
           (fun w => opacity (style (elems w img)) = js "1")).
  - intros a. apply setStyle_opacity.
  - now apply filter_eqb_length.
Qed.

(** ** The index of the Konami detector *)

Lemma keydown_in_range code :
  preserves (fun w => (konamiIndex w < length konamiCode)%nat) (keydown code).
Proof.
  intros w H. change (length konamiCode) with 10%nat in *.
  unfold keydown, mbind, JS_bind, get.
  case_bool_decide as E; [|simpl; lia].
  unfold modify at 1. cbv beta iota.
  change (length konamiCode) with 10%nat.
  case_bool_decide as E'; simpl in *; lia.
Qed.

(** X5. Whatever keys and other events come, the index stays inside the
    sequence: [konamiCode[konamiIndex]] is never read out of range. *)
Theorem konami_index_in_range p evs :
  (konamiIndex (run evs (load p)) < length konamiCode)%nat.
Proof.
  apply run_simple_invariant.
  - intros ev l. destruct l; simpl; try keydown_event ev;
      lazymatch goal with
      | |- preserves _ (keydown _) => apply keydown_in_range
      | _ => preserve; simpl; auto
      end.
  - intros t cb. destruct cb; simpl; preserve; simpl; auto.
  - intros o es. destruct o; simpl; preserve; simpl; auto.
  - auto.
  - auto.
  - auto.
  - auto.
  - unfold load. apply preserves_invoke; [| auto | simpl; lia].
    unfold script. preserve; simpl; auto; lia.
Qed.

(** ** The Konami detector does not look back *)

Lemma three_first_keys w :
  konamiIndex w = 0%nat ->
  fold_left (fun w code => invoke (keydown code) w)
            (repeat (js "ArrowUp") 3) w = w.
Proof. intros Hi. destruct w; simpl in Hi; subst. reflexivity. Qed.

Lemma first_keys_by_three q w :
  konamiIndex w = 0%nat ->
  fold_left (fun w code => invoke (keydown code) w)
            (repeat (js "ArrowUp") (3 * q)) w = w.
Proof.
  intros Hi. induction q as [|q IH]; [reflexivity|].
  replace (3 * S q)%nat with (3 + 3 * q)%nat by lia.
  rewrite repeat_app, fold_left_app, three_first_keys by exact Hi.
  exact IH.
Qed.

Lemma rest_after_first_keys r w :
  konamiIndex w = 0%nat -> (r < 3)%nat ->
  fold_left (fun w code => invoke (keydown code) w)
            (repeat (js "ArrowUp") r ++ skipn 2 konamiCode) w
  = if (r =? 2)%nat then celebrated w else w.
Proof.
  intros Hi Hr. destruct w; simpl in Hi; subst.
  destruct r as [|[|[|r]]]; [reflexivity | reflexivity | reflexivity | lia].
Qed.

(** X6. A key that breaks the sequence is not looked at again as its first
    key: the sequence with its first key repeated [n] times, in place of
    twice, triggers the effect when [n] leaves the remainder 2 on division
    by 3 (so at 2, 5, 8, ...) and changes nothing otherwise (so at 3 and
    4). *)
Theorem konami_repeated_first_key p h evs n :
  q_hamburger p = Some h ->
  let w := run evs (load p) in
  konamiIndex w = 0%nat ->
  feed (repeat (js "ArrowUp") n ++ skipn 2 konamiCode) w
  = if (n mod 3 =? 2)%nat then celebrated w else w.
Proof.
  intros Hh w Hi.
  assert (Hl : List.filter on_keydown (listeners w) = [OnKeydown]).
  { unfold w. rewrite (listeners_reachable on_keydown p h evs Hh) by reflexivity.
    apply script_listeners_keydown. }
  rewrite feed_keydown by exact Hl.
  rewrite (Nat.div_mod_eq n 3) at 1.
  rewrite repeat_app, <- app_assoc, fold_left_app.
  rewrite first_keys_by_three by exact Hi.
  apply rest_after_first_keys; [exact Hi|].
  apply Nat.mod_upper_bound. lia.
Qed.

(** ** Counters are started once *)





(** ** Computations that return *)

Lemma establishes_ret {A} (P Q : World -> Prop) (a : A) :
  (forall w, P w -> Q w) -> establishes P (mret a) Q.
Proof. intros H w Hw. split; [now exists a | apply H, Hw]. Qed.

Lemma establishes_modify (P Q : World -> Prop) f :
  (forall w, P w -> Q (f w)) -> establishes P (modify f) Q.
Proof. intros H w Hw. split; [now exists tt | apply H, Hw]. Qed.

Lemma establishes_bind {A B} (P Q R : World -> Prop) (m : JS A)
  (k : A -> JS B) :
  establishes P m Q -> (forall a, establishes Q (k a) R) ->
  establishes P (mbind k m) R.
Proof.
  intros Hm Hk w Hw. destruct (Hm w Hw) as [[a Ha] Hq].
  unfold mbind, JS_bind. destruct (m w) as [[a'|e] w']; simpl in *;
    [|discriminate Ha].
  apply Hk, Hq.
Qed.

Lemma establishes_get_bind {B} (P Q : World -> Prop) (k : World -> JS B) :
  (forall w0, P w0 -> establishes (fun w => w = w0) (k w0) Q) ->
  establishes P (mbind k get) Q.
Proof. intros H w Hw. exact (H w Hw w eq_refl). Qed.

Lemma establishes_weaken {A} (P P' Q Q' : World -> Prop) (m : JS A) :
  establishes P m Q -> (forall w, P' w -> P w) -> (forall w, Q w -> Q' w) ->
  establishes P' m Q'.
Proof.
  intros Hm HP HQ w Hw. destruct (Hm w (HP w Hw)) as [Ha Hq].
  split; [exact Ha | apply HQ, Hq].
Qed.

(** A loop keeps what every turn keeps. *)
Lemma establishes_forEach {A} (I : World -> Prop) (l : list A)
  (f : A -> JS unit) :
  (forall x, In x l -> establishes I (f x) I) -> establishes I (forEach l f) I.
Proof.
  induction l as [|x l IH]; intros Hf.
  - now apply establishes_ret.
  - simpl. apply (establishes_bind I I I).
    + apply Hf. now left.
    + intros _. apply IH. intros y Hy. apply Hf. now right.
Qed.

(** A loop leaves for each of its items what the turn of the item makes,
    when the other turns keep it. *)
Lemma establishes_forEach_each {A} (I : World -> Prop)
  (R : A -> World -> Prop) (l : list A) (f : A -> JS unit) :
  (forall y, In y l -> establishes I (f y) (fun w => I w /\ R y w)) ->
  (forall x y, In y l -> establishes (fun w => I w /\ R x w) (f y)
                                     (fun w => I w /\ R x w)) ->
  forall x, In x l ->
    establishes I (forEach l f) (fun w => I w /\ R x w).
Proof.
  intros Hmake Hkeep x. induction l as [|y l IH]; intros Hx; [destruct Hx|].
  simpl. destruct Hx as [->|Hx].
  - apply (establishes_bind I (fun w => I w /\ R x w));
      [apply Hmake; now left|].
    intros _. apply establishes_forEach. intros y Hy. apply Hkeep. now right.
  - apply (establishes_bind I I).
    + eapply establishes_weaken;
        [apply (Hmake y); now left | auto | now intros w []].
    + intros _. apply IH; [| | exact Hx].
      * intros z Hz. apply Hmake. now right.
      * intros z1 z2 Hz. apply Hkeep. now right.
Qed.

Lemma invoke_returns (m : JS unit) w :
  (exists a, fst (m w) = Returned a) -> invoke m w = snd (m w).
Proof.
  intros [a Ha]. unfold invoke. destruct (m w) as [[a'|e] w']; simpl in *;
    [reflexivity | discriminate Ha].
Qed.

(** ** Registration at DOMContentLoaded *)

(** The event runs the one listener of the script. *)
Lemma ready_handler p h evs :
  q_hamburger p = Some h ->
  domContentLoaded (run evs (load p)) = false ->
  handle EvDOMContentLoaded (run evs (load p))
  = invoke domContentLoaded_handler
           (set_domContentLoaded (fun _ => true) (run evs (load p))).
Proof.
  intros Hh Hf. cbn [handle]. rewrite Hf. unfold dispatch.
  cbn [listeners set_domContentLoaded].
  rewrite (listeners_reachable on_domContentLoaded p h evs Hh) by reflexivity.
  rewrite script_listeners_domContentLoaded. reflexivity.
Qed.

Lemma observe_elem_of (e x : ElemId) l : x ∈ l -> x ∈ observe e l.
Proof.
  intros H. unfold observe. case_bool_decide; [exact H|].
  apply elem_of_app. now left.
Qed.

Lemma observe_self (e : ElemId) l : e ∈ observe e l.
Proof.
  unfold observe. case_bool_decide; [assumption|].
  apply elem_of_app. right. apply list_elem_of_here.
Qed.

Lemma observe_inv (e x : ElemId) l : x ∈ observe e l -> x ∈ l \/ x = e.
Proof.
  unfold observe. case_bool_decide; [now left|].
  intros [Hx|Hx%list_elem_of_singleton]%elem_of_app; [now left | now right].
Qed.

(** The turn of the loop over the animated elements. *)
Lemma reveal_turn_makes y :
  establishes (fun _ => True)
    (setStyle y (set_opacity HIDDEN_OPACITY);;
     setStyle y (set_transform HIDDEN_TRANSFORM);;
     setStyle y (set_transition REVEAL_TRANSITION);;
     modify (set_observed (observe y)))
    (fun w => True /\ registered y w).
Proof.
  intros w _. split; [now exists tt|]. split; [exact I|].
  unfold registered. simpl. unfold insert, fn_insert.
  rewrite !decide_True by reflexivity. simpl.
  repeat split. apply observe_self.
Qed.

Lemma reveal_turn_keeps x y :
  establishes (fun w => True /\ registered x w)
    (setStyle y (set_opacity HIDDEN_OPACITY);;
     setStyle y (set_transform HIDDEN_TRANSFORM);;
     setStyle y (set_transition REVEAL_TRANSITION);;
     modify (set_observed (observe y)))
    (fun w => True /\ registered x w).
Proof.
  intros w [_ (H1 & H2 & H3 & H4)]. split; [now exists tt|]. split; [exact I|].
  unfold registered. simpl. unfold insert, fn_insert.
  destruct (Nat.eq_dec y x) as [->|Hne].
  - rewrite !decide_True by reflexivity. simpl.
    repeat split. apply observe_self.
  - rewrite !decide_False by exact Hne.
    repeat split; try assumption. now apply observe_elem_of.
Qed.

(** X8. When the document gets ready, every element that the selector of
    the animated sections matches is hidden, moved 30px down, given its
    transition and observed. *)
Theorem reveal_registration p h evs el :
  q_hamburger p = Some h ->
  In el (q_animated p) ->
  let w0 := run evs (load p) in
  domContentLoaded w0 = false ->
  let w := handle EvDOMContentLoaded w0 in
  opacity (style (elems w el)) = js "0"
  /\ transform (style (elems w el)) = js "translateY(30px)"
  /\ transition (style (elems w el))
     = js "opacity 0.6s ease, transform 0.6s ease"
  /\ el ∈ observed w
  /\ errors w = errors w0.
Proof.
  intros Hh Hin w0 Hf w.
  assert (Hp : page w0 = p) by apply page_reachable.
  assert (H : establishes (fun w' => w' = set_domContentLoaded (fun _ => true) w0)
                domContentLoaded_handler
                (fun w' => registered el w' /\ errors w' = errors w0)).
  { unfold domContentLoaded_handler.
    apply establishes_get_bind. intros w1 ->. cbv zeta.
    cbn [page set_domContentLoaded]. rewrite Hp.
    apply (establishes_bind _
             (fun w' => registered el w' /\ errors w' = errors w0)).
    - apply (establishes_weaken
               (fun w' => errors w' = errors w0) _
               (fun w' => errors w' = errors w0 /\ registered el w')).
      + apply (establishes_forEach_each _ (fun x w' => registered x w'));
          [| |exact Hin].
        * intros y _ w' Hw'. destruct (reveal_turn_makes y w' I) as [Ha [_ Hr]].
          split; [exact Ha|]. split; [exact Hw' | exact Hr].
        * intros x y _ w' [Hw' Hr].
          destruct (reveal_turn_keeps x y w' (conj I Hr)) as [Ha [_ Hr']].
          split; [exact Ha|]. split; [exact Hw' | exact Hr'].
      + now intros w' ->.
      + now intros w' [].
    - intros _.
      apply (establishes_bind _
               (fun w' => registered el w' /\ errors w' = errors w0)).
      + apply establishes_modify. now intros w' [].
      + intros _. apply establishes_forEach. intros stat _.
        apply establishes_get_bind. intros w2 Hw2.
        case_bool_decide.
        * apply establishes_modify. now intros w' ->.
        * apply establishes_ret. now intros w' ->. }
  destruct (H _ eq_refl) as [Ha [(H1 & H2 & H3 & H4) He]].
  unfold w. unfold w0 in *. rewrite (ready_handler p h evs Hh Hf).
  rewrite (invoke_returns _ _ Ha). now repeat split.
Qed.

Lemma textContent_content e e' :
  content e = content e' -> textContent e = textContent e'.
Proof. unfold textContent. now intros ->. Qed.

(** X9. When the document gets ready, the observer of the counters gets as
    targets exactly the counters whose text is not the infinite sign; no
    text is changed. *)
Theorem counters_registration p h evs el :
  q_hamburger p = Some h ->
  let w0 := run evs (load p) in
  domContentLoaded w0 = false ->
  let w := handle EvDOMContentLoaded w0 in
  (el ∈ statsObserved w
   <-> In el (q_stats p) /\ textContent (elems w0 el) <> INFINITY_SIGN)
  /\ textContent (elems w el) = textContent (elems w0 el).
Proof.
  intros Hh w0 Hf w.
  assert (Hp : page w0 = p) by apply page_reachable.
  pose (I := fun w' : World =>
               forall e, content (elems w' e) = content (elems w0 e)).
  pose (J := fun w' : World =>
               I w' /\ forall s, s ∈ statsObserved w' ->
                         In s (q_stats p)
                         /\ textContent (elems w0 s) <> INFINITY_SIGN).
  pose (R := fun (s : ElemId) (w' : World) =>
               textContent (elems w0 s) <> INFINITY_SIGN ->
               s ∈ statsObserved w').
  assert (Hturn : forall x y, In y (q_stats p) ->
            forall w', J w' ->
              let m := (w1 ← get;
                        if bool_decide (textContent (elems w1 y)
                                        ≠ INFINITY_SIGN)
                        then modify (set_statsObserved (observe y))
                        else mret tt) : JS unit in
              (exists a, fst (m w') = Returned a)
              /\ J (snd (m w')) /\ R y (snd (m w'))
              /\ (R x w' -> R x (snd (m w')))).
  { intros x y Hy w' [HI HJ] m. subst m.
    unfold mbind, JS_bind, get.
    rewrite (textContent_content _ _ (HI y)).
    case_bool_decide as E; simpl; (split; [now exists tt|]).
    - split; [split; [exact HI|]|split].
      + intros s [Hs| ->]%observe_inv; [now apply HJ | now split].
      + intros _. apply observe_self.
      + intros HR Hx. apply observe_elem_of, HR, Hx.
    - split; [split; [exact HI | exact HJ]|split].
      + intros Hy'. contradiction.
      + auto. }
  assert (H : establishes
                (fun w' => w' = set_domContentLoaded (fun _ => true) w0)
                domContentLoaded_handler
                (fun w' => J w' /\ (In el (q_stats p) -> R el w'))).
  { unfold domContentLoaded_handler.
    apply establishes_get_bind. intros w1 ->. cbv zeta.
    cbn [page set_domContentLoaded]. rewrite Hp.
    apply (establishes_bind _ I).
    - apply (establishes_weaken I _ I); [|now intros w' -> | auto].
      apply establishes_forEach. intros y _ w' Hw'.
      split; [now exists tt|]. intros e. rewrite <- (Hw' e). simpl.
      unfold insert, fn_insert. destruct (Nat.eq_dec y e) as [->|Hne].
      + now rewrite !decide_True by reflexivity.
      + now rewrite !decide_False by exact Hne.
    - intros _. apply (establishes_bind _ J).
      + apply establishes_modify. intros w' Hw'. split; [exact Hw'|].
        simpl. intros s Hs. now apply not_elem_of_nil in Hs.
      + intros _. destruct (in_dec Nat.eq_dec el (q_stats p)) as [Hin|Hout].
        * apply (establishes_weaken J _ (fun w' => J w' /\ R el w'));
            [|auto | now intros w' []].
          apply (establishes_forEach_each J R); [| |exact Hin].
          -- intros y Hy w' Hw'.
             destruct (Hturn y y Hy w' Hw') as (Ha & HJ' & HR' & _).
             split; [exact Ha | now split].
          -- intros x y Hy w' [Hw' HR].
             destruct (Hturn x y Hy w' Hw') as (Ha & HJ' & _ & HR').
             split; [exact Ha | split; [exact HJ' | now apply HR']].
        * apply (establishes_weaken J _ J);
            [|auto | intros w' Hw'; split; [exact Hw' | contradiction]].
          apply establishes_forEach. intros y Hy w' Hw'.
          destruct (Hturn y y Hy w' Hw') as (Ha & HJ' & _).
          split; [exact Ha | exact HJ']. }
  destruct (H _ eq_refl) as [Ha [[HI HJ] HR]].
  unfold w. unfold w0 in *. rewrite (ready_handler p h evs Hh Hf).
  rewrite (invoke_returns _ _ Ha). split; [split|].
  - apply HJ.
  - intros [Hin Hne]. now apply HR.
  - apply textContent_content, HI.
Qed.

(** ** The worlds the page can be in *)

(** Listeners are never removed. *)
Lemma listeners_kept_listener l0 ev l :
  preserves (fun w => In l0 (listeners w)) (run_listener ev l).
Proof.
  destruct l; simpl; try keydown_event ev; preserve; simpl;
    try (apply in_app_iff; left); assumption.
Qed.

Lemma listeners_kept_invoke l0 ev l w :
  In l0 (listeners w) -> In l0 (listeners (invoke (run_listener ev l) w)).
Proof.
  apply (preserves_invoke _ _ (listeners_kept_listener l0 ev l)). auto.
Qed.

Lemma fold_listeners_reachable p ev ls w :
  reachable p w -> (forall l, In l ls -> In l (listeners w)) ->
  reachable p (fold_left (fun w l => invoke (run_listener ev l) w) ls w).
Proof.
  revert w. induction ls as [|l ls IH]; intros w Hw Hls; [exact Hw|].
  simpl. apply IH.
  - apply reach_listener; [exact Hw | apply Hls; now left].
  - intros l' Hl'. apply listeners_kept_invoke, Hls. now right.
Qed.

Lemma dispatch_reachable p ev sel w :
  reachable p w -> reachable p (dispatch ev sel w).
Proof.
  intros Hw. unfold dispatch. apply fold_listeners_reachable; [exact Hw|].
  now intros l [Hl _]%List.filter_In.
Qed.

Lemma handle_reachable p ev w : reachable p w -> reachable p (handle ev w).
Proof.
  intros Hw. destruct ev; cbn [handle]; try now apply dispatch_reachable.
  - destruct (domContentLoaded w); [exact Hw|].
    apply dispatch_reachable. now apply reach_ready.
  - revert w Hw. apply fold_left_invariant. intros.
    now apply dispatch_reachable.
  - apply dispatch_reachable. now apply reach_scroll.
  - apply reach_intersection; [exact Hw|].
    apply List.Forall_forall. intros en [_ Hen]%List.filter_In.
    now apply bool_decide_eq_true in Hen.
  - destruct (timers w !! timer) as [[[] d cb]|] eqn:Ht; try exact Hw.
    now apply (reach_interval p timer d).
  - destruct (timers w !! timer) as [[[] d cb]|] eqn:Ht; try exact Hw.
    now apply (reach_timeout p timer d).
Qed.

(** Every world that a sequence of events leaves is one of them. *)
Lemma run_reachable p evs : reachable p (run evs (load p)).
Proof.
  unfold run. apply fold_left_invariant; [|apply reach_load].
  intros. now apply handle_reachable.
Qed.

(** A property of the world after the script that every call keeps holds in
    every world the page can be in. *)
Section ReachableSimple.
Variable p : Page.
Variable P : World -> Prop.
Hypothesis P_listener : forall ev l, preserves P (run_listener ev l).
Hypothesis P_callback : forall t cb, preserves P (run_callback t cb).
Hypothesis P_observer : forall o es, preserves P (observer_of o es).
Hypothesis P_errors :
  forall w e, P w -> P (set_errors (fun es => es ++ [e]) w).
Hypothesis P_scrollY : forall w y, P w -> P (set_scrollY (fun _ => y) w).
Hypothesis P_loaded :
  forall w, P w -> P (set_domContentLoaded (fun _ => true) w).
Hypothesis P_timeout :
  forall w t, P w -> P (set_timers (delete t) w).
Hypothesis P_load : P (load p).

Lemma reachable_simple w : reachable p w -> P w.
Proof.
  induction 1; auto; apply preserves_invoke; auto.
Qed.
End ReachableSimple.

Ltac reachable_by tac :=
  apply reachable_simple;
  [ intros ev l; destruct l; simpl; try keydown_event ev; preserve; tac
  | intros t cb; destruct cb; simpl; preserve; tac
  | intros o es; destruct o; simpl; preserve; tac
  | intros; tac
  | intros; tac
  | intros; tac
  | intros; tac
  | tac ].

Lemma load_page p : page (load p) = p.
Proof. exact (page_reachable p []). Qed.

Lemma reachable_page p w : reachable p w -> page w = p.
Proof.
  revert w. reachable_by ltac:(simpl; auto using load_page).
Qed.

Lemma script_listeners_of_page p h :
  q_hamburger p = Some h ->
  Forall (listener_of_page p) (script_listeners p h).
Proof.
  intros Hh. unfold script_listeners.
  repeat (apply Forall_app; split);
    try (apply List.Forall_forall; intros l [x [<- Hx]]%in_map_iff; exact Hx);
    try (repeat constructor; exact Hh).
  apply List.Forall_forall. intros l [x [Hx Hl]]%in_flat_map.
  destruct Hl as [<-|[<-|[]]]; exact Hx.
Qed.

Lemma load_listeners_of_page p : Forall (listener_of_page p) (listeners (load p)).
Proof.
  destruct (q_hamburger p) as [h|] eqn:Hh.
  - destruct (load_ok p h Hh) as (els & -> & _).
    now apply script_listeners_of_page.
  - rewrite (load_without_hamburger p Hh). constructor.
Qed.

(** Every listener is one that the script registered on an element that its
    selector matched, or the listener of an overlay. *)
Lemma reachable_listeners p w :
  reachable p w -> Forall (listener_of_page p) (listeners w).
Proof.
  revert w.
  reachable_by ltac:(simpl; auto using load_listeners_of_page;
                     try (apply Forall_app; split;
                          [assumption | repeat constructor])).
Qed.

(** ** The timer table *)

Lemma preserves_get_bind' {B} (P : World -> Prop) (k : World -> JS B) :
  (forall w0, P w0 -> preserves P (k w0)) -> preserves P (mbind k get).
Proof. intros H w Hw. exact (H w Hw w Hw). Qed.

Ltac timers_leaf :=
  lazymatch goal with
  | H : timers_of_page _ _ |- timers_of_page _ _ =>
      let HS := fresh "HS" in
      let HT := fresh "HT" in
      let t' := fresh "t'" in
      let tm' := fresh "tm'" in
      let Hold := fresh "Hold" in
      destruct H as [HS HT]; split;
      [ simpl; first [ exact HS | idtac ]
      | intros t' tm'; simpl;
        first
          [ exact (HT t' tm')
          | intros Hold; destruct (HT _ _ Hold); split; [assumption | lia]
          | intros [[<- <-]|[_ Hold]]%lookup_insert_Some;
            [ split; [unfold timer_of_page; simpl; auto | lia]
            | destruct (HT _ _ Hold); split; [assumption | lia] ]
          | intros [_ Hold]%lookup_delete_Some; exact (HT _ _ Hold)
          | idtac ] ]
  end.

Lemma timers_of_page_setTimer p rep ms cb :
  timer_of_page p (mkTimer rep ms cb) ->
  preserves (timers_of_page p) (setTimer rep ms cb).
Proof.
  intros Hk w [HS HT]. unfold setTimer, mbind, JS_bind, get, modify, mret,
    JS_ret. cbn [snd fst]. split; [exact HS|].
  intros t' tm'. simpl.
  intros [[<- <-]|[_ Hold]]%lookup_insert_Some.
  - split; [exact Hk | lia].
  - destruct (HT _ _ Hold). split; [assumption | lia].
Qed.

(** As [preserve], with the calls of [setTimer] taken as a whole. *)
Ltac preserve_timers :=
  repeat first
    [ lazymatch goal with
      | |- preserves _ (setTimer _ _ _) =>
          apply timers_of_page_setTimer;
          [unfold timer_of_page; simpl; now auto]
      end
    | preserve_step
    | progress unfold hamburger_click, navLink_click, anchor_click,
        scroll_navbar, observer_callback, scroll_parallax, typeWriter,
        img_load, konami_end, keydown, activate_easter_egg, btn_mouseenter,
        btn_mouseleave, modal_click, body_removeChild, gallery_click,
        createElement, clearInterval, setInnerHTML, setTextContent, setStyle,
        update_elem, addEventListener in * ].

Lemma timers_of_page_listener p ev l :
  on_domContentLoaded l = false ->
  preserves (timers_of_page p) (run_listener ev l).
Proof.
  intros Hl. destruct l; try discriminate Hl; simpl; try keydown_event ev;
    preserve_timers; timers_leaf.
Qed.

Lemma timers_of_page_ready p :
  preserves (fun w => page w = p /\ timers_of_page p w)
            domContentLoaded_handler.
Proof.
  unfold domContentLoaded_handler.
  apply preserves_get_bind'. intros w0 [Hp0 _]. cbv zeta. rewrite Hp0.
  apply preserves_bind; [|intros _; apply preserves_bind; [|intros _]].
  - preserve;
      match goal with H : _ /\ _ |- _ => destruct H as [? ?] end;
      (split; [assumption | timers_leaf]).
  - apply preserves_modify. intros w [Hp [HS HT]].
    split; [exact Hp|]. split; [|exact HT].
    simpl. intros s Hs. now apply not_elem_of_nil in Hs.
  - apply preserves_forEach_In. intros stat Hstat.
    apply preserves_get_bind'. intros w1 _.
    case_bool_decide; [|apply preserves_ret].
    apply preserves_modify. intros w [Hp [HS HT]].
    split; [exact Hp|]. split; [|exact HT].
    simpl. intros s [Hs| ->]%observe_inv; [now apply HS | exact Hstat].
Qed.

Lemma timers_of_page_counter_tick p t env :
  In (element env) (q_stats p) -> target env <> INFINITY_SIGN ->
  numericTarget env = target_of (target env) ->
  increment env = (numericTarget env / 50)%float ->
  preserves (fun w => timers_of_page p w /\ (t < next_timer w)%nat)
            (counter_tick t env).
Proof.
  intros He Hne Hn Hi. unfold counter_tick. cbv zeta.
  preserve;
    match goal with H : _ /\ _ |- _ => destruct H as [? ?] end;
    (split; [|simpl; assumption]); timers_leaf; now repeat split.
Qed.

Lemma timers_of_page_typeWriter p :
  is_Some (q_heroTitle p) -> preserves (timers_of_page p) typeWriter.
Proof. intros Ht. preserve_timers; timers_leaf. Qed.

Lemma timers_of_page_animateCounter p e :
  In e (q_stats p) -> preserves (timers_of_page p) (animateCounter e).
Proof.
  intros He w Hw. unfold animateCounter, mbind, JS_bind, get.
  case_bool_decide as E; [exact Hw|].
  unfold setTimer, mbind, JS_bind, get, modify, mret, JS_ret. cbn [snd fst].
  destruct Hw as [HS HT]. split; [exact HS|].
  intros t' tm'. simpl.
  intros [[<- <-]|[_ Hold]]%lookup_insert_Some.
  - split; [|lia]. unfold timer_of_page. simpl. repeat split; auto.
  - destruct (HT _ _ Hold). split; [assumption | lia].
Qed.

Lemma timers_of_page_observer p o es :
  Forall (fun en => o = StatsObserver -> In (fst en) (q_stats p)) es ->
  preserves (timers_of_page p) (observer_of o es).
Proof.
  intros Hes. destruct o; simpl.
  - preserve; timers_leaf.
  - unfold statsObserver_callback. apply preserves_forEach_In.
    intros en Hen.
    assert (He : In (fst en) (q_stats p))
      by (exact (proj1 (List.Forall_forall _ _) Hes en Hen eq_refl)).
    destruct (snd en); [|apply preserves_ret].
    apply preserves_bind; [now apply timers_of_page_animateCounter|].
    intros _. apply preserves_modify. intros w [HS HT].
    split; [|exact HT]. simpl. unfold unobserve.
    intros s [_ Hs]%list_elem_of_filter. now apply HS.
Qed.

Lemma timers_of_page_load p : timers_of_page p (load p).
Proof.
  split.
  - rewrite load_statsObserved. intros s Hs. now apply not_elem_of_nil in Hs.
  - intros t tm Ht. destruct (q_hamburger p) as [h|] eqn:Hh.
    + destruct (load_ok p h Hh) as (els & E & _). rewrite E in Ht |- *.
      simpl in Ht |- *. unfold script_timers, script_next_timer in *.
      destruct (q_heroTitle p) eqn:Hq.
      * apply lookup_singleton_Some in Ht as [<- <-].
        split; [|lia]. unfold timer_of_page. simpl. auto.
      * now rewrite lookup_empty in Ht.
    + rewrite (load_without_hamburger p Hh) in Ht. simpl in Ht.
      now rewrite lookup_empty in Ht.
Qed.

Lemma reachable_timers p w : reachable p w -> timers_of_page p w.
Proof.
  induction 1 as [|ev l w Hw IH Hl|t d cb w Hw IH Ht|t d cb w Hw IH Ht
                  |o es w Hw IH Hes|y w Hw IH|w Hw IH].
  - apply timers_of_page_load.
  - destruct (on_domContentLoaded l) eqn:E.
    + destruct l; try discriminate E. simpl.
      assert (H : page w = p /\ timers_of_page p w)
        by (split; [now apply reachable_page | exact IH]).
      apply (preserves_invoke _ _ (timers_of_page_ready p)) in H;
        [apply H | now intros w' e].
    + apply (preserves_invoke _ _ (timers_of_page_listener p ev l E));
        [intros; timers_leaf | exact IH].
  - destruct (proj2 IH _ _ Ht) as [Hk Hlt]. unfold timer_of_page in Hk.
    simpl in Hk. destruct cb as [env| |]; simpl;
      [|destruct Hk as [Hk _]; discriminate Hk
       |destruct Hk as [Hk _]; discriminate Hk].
    destruct Hk as (_ & _ & He & Hne & Hn & Hi).
    assert (H : timers_of_page p w /\ (t < next_timer w)%nat) by now split.
    apply (preserves_invoke _ _
             (timers_of_page_counter_tick p t env He Hne Hn Hi)) in H;
      [apply H | now intros w' e].
  - destruct (proj2 IH _ _ Ht) as [Hk Hlt]. unfold timer_of_page in Hk.
    simpl in Hk.
    assert (Hd : timers_of_page p (set_timers (delete t) w))
      by timers_leaf.
    destruct cb as [env| |]; simpl.
    + destruct Hk as [Hk _]. discriminate Hk.
    + destruct Hk as (_ & _ & Hq).
      apply (preserves_invoke _ _ (timers_of_page_typeWriter p Hq));
        [intros; timers_leaf | exact Hd].
    + apply preserves_invoke; [preserve; timers_leaf
                              | intros; timers_leaf | exact Hd].
  - apply preserves_invoke; [|intros; timers_leaf | exact IH].
    apply timers_of_page_observer.
    eapply Forall_impl; [exact Hes|]. intros en Hen ->. simpl in Hen.
    now apply (proj1 IH).
  - timers_leaf.
  - timers_leaf.
Qed.

(** X10. Every timer that is live at any time is one of the three kinds
    that the script makes, and its identifier has been handed out; the
    observer of the counters observes counters of the page only. *)
Theorem timers_wellformed p evs t tm :
  let w := run evs (load p) in
  timers w !! t = Some tm ->
  (t < next_timer w)%nat
  /\ match callback tm with
     | CounterTick env =>
         repeats tm = true /\ delay tm = 30
         /\ In (element env) (q_stats p)
         /\ target env <> INFINITY_SIGN
         /\ numericTarget env = parseInt (replace PLUS [] (target env))
         /\ increment env = (numericTarget env / 50)%float
     | TypeWriter =>
         repeats tm = false /\ (delay tm = 1000 \/ delay tm = 100)
         /\ is_Some (q_heroTitle p)
     | KonamiEnd => repeats tm = false /\ delay tm = 2000
     end.
Proof.
  intros w Ht.
  destruct (reachable_timers p w (run_reachable p evs)) as [_ H].
  destruct (H t tm Ht) as [Hk Hlt]. split; [exact Hlt | exact Hk].
Qed.

(** ** Exceptions *)

Lemma throws_only_ret {A} ok P (a : A) : throws_only ok P (mret a).
Proof. intros w H. now split. Qed.

Lemma throws_only_throw {A} (ok : Exn -> Prop) P e :
  ok e -> throws_only ok P (@throw A e).
Proof. intros He w H. now split. Qed.

Lemma throws_only_modify ok (P : World -> Prop) f :
  (forall w, P w -> P (f w)) -> throws_only ok P (modify f).
Proof. intros Hf w H. split; [apply Hf, H | exact I]. Qed.

Lemma throws_only_bind {A B} ok P (m : JS A) (k : A -> JS B) :
  throws_only ok P m -> (forall a, throws_only ok P (k a)) ->
  throws_only ok P (mbind k m).
Proof.
  intros Hm Hk w H. unfold mbind, JS_bind.
  destruct (Hm w H) as [Hp He]. destruct (m w) as [[a|e] w']; simpl in *.
  - apply Hk, Hp.
  - now split.
Qed.

Lemma throws_only_get_bind {B} ok (P : World -> Prop) (k : World -> JS B) :
  (forall w0, P w0 -> throws_only ok P (k w0)) ->
  throws_only ok P (mbind k get).
Proof. intros H w Hw. exact (H w Hw w Hw). Qed.

Lemma throws_only_forEach {A} ok P (l : list A) (f : A -> JS unit) :
  (forall x, throws_only ok P (f x)) -> throws_only ok P (forEach l f).
Proof.
  intros Hf. induction l as [|x l IH]; simpl.
  - apply throws_only_ret.
  - apply throws_only_bind; [apply Hf | intros _; exact IH].
Qed.

Lemma throws_only_deref ok P o :
  is_Some o -> throws_only ok P (deref o).
Proof. intros [e ->]. apply throws_only_ret. Qed.

Ltac safe_step :=
  lazymatch goal with
  | |- throws_only _ _ (mret _) => apply throws_only_ret
  | |- throws_only _ _ (throw _) => apply throws_only_throw
  | |- throws_only _ _ (mbind _ get) =>
      apply throws_only_get_bind; intros ? ?
  | |- throws_only _ _ (mbind _ _) => apply throws_only_bind; [|intros ?]
  | |- throws_only _ _ (forEach _ _) => apply throws_only_forEach; intros ?
  | |- throws_only _ _ (modify _) => apply throws_only_modify; intros ? ?
  | |- throws_only _ _ (deref _) => apply throws_only_deref
  | |- throws_only _ _ (if ?b then _ else _) => destruct b
  | |- throws_only _ _ (match ?x with _ => _ end) => destruct x eqn:?
  | |- throws_only _ _ (let _ := _ in _) => cbv zeta
  end.

Ltac safe := repeat first [safe_step | progress unfold_handlers].

(** On a complete page a listener of the page throws nothing, but for the
    listener of an overlay that is no child of the page any more. *)
Lemma listener_throws p ev l :
  complete_page p -> listener_of_page p l ->
  throws_only (fun e => e = NotFoundError) (fun w => page w = p)
              (run_listener ev l).
Proof.
  intros (Hh & Hm & Hn & Ha) Hl. destruct l; simpl; try keydown_event ev; safe;
    simpl; auto;
    try match goal with
        | H : page ?w = p |- is_Some (_ (page ?w)) => now rewrite H
        end;
    exfalso;
    match goal with
    | H : page ?w = p, E : querySelector _ _ = QSyntaxError |- _ =>
        rewrite H in E; revert E
    end;
    exact (proj1 (List.Forall_forall _ _) Ha _ Hl).
Qed.

Lemma callback_throws p t cb :
  (cb = TypeWriter -> is_Some (q_heroTitle p)) ->
  throws_only (fun e => e = NotFoundError) (fun w => page w = p)
              (run_callback t cb).
Proof.
  intros Hq. destruct cb; simpl; safe; simpl; auto.
  match goal with
  | H : page ?w = p |- is_Some (_ (page ?w)) => rewrite H; now apply Hq
  end.
Qed.

Lemma observer_throws p o es :
  throws_only (fun e => e = NotFoundError) (fun w => page w = p)
              (observer_of o es).
Proof. destruct o; simpl; safe; simpl; auto. Qed.

(** No computation touches the list of the reported exceptions. *)
Lemma errors_kept_listener es ev l :
  preserves (fun w => errors w = es) (run_listener ev l).
Proof. destruct l; simpl; try keydown_event ev; preserve; simpl; auto. Qed.

Lemma errors_kept_callback es t cb :
  preserves (fun w => errors w = es) (run_callback t cb).
Proof. destruct cb; simpl; preserve; simpl; auto. Qed.

Lemma errors_kept_observer es o es' :
  preserves (fun w => errors w = es) (observer_of o es').
Proof. destruct o; simpl; preserve; simpl; auto. Qed.

Lemma invoke_errors (ok : Exn -> Prop) P (m : JS unit) w :
  throws_only ok P m -> preserves (fun w' => errors w' = errors w) m ->
  P w -> Forall ok (errors w) -> Forall ok (errors (invoke m w)).
Proof.
  intros Hm He Hw Hes. unfold invoke.
  destruct (Hm w Hw) as [_ Hok]. specialize (He w eq_refl).
  destruct (m w) as [[a|e] w']; simpl in *.
  - now rewrite He.
  - rewrite He. apply Forall_app. split; [exact Hes | now repeat constructor].
Qed.

Lemma reachable_errors p w :
  complete_page p -> reachable p w ->
  Forall (fun e => e = NotFoundError) (errors w).
Proof.
  intros Hc.
  induction 1 as [|ev l w Hw IH Hl|t d cb w Hw IH Ht|t d cb w Hw IH Ht
                  |o es w Hw IH Hes|y w Hw IH|w Hw IH];
    try exact IH.
  - destruct Hc as ([h Hh] & _). destruct (load_ok p h Hh) as (els & -> & _).
    constructor.
  - apply (invoke_errors _ (fun w => page w = p)).
    + apply listener_throws; [exact Hc|].
      exact (proj1 (List.Forall_forall _ _) (reachable_listeners p w Hw) l Hl).
    + apply errors_kept_listener.
    + now apply reachable_page.
    + exact IH.
  - apply (invoke_errors _ (fun w => page w = p)).
    + apply callback_throws. intros ->.
      destruct (proj2 (reachable_timers p w Hw) _ _ Ht) as [Hk _].
      apply Hk.
    + apply errors_kept_callback.
    + now apply reachable_page.
    + exact IH.
  - apply (invoke_errors _ (fun w => page w = p)).
    + apply callback_throws. intros ->.
      destruct (proj2 (reachable_timers p w Hw) _ _ Ht) as [Hk _].
      apply Hk.
    + apply errors_kept_callback.
    + simpl. now apply reachable_page.
    + exact IH.
  - apply (invoke_errors _ (fun w => page w = p)).
    + apply observer_throws.
    + apply errors_kept_observer.
    + now apply reachable_page.
    + exact IH.
Qed.

(** X11. On a complete page no handler ever throws a TypeError or a
    SyntaxError: whatever events come, the only exception that can be
    reported is the NotFoundError of a click on an overlay that has been
    closed. *)
Theorem complete_page_throws_no_type_error p evs :
  complete_page p ->
  Forall (fun e => e = NotFoundError) (errors (run evs (load p))).
Proof.
  intros Hc. apply (reachable_errors p); [exact Hc | apply run_reachable].
Qed.

(** ** Smooth scrolling, over time *)

Lemma trail_kept_listener tr ev l :
  (forall a, l <> OnAnchorClick a) ->
  preserves (fun w => trail w = tr) (run_listener ev l).
Proof.
  intros Hl. destruct l; try (now destruct (Hl anchor)); simpl;
    try keydown_event ev; preserve; simpl; auto.
Qed.

Lemma trail_kept_callback tr t cb :
  preserves (fun w => trail w = tr) (run_callback t cb).
Proof. destruct cb; simpl; preserve; simpl; auto. Qed.

Lemma trail_kept_observer tr o es :
  preserves (fun w => trail w = tr) (observer_of o es).
Proof. destruct o; simpl; preserve; simpl; auto. Qed.

Lemma anchor_trail_ext p w w' :
  trail w' = trail w -> anchor_trail p w -> anchor_trail p w'.
Proof. unfold trail, anchor_trail. intros [= -> ->]. auto. Qed.

Lemma anchor_trail_kept p (m : JS unit) w :
  preserves (fun w' => trail w' = trail w) m ->
  anchor_trail p w -> anchor_trail p (invoke m w).
Proof.
  intros Hm Hw. apply (anchor_trail_ext p w); [|exact Hw].
  apply (preserves_invoke _ _ Hm); auto.
Qed.

Lemma reachable_anchor_trail p w : reachable p w -> anchor_trail p w.
Proof.
  induction 1 as [|ev l w Hw IH Hl|t d cb w Hw IH Ht|t d cb w Hw IH Ht
                  |o es w Hw IH Hes|y w Hw IH|w Hw IH];
    try exact IH.
  - destruct (q_hamburger p) as [h|] eqn:Hh.
    + destruct (load_ok p h Hh) as (els & -> & _).
      split; [constructor | split; [reflexivity | constructor]].
    + rewrite (load_without_hamburger p Hh).
      split; [constructor | split; [reflexivity | constructor]].
  - assert (Hp : page w = p) by now apply reachable_page.
    pose proof (proj1 (List.Forall_forall _ _)
                  (reachable_listeners p w Hw) l Hl) as Hok.
    destruct l;
      try (apply anchor_trail_kept; [|exact IH];
           apply trail_kept_listener; intros a; discriminate).
    simpl in Hok |- *.
    destruct (anchor_click_cases anchor w) as [Hpr Hq]. cbv zeta in Hpr, Hq.
    rewrite Hp in Hq. destruct IH as (H1 & H2 & H3).
    assert (H3' : Forall (fun a => In a (q_anchors p))
                    (prevented (invoke (anchor_click anchor) w))).
    { rewrite Hpr. apply Forall_app. split; [exact H3|].
      now repeat constructor. }
    destruct (querySelector p (href p anchor)) as [target| |] eqn:E;
      destruct Hq as [Hs _]; (split; [|split; [|exact H3']]);
      rewrite Hs, ?Hpr, ?length_app; simpl; try lia; try exact H1.
    apply Forall_app. split; [exact H1|]. repeat constructor.
    exists anchor, target. now repeat split.
  - apply anchor_trail_kept; [apply trail_kept_callback | exact IH].
  - apply anchor_trail_kept; [apply trail_kept_callback | exact IH].
  - apply anchor_trail_kept; [apply trail_kept_observer | exact IH].
Qed.

(** X12. The script scrolls the window for in-page links only: every call
    of [window.scrollTo], at any time, is smooth and goes 80 above the
    element that the [href] of an in-page link selects; the default action
    has been prevented for in-page links only, and no less often than the
    window was scrolled. *)
Theorem scrolls_are_anchor_scrolls p evs :
  let w := run evs (load p) in
  Forall (anchor_scroll p) (scrolls w)
  /\ (length (scrolls w) <= length (prevented w))%nat
  /\ Forall (fun a => In a (q_anchors p)) (prevented w).
Proof. intros w. apply (reachable_anchor_trail p), run_reachable. Qed.

(** ** The children of the page, over time *)






(** ** The mobile menu *)

Lemma toggle_active l : ACTIVE ∈ classList_toggle ACTIVE l <-> ACTIVE ∉ l.
Proof.
  unfold classList_toggle. case_bool_decide as E.
  - split; [|contradiction]. intros [H _]%list_elem_of_filter. contradiction.
  - split; [auto|]. intros _. apply elem_of_app. right.
    apply list_elem_of_here.
Qed.


Lemma remove_active l : ACTIVE ∉ classList_remove ACTIVE l.
Proof.
  unfold classList_remove. intros [H _]%list_elem_of_filter. contradiction.
Qed.


(** New elements are numbered from the first free number of the page on. *)
Lemma reachable_next_id p w : reachable p w -> (fresh0 p <= next_id w)%nat.
Proof.
  revert w. reachable_by ltac:(simpl; auto; try lia).
  unfold load. apply preserves_invoke; [| auto | simpl; lia].
  unfold script. preserve; simpl; auto.
Qed.

(** What the calls other than those of the menu and of the gallery leave of
    the class lists: everything. *)
Ltac classes_leaf :=
  lazymatch goal with
  | H : forall e, classList (elems _ e) = _ |- forall e, _ =>
      let e := fresh "e" in
      intros e; specialize (H e); simpl; unfold insert, fn_insert;
      try case_decide; subst; simpl; exact H
  end.

Lemma classes_kept_listener cl ev l :
  menu_listener l = false -> (forall g, l <> OnGalleryClick g) ->
  preserves (fun w => forall e, classList (elems w e) = cl e)
            (run_listener ev l).
Proof.
  intros Hl Hg. destruct l; try discriminate Hl; try (now destruct (Hg img));
    simpl; try keydown_event ev; preserve; classes_leaf.
Qed.

Lemma classes_kept_callback cl t cb :
  preserves (fun w => forall e, classList (elems w e) = cl e)
            (run_callback t cb).
Proof.
  destruct cb; simpl; preserve; classes_leaf.
Qed.

Lemma classes_kept_observer cl o es :
  preserves (fun w => forall e, classList (elems w e) = cl e)
            (observer_of o es).
Proof. destruct o; simpl; preserve; classes_leaf. Qed.

(** A click on a gallery image leaves the elements that are there as they
    are. *)
Lemma gallery_click_elems img w e :
  (e < next_id w)%nat -> elems (invoke (gallery_click img) w) e = elems w e.
Proof.
  intros He. unfold invoke, gallery_click, createElement, setStyle,
    update_elem, addEventListener, mbind, JS_bind, get, modify, mret, JS_ret.
  simpl. unfold insert, fn_insert.
  rewrite !decide_False by lia. reflexivity.
Qed.

Lemma hamburger_click_run w h m :
  q_hamburger (page w) = Some h -> q_navMenu (page w) = Some m ->
  invoke hamburger_click w
  = set_elems (fun els =>
                 <[m := with_classList (classList_toggle ACTIVE) (els m)]> els)
      (set_elems (fun els =>
                    <[h := with_classList (classList_toggle ACTIVE) (els h)]>
                      els) w).
Proof.
  intros Hh Hm. unfold invoke, hamburger_click, mbind, JS_bind, get.
  rewrite Hh. cbn [deref]. unfold mret, JS_ret, update_elem, modify.
  cbn [page set_elems]. rewrite Hm. reflexivity.
Qed.

Lemma navLink_click_run w h m :
  q_hamburger (page w) = Some h -> q_navMenu (page w) = Some m ->
  invoke navLink_click w
  = set_elems (fun els =>
                 <[m := with_classList (classList_remove ACTIVE) (els m)]> els)
      (set_elems (fun els =>
                    <[h := with_classList (classList_remove ACTIVE) (els h)]>
                      els) w).
Proof.
  intros Hh Hm. unfold invoke, navLink_click, mbind, JS_bind, get.
  rewrite Hh. cbn [deref]. unfold mret, JS_ret, update_elem, modify.
  cbn [page set_elems]. rewrite Hm. reflexivity.
Qed.

(** The handler of the toggle control flips 'active' on the control and on
    the panel, and touches no other element. *)
Lemma hamburger_click_flips w h m :
  q_hamburger (page w) = Some h -> q_navMenu (page w) = Some m -> h <> m ->
  let w' := invoke hamburger_click w in
  (active w' h <-> ~ active w h) /\ (active w' m <-> ~ active w m)
  /\ forall e, e <> h -> e <> m -> elems w' e = elems w e.
Proof.
  intros Hh Hm Hne w'. unfold w'. rewrite (hamburger_click_run w h m Hh Hm).
  unfold active. simpl. unfold insert, fn_insert.
  rewrite ?(decide_False (P := m = h)) by congruence.
  rewrite ?(decide_False (P := h = m)) by congruence.
  rewrite ?(decide_True (P := h = h)) by reflexivity.
  rewrite ?(decide_True (P := m = m)) by reflexivity.
  simpl. split; [apply toggle_active|]. split; [apply toggle_active|].
  intros e H1 H2. rewrite !decide_False by congruence. reflexivity.
Qed.

(** The handler of the links of the menu takes 'active' off both. *)
Lemma navLink_click_closes w h m :
  q_hamburger (page w) = Some h -> q_navMenu (page w) = Some m ->
  let w' := invoke navLink_click w in
  ~ active w' h /\ ~ active w' m.
Proof.
  intros Hh Hm w'. unfold w'. rewrite (navLink_click_run w h m Hh Hm).
  unfold active. simpl. unfold insert, fn_insert.
  rewrite ?(decide_True (P := m = m)) by reflexivity.
  destruct (decide (m = h)) as [->|Hne]; simpl.
  - split; apply remove_active.
  - rewrite ?(decide_True (P := h = h)) by reflexivity.
    split; apply remove_active.
Qed.





Lemma load_classes p e :
  classList (elems (load p) e) = classList (elements0 p e).
Proof.
  revert e. unfold load.
  apply (preserves_invoke
           (fun w => forall e, classList (elems w e)
                               = classList (elements0 p e))).
  - unfold script. preserve; classes_leaf.
  - auto.
  - reflexivity.
Qed.




Lemma classes_kept_invoke (m : JS unit) w :
  preserves (fun w' => forall e, classList (elems w' e)
                                 = classList (elems w e)) m ->
  forall e, classList (elems (invoke m w) e) = classList (elems w e).
Proof.
  intros Hm.
  apply (preserves_invoke
           (fun w' => forall e, classList (elems w' e)
                                = classList (elems w e)) _ Hm); auto.
Qed.

(** What a call of a listener leaves of the class list of an element of
    the page, when the listener is none of the menu. *)
Lemma listener_keeps_classes p ev l w e :
  reachable p w -> menu_listener l = false -> (e < fresh0 p)%nat ->
  classList (elems (invoke (run_listener ev l) w) e) = classList (elems w e).
Proof.
  intros Hw Hl He.
  assert (Hcase : (exists g, l = OnGalleryClick g)
                  \/ forall g, l <> OnGalleryClick g)
    by (destruct l; try (right; intros g; discriminate); left; eauto).
  destruct Hcase as [[g ->]|Hg].
  - cbn [run_listener]. rewrite gallery_click_elems; [reflexivity|].
    pose proof (reachable_next_id p w Hw). lia.
  - apply classes_kept_invoke. now apply classes_kept_listener.
Qed.

Lemma reachable_menu_in_sync p h m w :
  q_hamburger p = Some h -> q_navMenu p = Some m ->
  (h < fresh0 p)%nat -> (m < fresh0 p)%nat ->
  (ACTIVE ∈ classList (elements0 p h) <-> ACTIVE ∈ classList (elements0 p m)) ->
  reachable p w -> (active w h <-> active w m).
Proof.
  intros Hh Hm Hhf Hmf H0.
  induction 1 as [|ev l w Hw IH Hl|t d cb w Hw IH Ht|t d cb w Hw IH Ht
                  |o es w Hw IH Hes|y w Hw IH|w Hw IH];
    try exact IH.
  - unfold active. now rewrite !load_classes.
  - assert (Hp : page w = p) by now apply reachable_page.
    destruct (menu_listener l) eqn:E.
    + destruct l; try discriminate E; cbn [run_listener].
      * destruct (decide (h = m)) as [->|Hne]; [reflexivity|].
        destruct (hamburger_click_flips w h m) as (H1 & H2 & _);
          [now rewrite Hp | now rewrite Hp | exact Hne|].
        rewrite H1, H2. now rewrite IH.
      * destruct (navLink_click_closes w h m) as [H1 H2];
          [now rewrite Hp | now rewrite Hp|].
        tauto.
    + unfold active.
      now rewrite !(listener_keeps_classes p ev l w _ Hw E).
  - unfold active.
    now rewrite !(classes_kept_invoke _ w (classes_kept_callback _ t cb)).
  - unfold active.
    rewrite !(classes_kept_invoke _ _ (classes_kept_callback _ t cb)).
    exact IH.
  - unfold active.
    now rewrite !(classes_kept_invoke _ w (classes_kept_observer _ o es)).
Qed.

(** X15. On a page where the toggle control and the menu panel start out
    alike, both with the class 'active' or both without, they are alike at
    any time: whatever is clicked, the control shows the state of the
    panel. *)
Theorem menu_in_sync p h m evs :
  q_hamburger p = Some h -> q_navMenu p = Some m ->
  (h < fresh0 p)%nat -> (m < fresh0 p)%nat ->
  (js "active" ∈ classList (elements0 p h)
   <-> js "active" ∈ classList (elements0 p m)) ->
  let w := run evs (load p) in
  js "active" ∈ classList (elems w h) <-> js "active" ∈ classList (elems w m).
Proof.
  intros Hh Hm Hhf Hmf H0 w.
  apply (reachable_menu_in_sync p h m w Hh Hm Hhf Hmf H0), run_reachable.
Qed.

(** The listeners at any time: those of the script, then those of
    overlays. *)
Lemma reachable_listeners_shape p h w :
  q_hamburger p = Some h -> reachable p w ->
  exists ms,
    listeners w
    = OnHamburgerClick h :: map OnNavLinkClick (q_navLinks p)
      ++ later_listeners p ms.
Proof.
  intros Hh. revert w.
  reachable_by ltac:(
    try match goal with
        | H : exists ms, _ |- _ =>
            let ms := fresh "ms" in
            let E := fresh "E" in
            destruct H as [ms E]; simpl;
            first [ exists ms; exact E
                  | eexists (ms ++ [_]); rewrite E; unfold later_listeners;
                    rewrite map_app; simpl;
                    rewrite <- !app_assoc; reflexivity ]
        end).
  destruct (load_ok p h Hh) as (els & -> & _). exists []. simpl.
  unfold script_listeners, later_listeners. simpl.
  now rewrite <- !app_assoc, app_nil_r.
Qed.

Lemma later_listeners_no_menu p ms :
  Forall (fun l => menu_listener l = false) (later_listeners p ms).
Proof.
  unfold later_listeners.
  repeat (apply Forall_app; split);
    try (apply List.Forall_forall; intros l [x [<- Hx]]%in_map_iff;
         reflexivity);
    try (repeat constructor).
  apply List.Forall_forall. intros l [x [Hx Hl]]%in_flat_map.
  destruct Hl as [<-|[<-|[]]]; reflexivity.
Qed.

(** The click listeners on one element, in the order they are called: that
    of the toggle control, those of the links of the menu, the others. *)
Lemma click_listeners p h ms e :
  exists rest,
    List.filter (on_click e)
      (OnHamburgerClick h :: map OnNavLinkClick (q_navLinks p)
       ++ later_listeners p ms)
    = (if Nat.eqb h e then [OnHamburgerClick h] else [])
      ++ repeat (OnNavLinkClick e)
                (length (List.filter (fun x => Nat.eqb x e) (q_navLinks p)))
      ++ rest
    /\ Forall (fun l => menu_listener l = false) rest.
Proof.
  exists (List.filter (on_click e) (later_listeners p ms)). split.
  - cbn [List.filter on_click]. rewrite List.filter_app.
    rewrite (filter_map_eqb (on_click e) OnNavLinkClick e) by reflexivity.
    now destruct (Nat.eqb h e).
  - apply List.Forall_forall. intros l [Hl _]%List.filter_In.
    exact (proj1 (List.Forall_forall _ _) (later_listeners_no_menu p ms) l Hl).
Qed.

Lemma fold_app_listeners ev (l1 l2 : list Listener) w :
  fold_left (fun w l => invoke (run_listener ev l) w) (l1 ++ l2) w
  = fold_left (fun w l => invoke (run_listener ev l) w) l2
      (fold_left (fun w l => invoke (run_listener ev l) w) l1 w).
Proof. apply fold_left_app. Qed.

Lemma fold_listeners_kept ev ls l0 w :
  In l0 (listeners w) ->
  In l0 (listeners (fold_left (fun w l => invoke (run_listener ev l) w) ls w)).
Proof.
  revert w. induction ls as [|l ls IH]; intros w H; [exact H|].
  simpl. apply IH. now apply listeners_kept_invoke.
Qed.

(** Listeners that are none of the menu leave the class lists of the
    elements of the page. *)
Lemma fold_keeps_classes p ev ls w e :
  reachable p w -> (forall l, In l ls -> In l (listeners w)) ->
  Forall (fun l => menu_listener l = false) ls -> (e < fresh0 p)%nat ->
  classList (elems (fold_left (fun w l => invoke (run_listener ev l) w) ls w) e)
  = classList (elems w e).
Proof.
  revert w. induction ls as [|l ls IH]; intros w Hw Hin Hls He;
    [reflexivity|].
  apply Forall_cons in Hls as [Hl Hls]. simpl.
  rewrite IH; [| | |exact Hls | exact He].
  - now apply (listener_keeps_classes p).
  - apply reach_listener; [exact Hw | apply Hin; now left].
  - intros l' Hl'. apply listeners_kept_invoke, Hin. now right.
Qed.

(** The listeners of the links of the menu leave the menu closed. *)
Lemma fold_navLinks_close p h m ev e k w :
  q_hamburger p = Some h -> q_navMenu p = Some m ->
  reachable p w -> ((1 <= k)%nat -> In (OnNavLinkClick e) (listeners w)) ->
  (k = 0%nat -> menu_closed h m w) ->
  menu_closed h m
    (fold_left (fun w l => invoke (run_listener ev l) w)
               (repeat (OnNavLinkClick e) k) w).
Proof.
  intros Hh Hm Hw Hin H0. destruct k as [|k]; [now apply H0|].
  simpl repeat. rewrite repeat_cons, fold_left_app. simpl.
  apply navLink_click_closes;
    rewrite (reachable_page p); try assumption;
    (apply fold_listeners_reachable; [exact Hw|]);
    intros l Hl%repeat_spec; subst; apply Hin; lia.
Qed.

(** A click on one element, as far as the menu goes. *)
Lemma dispatch_click_menu p h m ev e w :
  q_hamburger p = Some h -> q_navMenu p = Some m ->
  (h < fresh0 p)%nat -> (m < fresh0 p)%nat ->
  reachable p w ->
  let w' := dispatch ev (on_click e) w in
  (In e (q_navLinks p) -> menu_closed h m w')
  /\ (e <> h -> menu_closed h m w -> menu_closed h m w')
  /\ (e = h -> ~ In h (q_navLinks p) -> h <> m ->
      (active w' h <-> ~ active w h) /\ (active w' m <-> ~ active w m)).
Proof.
  intros Hh Hm Hhf Hmf Hw w'.
  destruct (reachable_listeners_shape p h w Hh Hw) as [ms Hshape].
  destruct (click_listeners p h ms e) as (rest & Hf & Hrest).
  rewrite <- Hshape in Hf.
  assert (Hsub : forall l,
            In l ((if Nat.eqb h e then [OnHamburgerClick h] else [])
                  ++ repeat (OnNavLinkClick e)
                       (length (List.filter (fun x => Nat.eqb x e)
                                            (q_navLinks p)))
                  ++ rest) -> In l (listeners w)).
  { intros l Hl. rewrite <- Hf in Hl. now apply List.filter_In in Hl. }
  unfold w', dispatch. rewrite Hf, !fold_app_listeners.
  set (hs := if Nat.eqb h e then [OnHamburgerClick h] else []) in *.
  set (k := length (List.filter (fun x => Nat.eqb x e) (q_navLinks p))) in *.
  set (wa := fold_left (fun w l => invoke (run_listener ev l) w) hs w).
  set (wb := fold_left (fun w l => invoke (run_listener ev l) w)
                       (repeat (OnNavLinkClick e) k) wa).
  assert (Hwa : reachable p wa).
  { apply fold_listeners_reachable; [exact Hw|].
    intros l Hl. apply Hsub, in_app_iff. now left. }
  assert (Hwb : reachable p wb).
  { apply fold_listeners_reachable; [exact Hwa|].
    intros l Hl. apply fold_listeners_kept, Hsub, in_app_iff. right.
    apply in_app_iff. now left. }
  assert (Hin : forall l, In l rest -> In l (listeners wb)).
  { intros l Hl. do 2 apply fold_listeners_kept. apply Hsub.
    rewrite !in_app_iff. auto. }
  assert (Hnav : (1 <= k)%nat -> In (OnNavLinkClick e) (listeners wa)).
  { intros Hk. apply fold_listeners_kept, Hsub.
    rewrite !in_app_iff. right. left. destruct k; [lia | now left]. }
  assert (Hkeep : forall x, (x < fresh0 p)%nat ->
            classList (elems (fold_left
                                (fun w l => invoke (run_listener ev l) w)
                                rest wb) x)
            = classList (elems wb x)).
  { intros x Hx. now apply (fold_keeps_classes p). }
  assert (Hclosed : menu_closed h m wb ->
            menu_closed h m
              (fold_left (fun w l => invoke (run_listener ev l) w) rest wb)).
  { unfold menu_closed, active. now rewrite !Hkeep. }
  split; [|split].
  - intros He. apply Hclosed.
    apply (fold_navLinks_close p h m ev e k wa Hh Hm Hwa Hnav).
    intros Hk. pose proof (filter_eqb_length e _ He). fold k in H. lia.
  - intros Hne Hc. apply Hclosed.
    apply (fold_navLinks_close p h m ev e k wa Hh Hm Hwa Hnav).
    intros _. unfold wa, hs.
    rewrite (proj2 (Nat.eqb_neq h e)) by congruence. exact Hc.
  - intros -> Hout Hne. unfold active. rewrite !Hkeep by assumption.
    assert (Hk : k = 0%nat)
      by (unfold k; now rewrite filter_eqb_absent).
    unfold wb. rewrite Hk. cbn [repeat fold_left].
    unfold wa, hs. rewrite Nat.eqb_refl. cbn [fold_left run_listener].
    destruct (hamburger_click_flips w h m) as (H1 & H2 & _);
      [now rewrite (reachable_page p) | now rewrite (reachable_page p)
      | exact Hne|].
    split; assumption.
Qed.

(** X16. A click on a link of the menu closes the menu: when the click has
    gone through the link and its ancestors (the toggle control is none of
    them), neither the control nor the panel is 'active', whatever they
    were before, and whatever else listens on the link. *)
Theorem nav_link_closes_menu p h m evs link anc :
  q_hamburger p = Some h -> q_navMenu p = Some m ->
  (h < fresh0 p)%nat -> (m < fresh0 p)%nat ->
  In link (q_navLinks p) ->
  ~ In h anc ->
  let w := handle (EvClick (link :: anc)) (run evs (load p)) in
  (js "active" ∉ classList (elems w h))
  /\ (js "active" ∉ classList (elems w m)).
Proof.
  intros Hh Hm Hhf Hmf Hlink Hanc w.
  pose proof (run_reachable p evs) as Hw0.
  unfold w. cbn [handle fold_left].
  set (ev := EvClick (link :: anc)).
  assert (H1 : reachable p (dispatch ev (on_click link) (run evs (load p)))
               /\ menu_closed h m
                    (dispatch ev (on_click link) (run evs (load p)))).
  { split; [now apply dispatch_reachable|].
    destruct (dispatch_click_menu p h m ev link _ Hh Hm Hhf Hmf Hw0)
      as (Ha & _).
    now apply Ha. }
  revert H1. generalize (dispatch ev (on_click link) (run evs (load p))).
  clear Hw0 w. induction anc as [|a anc IH]; intros w [Hw Hc]; [exact Hc|].
  cbn [fold_left]. apply IH.
  - intros Hin. apply Hanc. now right.
  - split; [now apply dispatch_reachable|].
    destruct (dispatch_click_menu p h m ev a w Hh Hm Hhf Hmf Hw)
      as (_ & Hb & _).
    apply Hb; [|exact Hc]. intros ->. apply Hanc. now left.
Qed.

(** X17. A click on the toggle control flips the menu: the control and the
    panel are 'active' afterwards when they were not before, and the other
    way round. *)
Theorem toggle_click_flips_menu p h m evs :
  q_hamburger p = Some h -> q_navMenu p = Some m ->
  (h < fresh0 p)%nat -> (m < fresh0 p)%nat ->
  h <> m -> ~ In h (q_navLinks p) ->
  let w0 := run evs (load p) in
  let w := handle (EvClick [h]) w0 in
  (js "active" ∈ classList (elems w h)
   <-> js "active" ∉ classList (elems w0 h))
  /\ (js "active" ∈ classList (elems w m)
      <-> js "active" ∉ classList (elems w0 m)).
Proof.
  intros Hh Hm Hhf Hmf Hne Hout w0 w.
  pose proof (run_reachable p evs) as Hw0.
  unfold w. cbn [handle fold_left].
  destruct (dispatch_click_menu p h m (EvClick [h]) h w0 Hh Hm Hhf Hmf Hw0)
    as (_ & _ & Hc).
  now apply Hc.
Qed.


(** ** The numeric target of a literal *)

Lemma digits_fuel_acc f n acc :
  digits_fuel f n acc = digits_fuel f n [] ++ acc.
Proof.
  revert n acc. induction f as [|f IH]; intros n acc; [reflexivity|].
  simpl. destruct (n <? 10); [reflexivity|].
  rewrite IH, (IH _ [_]), <- app_assoc. reflexivity.
Qed.

Lemma digitValue_digit d :
  0 <= d < 10 -> digitValue (48 + d) = Some d.
Proof.
  intros Hd. unfold digitValue.
  replace ((48 <=? 48 + d) && (48 + d <=? 57)) with true
    by (symmetry; apply andb_true_iff; split; apply Z.leb_le; lia).
  f_equal. lia.
Qed.

Lemma digits_fuel_S f n acc :
  digits_fuel (S f) n acc
  = if n <? 10 then (48 + n mod 10) :: acc
    else digits_fuel f (n / 10) ((48 + n mod 10) :: acc).
Proof. reflexivity. Qed.

(** Reading back the digits of [n]. *)
Lemma parseDigits_digits_fuel f n acc :
  0 <= n < 10 ^ Z.of_nat (S f) ->
  parseDigits 10 (digits_fuel (S f) n acc) None
  = parseDigits 10 acc (Some n).
Proof.
  revert n acc. induction f as [|f IH]; intros n acc Hn.
  - change (10 ^ Z.of_nat 1) with 10 in Hn. simpl.
    rewrite (proj2 (Z.ltb_lt n 10)) by lia.
    rewrite Z.mod_small by lia. cbn [parseDigits].
    rewrite digitValue_digit by lia.
    rewrite (proj2 (Z.ltb_lt n 10)) by lia. reflexivity.
  - rewrite digits_fuel_S. destruct (Z.ltb_spec n 10) as [Hlt|Hge].
    + rewrite Z.mod_small by lia. cbn [parseDigits].
      rewrite digitValue_digit by lia.
      rewrite (proj2 (Z.ltb_lt n 10)) by lia. reflexivity.
    + rewrite IH.
      * cbn [parseDigits].
        pose proof (Z.mod_pos_bound n 10 ltac:(lia)) as Hm.
        rewrite digitValue_digit by lia.
        rewrite (proj2 (Z.ltb_lt (n mod 10) 10)) by lia.
        cbn [default]. f_equal. f_equal.
        rewrite (Z.div_mod n 10) at 3 by lia. reflexivity.
      * split; [apply Z.div_pos; lia|].
        apply Z.div_lt_upper_bound; [lia|].
        replace (Z.of_nat (S (S f))) with (Z.succ (Z.of_nat (S f))) in Hn
          by lia.
        rewrite Z.pow_succ_r in Hn by lia. lia.
Qed.

Lemma digits_bound n : 0 <= n -> n < 10 ^ Z.of_nat (S (Z.to_nat (Z.log2 n))).
Proof.
  intros Hn. rewrite Nat2Z.inj_succ, Z2Nat.id by apply Z.log2_nonneg.
  destruct (Z.eq_dec n 0) as [->|Hne]; [reflexivity|].
  pose proof (Z.log2_spec n ltac:(lia)) as [_ H].
  eapply Z.lt_le_trans; [exact H|].
  apply Z.pow_le_mono_l. pose proof (Z.log2_nonneg n). lia.
Qed.

Lemma parseDigits_digits n tail :
  0 <= n ->
  parseDigits 10 (digits n ++ tail) None = parseDigits 10 tail (Some n).
Proof.
  intros Hn. unfold digits. rewrite <- digits_fuel_acc.
  apply parseDigits_digits_fuel. split; [exact Hn | now apply digits_bound].
Qed.



Lemma digits_fuel_are_digits f n acc :
  0 <= n -> Forall is_digit acc -> Forall is_digit (digits_fuel f n acc).
Proof.
  revert n acc. induction f as [|f IH]; intros n acc Hn Hacc; [exact Hacc|].
  simpl. pose proof (Z.mod_pos_bound n 10 ltac:(lia)) as Hm.
  assert (Hd : Forall is_digit ((48 + n mod 10) :: acc))
    by (constructor; [unfold is_digit; lia | exact Hacc]).
  destruct (n <? 10); [exact Hd|].
  apply IH; [apply Z.div_pos; lia | exact Hd].
Qed.

Lemma digits_fuel_nonempty f n acc : digits_fuel (S f) n acc <> [].
Proof.
  revert n acc. induction f as [|f IH]; intros n acc.
  - simpl. now destruct (n <? 10).
  - rewrite digits_fuel_S. destruct (n <? 10); [discriminate | apply IH].
Qed.

Lemma digits_are_digits n :
  0 <= n -> exists d r, digits n = d :: r /\ is_digit d /\ Forall is_digit r.
Proof.
  intros Hn. unfold digits.
  pose proof (digits_fuel_are_digits (S (Z.to_nat (Z.log2 n))) n [] Hn
                ltac:(constructor)) as H.
  pose proof (digits_fuel_nonempty (Z.to_nat (Z.log2 n)) n []) as Hne.
  destruct (digits_fuel _ n []) as [|d r]; [contradiction|].
  apply Forall_cons in H as [Hd Hr]. now exists d, r.
Qed.

Lemma parseInt_digit_head d rest :
  is_digit d ->
  (d = 48 -> match rest with
             | x :: _ => x <> 120 /\ x <> 88
             | [] => True
             end) ->
  parseInt (d :: rest)
  = match parseDigits 10 (d :: rest) None with
    | None => nan
    | Some 0 => zero
    | Some n => Z2float n
    end.
Proof.
  intros Hd Hx.
  assert (H : d = 48 \/ d = 49 \/ d = 50 \/ d = 51 \/ d = 52 \/ d = 53
              \/ d = 54 \/ d = 55 \/ d = 56 \/ d = 57)
    by (unfold is_digit in Hd; lia).
  destruct H as [->|H].
  - specialize (Hx eq_refl). destruct rest as [|x r]; [reflexivity|].
    destruct Hx as [H1 H2]. unfold parseInt.
    change (trimStart (48 :: x :: r)) with (48 :: x :: r). cbv beta iota zeta.
    change (48 =? 45) with false. change (48 =? PLUS) with false.
    cbv beta iota.
    rewrite (proj2 (Z.eqb_neq x 120) H1), (proj2 (Z.eqb_neq x 88) H2).
    reflexivity.
  - repeat (destruct H as [->|H]; [reflexivity|]). subst. reflexivity.
Qed.

Lemma Z2float_0 : Z2float 0 = zero.
Proof. reflexivity. Qed.

(** [parseInt] reads the digits of [n] and stops at what is no digit. *)
Lemma parseInt_digits n tail :
  0 <= n ->
  match tail with [] => True | c :: _ => digitValue c = None end ->
  parseInt (digits n ++ tail) = Z2float n.
Proof.
  intros Hn Htail.
  destruct (digits_are_digits n Hn) as (d & r & E & Hd & Hr).
  assert (Hp : parseDigits 10 (digits n ++ tail) None = Some n).
  { rewrite parseDigits_digits by exact Hn.
    destruct tail as [|c t]; [reflexivity|].
    cbn [parseDigits]. now rewrite Htail. }
  rewrite E in Hp |- *. cbn [app] in Hp |- *.
  rewrite parseInt_digit_head, Hp.
  - destruct n; reflexivity.
  - exact Hd.
  - intros _. destruct r as [|x r].
    + destruct tail as [|c t]; [exact I|]. cbn [app].
      split; intros ->; discriminate Htail.
    + apply Forall_cons in Hr as [Hx _]. unfold is_digit in Hx.
      cbn [app]. lia.
Qed.

Lemma replace_absent c repl s1 s2 :
  ~ In c s1 -> replace c repl (s1 ++ s2) = s1 ++ replace c repl s2.
Proof.
  induction s1 as [|x s1 IH]; intros H; [reflexivity|]. simpl.
  rewrite (proj2 (Z.eqb_neq x c)) by (intros ->; apply H; now left).
  f_equal. apply IH. intros Hin. apply H. now right.
Qed.

Lemma digits_no_plus n : 0 <= n -> ~ In PLUS (digits n).
Proof.
  intros Hn. destruct (digits_are_digits n Hn) as (d & r & -> & Hd & Hr).
  intros Hin.
  assert (H : is_digit PLUS).
  { destruct Hin as [<-|Hin]; [exact Hd|].
    exact (proj1 (List.Forall_forall _ _) Hr _ Hin). }
  unfold is_digit, PLUS in H. lia.
Qed.

Lemma target_of_digits n suffix :
  0 <= n ->
  match replace PLUS [] suffix with
  | [] => True
  | c :: _ => digitValue c = None
  end ->
  target_of (digits n ++ suffix) = Z2float n.
Proof.
  intros Hn Hs. unfold target_of.
  rewrite replace_absent by now apply digits_no_plus.
  now apply parseInt_digits.
Qed.

(** X18. The numeric target of a literal that starts with a number: the
    digits of [n], then anything that does not go on with a digit or a
    letter once its first '+' is removed, count as [n]. So "120+" counts
    as 120, and "1,200+" as 1 and "4.5" as 4. *)
Theorem numeric_target_of_literal n suffix :
  0 <= n ->
  match replace PLUS [] suffix with
  | [] => True
  | c :: _ => digitValue c = None
  end ->
  target_of (digits n ++ suffix) = Z2float n.
Proof. apply target_of_digits. Qed.

(** ** Counters that finish *)

(** Every whole target from 1 to 10000 is reached at tick 50 or 51, by
    evaluation of the sums of binary64 numbers. *)
Lemma lands_table :
  forallb (fun n => lands_at_50_or_51 (Z2float n) (Z2float n / 50)%float)
          (Zrange 1 (Z.to_nat 10000)) = true.
Proof. vm_compute. reflexivity. Qed.

Lemma lands_in_range n :
  1 <= n <= 10000 ->
  (forall k, (1 <= k <= 49)%nat ->
     reached (Z2float n) (Z2float n / 50)%float k = false)
  /\ reached (Z2float n) (Z2float n / 50)%float 51 = true.
Proof.
  intros Hn.
  assert (H : lands_at_50_or_51 (Z2float n) (Z2float n / 50)%float = true).
  { apply (proj1 (forallb_forall _ _) lands_table).
    unfold Zrange. apply in_map_iff. exists (Z.to_nat (n - 1)).
    split; [lia|]. apply in_seq. lia. }
  unfold lands_at_50_or_51 in H. apply andb_true_iff in H as [H1 H2].
  split; [|exact H2]. intros k Hk.
  apply negb_true_iff.
  apply (proj1 (forallb_forall _ _) H1). apply in_seq. lia.
Qed.

Lemma digits_not_infinity n suffix :
  0 <= n -> digits n ++ suffix <> INFINITY_SIGN.
Proof.
  intros Hn. destruct (digits_are_digits n Hn) as (d & r & -> & Hd & _).
  intros [= -> _]. unfold is_digit in Hd. lia.
Qed.

(** X19. A counter whose literal is a whole number from 1 to 10000, with
    or without a '+' after it, finishes: once visible, its interval is
    live for the first 49 ticks, and from tick 51 on it is cleared and the
    text is the literal again. *)
Theorem counter_finishes w el n (plus : bool) m :
  1 <= n <= 10000 ->
  el ∈ statsObserved w ->
  let literal := digits n ++ (if plus then js "+" else []) in
  textContent (elems w el) = literal ->
  let t := next_timer w in
  let w1 := handle (becomes_visible el) w in
  (forall k, (k <= 49)%nat -> is_Some (timers (run (ticks t k) w1) !! t))
  /\ timers (run (ticks t (51 + m)) w1) !! t = None
  /\ textContent (elems (run (ticks t (51 + m)) w1) el) = literal.
Proof.
  intros Hn Ho literal Hx t w1.
  assert (Hne : textContent (elems w el) <> INFINITY_SIGN)
    by (rewrite Hx; apply digits_not_infinity; lia).
  destruct (becomes_visible_starts w el Ho Hne) as (Ht & _ & _).
  fold t w1 in Ht. rewrite Hx in Ht. unfold counter_interval in Ht.
  assert (Hnt : parseInt (replace PLUS [] literal) = Z2float n).
  { apply (target_of_digits n); [lia|]. now destruct plus. }
  rewrite Hnt in Ht.
  destruct (lands_in_range n Hn) as [Hlow Hhigh].
  split; [|].
  - intros k Hk.
    destruct (ticks_running t el literal _ _ k w1 Ht) as [Hk' _].
    + intros j Hj. apply Hlow. lia.
    + rewrite Hk'. now eexists.
  - destruct (reached (Z2float n) (Z2float n / 50)%float 50) eqn:E50.
    + replace (51 + m)%nat with (50 + S m)%nat by lia.
      apply (ticks_reached t el literal _ _ 49 (S m) w1 Ht); [|exact E50].
      intros k Hk. apply Hlow. lia.
    + apply (ticks_reached t el literal _ _ 50 m w1 Ht); [|exact Hhigh].
      intros k Hk. destruct (Nat.eq_dec k 50%nat) as [->|]; [exact E50|].
      apply Hlow. lia.
Qed.

(** ** Reveal on intersection *)

Lemma reveal_turn_reveals (en : ElemId * bool) w :
  let w' := snd ((if snd en
                  then setStyle (fst en) (set_opacity REVEALED_OPACITY);;
                       setStyle (fst en) (set_transform REVEALED_TRANSFORM)
                  else mret tt) w) in
  (snd en = true -> opaque (fst en) w' /\ in_place (fst en) w')
  /\ (forall el, opaque el w /\ in_place el w ->
                 opaque el w' /\ in_place el w')
  /\ (forall el, (snd en = true -> fst en <> el) ->
                 elems w' el = elems w el).
Proof.
  destruct en as [e [|]]; cbn [fst snd]; unfold opaque, in_place.
  - simpl. unfold insert, fn_insert. rewrite !decide_True by reflexivity.
    split; [now split|]. split.
    + intros el [H1 H2]. destruct (decide (e = el)) as [->|Hne]; simpl;
        [now split | now split].
    + intros el Hne. rewrite !decide_False by (now apply Hne). reflexivity.
  - simpl. split; [discriminate|]. split; [auto | reflexivity].
Qed.

(** X20. An intersection report reveals the observed elements that it
    reports as intersecting, and touches no other element. *)
Theorem reveal_on_intersection w es el :
  let w' := handle (EvIntersection RevealObserver es) w in
  (el ∈ observed w -> In (el, true) es ->
   opacity (style (elems w' el)) = js "1"
   /\ transform (style (elems w' el)) = js "translateY(0)")
  /\ ((el ∈ observed w -> ~ In (el, true) es) ->
      elems w' el = elems w el).
Proof.
  intros w'. unfold w'.
  cbn [handle observer_of observed_by].
  set (es' := List.filter
                (fun en => bool_decide (fst en ∈ observed w)) es).
  assert (Hret : forall l w0,
            exists a, fst (observer_callback l w0) = Returned a).
  { intros l. unfold observer_callback.
    induction l as [|[e b] l IH]; intros w0; [now exists tt|].
    cbn [forEach fst snd]. unfold mbind, JS_bind.
    destruct b; cbn; apply IH. }
  rewrite (invoke_returns _ _ (Hret es' w)).
  split.
  - intros Ho Hin.
    assert (Hin' : In (el, true) es').
    { apply List.filter_In. split; [exact Hin|].
      now apply bool_decide_eq_true_2. }
    assert (H : establishes (fun _ => True) (observer_callback es')
                  (fun w' => True
                     /\ (snd (el, true) = true ->
                         opaque (fst (el, true)) w'
                         /\ in_place (fst (el, true)) w'))).
    { unfold observer_callback.
      apply (establishes_forEach_each (fun _ => True)
               (fun (en : ElemId * bool) w' =>
                  snd en = true ->
                  opaque (fst en) w' /\ in_place (fst en) w'));
        [| |exact Hin'].
      - intros y _ w0 _.
        destruct (reveal_turn_reveals y w0) as (H1 & _ & _).
        split; [|split; [exact I | exact H1]].
        destruct y as [e []]; now exists tt.
      - intros x y _ w0 [_ Hx].
        destruct (reveal_turn_reveals y w0) as (_ & H2 & _).
        split; [|split; [exact I|]].
        + destruct y as [e []]; now exists tt.
        + intros Hs. apply H2. now apply Hx. }
    destruct (H w I) as [_ [_ H12]]. exact (H12 eq_refl).
  - intros Hout.
    assert (H : preserves (fun w' => elems w' el = elems w el)
                  (observer_callback es')).
    { unfold observer_callback. apply preserves_forEach_In.
      intros en Hen w0 Hw0.
      apply List.filter_In in Hen as [Hen Hobs].
      apply bool_decide_eq_true in Hobs.
      destruct (reveal_turn_reveals en w0) as (_ & _ & H3).
      cbv zeta in H3. rewrite H3; [exact Hw0|].
      intros Hs <-. apply (Hout Hobs).
      destruct en as [e b]. simpl in Hs. now subst. }
    exact (H w eq_refl).
Qed.

(** ** The easter egg, over time *)

(** X21. The style sheet with the keyframes is added to the head once, by
    the script; the animation of the body is unset or the rainbow, whose
    name the keyframes define; every message shown is the celebration. *)
Theorem style_sheet_injected_once p h evs :
  q_hamburger p = Some h ->
  let w := run evs (load p) in
  head_styles w = [rainbowCSS]
  /\ (animation (body_style w) = []
      \/ animation (body_style w) = js "rainbow 2s infinite")
  /\ Forall (fun msg => msg = CELEBRATION) (alerts w).
Proof.
  intros Hh w. unfold w. pattern (run evs (load p)).
  apply run_simple_invariant.
  - intros ev l. destruct l; simpl; try keydown_event ev; preserve; simpl; auto;
      match goal with H : _ /\ _ /\ _ |- _ => destruct H as (? & ? & ?) end;
      auto.
  - intros t cb. destruct cb; simpl; preserve; simpl; auto;
      match goal with H : _ /\ _ /\ _ |- _ => destruct H as (? & ? & ?) end;
      repeat split; auto.
    apply Forall_app. split; [assumption | now repeat constructor].
  - intros o es. destruct o; simpl; preserve; simpl; auto.
  - auto.
  - auto.
  - auto.
  - auto.
  - destruct (load_ok p h Hh) as (els & -> & _). simpl. auto.
Qed.

(** ** The targets of the observer of the animated sections *)







(** ** What the script writes to *)









(** ** What the script rewrites *)









(** ** What the overlay shows *)

Ltac look_leaf :=
  lazymatch goal with
  | H : forall e, look _ e = _ |- forall e, look _ e = _ =>
      let e := fresh "e" in
      intros e; specialize (H e); unfold look in *; simpl;
      unfold insert, fn_insert; try case_decide; subst; simpl; exact H
  end.

(** The click listeners that are none of the lightbox leave every [src] and
    every [cssText]. *)
Lemma look_kept_listener lk ev x l :
  on_click x l = true -> lightbox_listener l = false ->
  preserves (fun w => forall e, look w e = lk e) (run_listener ev l).
Proof.
  intros Hc Hl. destruct l; try discriminate Hc; try discriminate Hl;
    simpl; preserve; look_leaf.
Qed.

Lemma fold_look_kept ev x ls w :
  Forall (fun l => on_click x l = true /\ lightbox_listener l = false) ls ->
  let w' := fold_left (fun w l => invoke (run_listener ev l) w) ls w in
  (forall e, look w' e = look w e) /\ stage w' = stage w.
Proof.
  revert w. induction ls as [|l ls IH]; intros w Hls; [now split|].
  apply Forall_cons in Hls as [[Hc Hl] Hls]. simpl.
  destruct (IH (invoke (run_listener ev l) w) Hls) as [IH1 IH2].
  cbv zeta in IH1, IH2. split.
  - intros e. rewrite IH1.
    apply (preserves_invoke _ _
             (look_kept_listener (look w) ev x l Hc Hl)); auto.
  - rewrite IH2.
    assert (H : stage (invoke (run_listener ev l) w) = stage w
                /\ page (invoke (run_listener ev l) w) = page w).
    { apply (preserves_invoke _ _
               (stage_kept_listener (stage w) (page w) ev l Hl)); auto. }
    apply H.
Qed.

Lemma gallery_click_look img w :
  (img < next_id w)%nat ->
  let w' := invoke (gallery_click img) w in
  look w' (next_id w) = ([], MODAL_CSS)
  /\ look w' (S (next_id w)) = (src (elems w img), MODAL_IMG_CSS)
  /\ forall e, (e < next_id w)%nat -> look w' e = look w e.
Proof.
  intros Himg. cbv zeta. unfold look. split; [|split].
  - unfold invoke, gallery_click, createElement, setStyle, update_elem,
      addEventListener, mbind, JS_bind, get, modify, mret, JS_ret.
    simpl. unfold insert, fn_insert.
    rewrite !(decide_False (P := S (next_id w) = next_id w)) by lia.
    rewrite !decide_True by reflexivity. reflexivity.
  - unfold invoke, gallery_click, createElement, setStyle, update_elem,
      addEventListener, mbind, JS_bind, get, modify, mret, JS_ret.
    simpl. unfold insert, fn_insert.
    rewrite !decide_True by reflexivity. simpl.
    rewrite !(decide_False (P := S (next_id w) = img)) by lia.
    rewrite !(decide_False (P := next_id w = img)) by lia.
    reflexivity.
  - intros e He. now rewrite gallery_click_elems.
Qed.

Lemma filter_single_split {A} (f : A -> bool) (l : list A) x :
  List.filter f l = [x] ->
  exists l1 l2, l = l1 ++ x :: l2
                /\ Forall (fun y => f y = false) l1
                /\ Forall (fun y => f y = false) l2.
Proof.
  induction l as [|y l IH]; [discriminate|]. simpl.
  destruct (f y) eqn:E.
  - intros [= -> Hl]. exists [], l. split; [reflexivity|].
    split; [constructor|]. clear IH.
    induction l as [|z l IH]; [constructor|]. simpl in Hl.
    destruct (f z) eqn:Ez; [discriminate|]. constructor; auto.
  - intros Hl. destruct (IH Hl) as (l1 & l2 & -> & H1 & H2).
    exists (y :: l1), l2. split; [reflexivity|]. split; [|exact H2].
    now constructor.
Qed.

(** X24. The overlay shows the image that was clicked: the image inside it
    has the [src] of the gallery image, and the overlay and its image have
    the two fixed style declarations; the gallery image keeps its [src]. *)
Theorem overlay_shows_clicked_image p h evs g :
  page_wf p ->
  q_hamburger p = Some h ->
  In g (q_galleryImgs p) ->
  let w := run evs (load p) in
  let modal := next_id w in
  let w1 := handle (EvClick [g]) w in
  src (elems w1 (S modal)) = src (elems w g)
  /\ cssText (style (elems w1 (S modal))) = MODAL_IMG_CSS
  /\ cssText (style (elems w1 modal)) = MODAL_CSS
  /\ src (elems w1 g) = src (elems w g).
Proof.
  intros Hwf Hh Hg w modal w1.
  assert (Ho : elements_in_order w)
    by (apply elements_in_order_run, elements_in_order_load, Hwf).
  assert (Hpg : page w = p) by apply page_reachable.
  assert (Hgf : (g < fresh0 (page w))%nat).
  { rewrite Hpg. destruct Hwf as (_ & Hf & _).
    exact (proj1 (List.Forall_forall _ _) Hf g Hg). }
  assert (Hgn : (g < next_id w)%nat) by (destruct Ho as (_ & Hf & _); lia).
  assert (HL : List.filter lightbox_listener
                 (List.filter (on_click g) (listeners w))
               = [OnGalleryClick g]).
  { rewrite (lightbox_on_page_element w g Ho Hgf).
    unfold w. rewrite (listeners_reachable _ p h evs Hh) by reflexivity.
    apply script_listeners_gallery_click; [apply Hwf | exact Hg]. }
  destruct (filter_single_split _ _ _ HL) as (A & B & EL & HA & HB).
  assert (Hclick : forall l, In l (A ++ OnGalleryClick g :: B) ->
                             on_click g l = true).
  { intros l Hl. rewrite <- EL in Hl. now apply List.filter_In in Hl. }
  assert (HA' : Forall (fun l => on_click g l = true
                                 /\ lightbox_listener l = false) A).
  { apply List.Forall_forall. intros l Hl. split.
    - apply Hclick, in_app_iff. now left.
    - exact (proj1 (List.Forall_forall _ _) HA l Hl). }
  assert (HB' : Forall (fun l => on_click g l = true
                                 /\ lightbox_listener l = false) B).
  { apply List.Forall_forall. intros l Hl. split.
    - apply Hclick, in_app_iff. right. now right.
    - exact (proj1 (List.Forall_forall _ _) HB l Hl). }
  unfold w1. cbn [handle fold_left]. unfold dispatch. rewrite EL.
  rewrite fold_left_app. cbn [fold_left run_listener].
  set (ev := EvClick [g]).
  destruct (fold_look_kept ev g A w HA') as [HlA HsA]. cbv zeta in HlA, HsA.
  set (wA := fold_left (fun w l => invoke (run_listener ev l) w) A w) in *.
  assert (HnA : next_id wA = modal) by (unfold stage in HsA; now injection HsA).
  destruct (gallery_click_look g wA) as (Hm & Hi & Hold); [lia|].
  cbv zeta in Hm, Hi, Hold. rewrite HnA in Hm, Hi, Hold.
  destruct (fold_look_kept ev g B (invoke (gallery_click g) wA) HB')
    as [HlB _]. cbv zeta in HlB.
  pose proof (HlB (S modal)) as H1. rewrite Hi in H1.
  pose proof (HlB modal) as H2. rewrite Hm in H2.
  pose proof (HlB g) as H3. rewrite (Hold g Hgn), HlA in H3.
  unfold look in H1, H2, H3.
  injection H1 as H1a H1b. injection H2 as _ H2b. injection H3 as H3a _.
  rewrite H1a, H1b, H2b, H3a.
  pose proof (HlA g) as H4. unfold look in H4. injection H4 as H4 _.
  now rewrite H4.
Qed.

(** ** The numbers that a counter shows *)

Lemma counts_up_table : forallb counts_up (Zrange 1 (Z.to_nat 1000)) = true.
Proof. vm_compute. reflexivity. Qed.

(** A whole number below 1000 is written with its decimal digits. *)
Lemma toString_table :
  forallb (fun z => bool_decide (Number_toString (Z2float z) = digits z))
          (Zrange 0 (Z.to_nat 1000)) = true.
Proof. vm_compute. reflexivity. Qed.

Lemma Zrange_In lo n z : lo <= z < lo + Z.of_nat n -> In z (Zrange lo n).
Proof.
  intros Hz. unfold Zrange. apply in_map_iff. exists (Z.to_nat (z - lo)).
  split; [lia|]. apply in_seq. lia.
Qed.

Lemma Number_toString_whole z :
  0 <= z < 1000 -> Number_toString (Z2float z) = digits z.
Proof.
  intros Hz.
  pose proof (proj1 (forallb_forall _ _) toString_table z
                (Zrange_In 0 (Z.to_nat 1000) z ltac:(lia))) as H.
  now apply bool_decide_eq_true in H.
Qed.

Lemma floor_Z_nonneg x : 0 <= floor_Z x.
Proof.
  unfold floor_Z. destruct (Prim2SF x) as [| | |[|] m e]; try lia.
  destruct (0 <=? e) eqn:E.
  - apply Z.shiftl_nonneg. lia.
  - apply Z.shiftr_nonneg. lia.
Qed.

(** The text of the floor of such a number. *)
Lemma Number_toString_floor x :
  fractional x = true -> floor_Z x < 1000 ->
  Number_toString (Math_floor x) = digits (floor_Z x).
Proof.
  intros Hx Hlt. pose proof (floor_Z_nonneg x) as Hge.
  unfold fractional, floor_Z, Math_floor in *.
  destruct (Prim2SF x) as [s| | |[|] m e] eqn:E; try discriminate Hx.
  - unfold Number_toString. rewrite E. reflexivity.
  - apply Z.ltb_lt in Hx.
    rewrite (proj2 (Z.leb_gt 0 e)) in * by lia.
    apply Number_toString_whole. lia.
Qed.

Lemma counts_up_spec n k :
  1 <= n <= 1000 -> (1 <= k <= 49)%nat ->
  let x := running (Z2float n / 50)%float k in
  fractional x = true /\ floor_Z x < n
  /\ floor_Z (running (Z2float n / 50)%float (pred k)) <= floor_Z x.
Proof.
  intros Hn Hk x.
  pose proof (proj1 (forallb_forall _ _) counts_up_table n
                (Zrange_In 1 (Z.to_nat 1000) n ltac:(lia))) as H.
  unfold counts_up in H.
  pose proof (proj1 (forallb_forall _ _) H k ltac:(apply in_seq; lia)) as Hk'.
  cbv zeta in Hk'. apply andb_true_iff in Hk' as [Hk' H3].
  apply andb_true_iff in Hk' as [H1 H2].
  split; [exact H1|]. split; [now apply Z.ltb_lt | now apply Z.leb_le].
Qed.

Lemma includes_digits_plus n (plus : bool) :
  0 <= n -> includes PLUS (digits n ++ (if plus then js "+" else [])) = plus.
Proof.
  intros Hn. unfold includes. rewrite existsb_app.
  assert (H : existsb (Z.eqb PLUS) (digits n) = false).
  { apply not_true_is_false. intros [c [Hc E]]%existsb_exists.
    apply Z.eqb_eq in E. subst c. now apply (digits_no_plus n). }
  rewrite H. now destruct plus.
Qed.

(** X25. A counter whose literal is a whole number from 1 to 1000, with or
    without a '+' after it, counts up: at each of the first 49 ticks it
    shows the decimal digits of the whole part of the running value (and
    the '+'), a number below the target that never goes down. *)
Theorem counter_counts_up w el n (plus : bool) :
  1 <= n <= 1000 ->
  el ∈ statsObserved w ->
  textContent (elems w el) = digits n ++ (if plus then js "+" else []) ->
  let t := next_timer w in
  let w1 := handle (becomes_visible el) w in
  let shown k := floor_Z (running (Z2float n / 50)%float k) in
  (forall k, (1 <= k <= 49)%nat ->
     textContent (elems (run (ticks t k) w1) el)
     = digits (shown k) ++ (if plus then js "+" else []))
  /\ (forall k, (1 <= k <= 49)%nat -> 0 <= shown k < n)
  /\ (forall j k, (1 <= j <= k)%nat -> (k <= 49)%nat -> shown j <= shown k).
Proof.
  intros Hn Ho Hx t w1 shown.
  set (literal := digits n ++ (if plus then js "+" else [])) in *.
  assert (Hne : textContent (elems w el) <> INFINITY_SIGN)
    by (rewrite Hx; apply digits_not_infinity; lia).
  destruct (becomes_visible_starts w el Ho Hne) as (Ht & _ & _).
  fold t w1 in Ht. rewrite Hx in Ht. unfold counter_interval in Ht.
  assert (Hnt : parseInt (replace PLUS [] literal) = Z2float n).
  { apply (target_of_digits n); [lia|]. now destruct plus. }
  rewrite Hnt in Ht.
  destruct (lands_in_range n ltac:(lia)) as [Hlow _].
  split; [|split].
  - intros k Hk.
    destruct (ticks_running t el literal _ _ k w1 Ht) as [_ Hf].
    { intros j Hj. apply Hlow. lia. }
    rewrite Hf by lia. unfold frame.
    destruct (counts_up_spec n k Hn Hk) as (H1 & H2 & _).
    rewrite Number_toString_floor by (assumption || lia).
    unfold literal. rewrite includes_digits_plus by lia. reflexivity.
  - intros k Hk. destruct (counts_up_spec n k Hn Hk) as (_ & H2 & _).
    split; [apply floor_Z_nonneg | exact H2].
  - intros j k Hjk Hk. induction k as [|k IH]; [lia|].
    destruct (Nat.eq_dec j (S k)) as [->|Hne']; [lia|].
    destruct (counts_up_spec n (S k) Hn ltac:(lia)) as (_ & _ & H3).
    simpl pred in H3. etransitivity; [apply IH; lia | exact H3].
Qed.

(** ** A click on an in-page link *)

Lemma filter_eqb_NoDup e l :
  NoDup l -> In e l -> List.filter (fun x => Nat.eqb x e) l = [e].
Proof.
  intros Hnd. induction Hnd as [|x l Hx Hnd IH]; intros He; [destruct He|].
  simpl. destruct (Nat.eqb_spec x e) as [->|Hne].
  - f_equal. apply filter_eqb_absent. intros Hin. apply Hx.
    now apply list_elem_of_In.
  - destruct He as [->|He]; [contradiction | now apply IH].
Qed.

Lemma script_listeners_anchor_click p h a :
  NoDup (q_anchors p) -> In a (q_anchors p) ->
  List.filter (on_anchor_click a) (script_listeners p h) = [OnAnchorClick a].
Proof.
  intros Hnd Ha. unfold script_listeners. rewrite !List.filter_app. simpl.
  rewrite (filter_map_eqb (on_anchor_click a) OnAnchorClick a) by reflexivity.
  rewrite !(filter_map_nil (on_anchor_click a)) by reflexivity.
  rewrite (filter_btns_nil (on_anchor_click a)) by reflexivity.
  rewrite (filter_eqb_NoDup a _ Hnd Ha). reflexivity.
Qed.

Lemma fold_trail_kept ev ls w :
  Forall (fun l => anchor_listener l = false) ls ->
  trail (fold_left (fun w l => invoke (run_listener ev l) w) ls w) = trail w.
Proof.
  revert w. induction ls as [|l ls IH]; intros w Hls; [reflexivity|].
  apply Forall_cons in Hls as [Hl Hls]. simpl. rewrite IH by exact Hls.
  apply (preserves_invoke (fun w' => trail w' = trail w)); auto.
  apply trail_kept_listener. intros a ->. discriminate Hl.
Qed.

(** X26. A click on an in-page link prevents the default action once and,
    when the [href] of the link selects an element, scrolls the window
    once, smoothly, to 80 above that element; when it selects nothing, the
    window is not scrolled. This is so whatever else listens on the link. *)
Theorem anchor_click_scrolls p h evs a :
  q_hamburger p = Some h ->
  NoDup (q_anchors p) ->
  In a (q_anchors p) ->
  let w0 := run evs (load p) in
  let w := handle (EvClick [a]) w0 in
  prevented w = prevented w0 ++ [a]
  /\ match querySelector p (href p a) with
     | QFound target =>
         scrolls w
         = scrolls w0 ++ [mkScrollTo (offsetTop p target - 80) (js "smooth")]
     | QNull | QSyntaxError => scrolls w = scrolls w0
     end.
Proof.
  intros Hh Hnd Ha w0 w.
  assert (HL : List.filter anchor_listener
                 (List.filter (on_click a) (listeners w0))
               = [OnAnchorClick a]).
  { rewrite filter_filter_andb.
    rewrite (List.filter_ext _ (on_anchor_click a))
      by (intros l; destruct l; simpl;
          rewrite ?andb_true_r, ?andb_false_r; reflexivity).
    unfold w0. rewrite (listeners_reachable _ p h evs Hh) by reflexivity.
    now apply script_listeners_anchor_click. }
  destruct (filter_single_split _ _ _ HL) as (A & B & EL & HA & HB).
  unfold w. cbn [handle fold_left]. unfold dispatch. rewrite EL.
  rewrite fold_left_app. cbn [fold_left run_listener].
  set (ev := EvClick [a]).
  set (wA := fold_left (fun w l => invoke (run_listener ev l) w) A w0).
  assert (HtA : trail wA = trail w0) by now apply fold_trail_kept.
  assert (HpA : page wA = p).
  { apply reachable_page, fold_listeners_reachable; [apply run_reachable|].
    intros l Hl.
    assert (Hin : In l (List.filter (on_click a) (listeners w0)))
      by (rewrite EL; apply in_app_iff; now left).
    now apply List.filter_In in Hin. }
  pose proof (fold_trail_kept ev B (invoke (anchor_click a) wA) HB) as HtB.
  unfold trail in HtA, HtB. injection HtA as HsA HprA.
  injection HtB as HsB HprB.
  destruct (anchor_click_cases a wA) as [Hpr Hq]. cbv zeta in Hpr, Hq.
  rewrite HpA in Hq. rewrite HprB, Hpr, HprA. split; [reflexivity|].
  destruct (querySelector p (href p a)) as [target| |];
    destruct Hq as [Hs _]; rewrite HsB, Hs, HsA; reflexivity.
Qed.

(** ** The typing effect, over time *)

Lemma one_typing_insert_other k tm ts :
  callback tm <> TypeWriter -> one_typing ts -> one_typing (<[k := tm]> ts).
Proof.
  intros Hne H t1 t2 tm1 tm2.
  intros [[<- <-]|[_ H1]]%lookup_insert_Some
         [[<- <-]|[_ H2]]%lookup_insert_Some Hc1 Hc2;
    try contradiction.
  exact (H _ _ _ _ H1 H2 Hc1 Hc2).
Qed.

Lemma one_typing_delete k ts : one_typing ts -> one_typing (delete k ts).
Proof.
  intros H t1 t2 tm1 tm2 [_ H1]%lookup_delete_Some [_ H2]%lookup_delete_Some.
  exact (H _ _ _ _ H1 H2).
Qed.

Lemma no_typing_insert k tm ts :
  no_typing ts -> one_typing (<[k := tm]> ts).
Proof.
  intros H t1 t2 tm1 tm2.
  intros [[<- <-]|[_ H1]]%lookup_insert_Some
         [[<- <-]|[_ H2]]%lookup_insert_Some Hc1 Hc2;
    try reflexivity.
  - now destruct (H _ _ H2).
  - now destruct (H _ _ H1).
  - now destruct (H _ _ H1).
Qed.

Lemma no_typing_one ts : no_typing ts -> one_typing ts.
Proof. intros H t1 t2 tm1 tm2 H1 _ Hc1. now destruct (H _ _ H1). Qed.

Lemma one_typing_taken t tm ts :
  ts !! t = Some tm -> callback tm = TypeWriter ->
  one_typing ts -> no_typing (delete t ts).
Proof.
  intros Ht Hc H t' tm' [Hne H']%lookup_delete_Some Hc'.
  apply Hne. exact (H _ _ _ _ Ht H' Hc Hc').
Qed.

Ltac typing_leaf :=
  lazymatch goal with
  | H : typing_state _ _ |- typing_state _ _ =>
      let H1 := fresh "H" in
      let H2 := fresh "H" in
      let H3 := fresh "H" in
      destruct H as (H1 & H2 & H3);
      split; [exact H1|]; split; [exact H2|]; simpl;
      first [ exact H3
            | apply one_typing_insert_other; [discriminate | exact H3]
            | apply one_typing_delete; exact H3 ]
  end.

Lemma typing_state_listener c ev l :
  preserves (typing_state c) (run_listener ev l).
Proof. destruct l; simpl; try keydown_event ev; preserve; typing_leaf. Qed.

Lemma typing_state_observer c o es :
  preserves (typing_state c) (observer_of o es).
Proof. destruct o; simpl; preserve; typing_leaf. Qed.

Lemma typing_state_counter_tick c t env :
  preserves (typing_state c) (counter_tick t env).
Proof. preserve; typing_leaf. Qed.

Lemma typing_state_konami_end c : preserves (typing_state c) konami_end.
Proof. preserve; typing_leaf. Qed.

(** A call of [typeWriter], when no other is due. *)
Lemma typing_state_typeWriter c w :
  originalText w = c -> (i w <= length c)%nat -> no_typing (timers w) ->
  typing_state c (snd (typeWriter w)).
Proof.
  intros Ho Hi Hn. unfold typeWriter, mbind, JS_bind, get.
  destruct (q_heroTitle (page w)) as [t|]; cbn [deref];
    unfold mret, JS_ret, throw;
    [|split; [exact Ho | split; [exact Hi | now apply no_typing_one]]].
  case_bool_decide as E.
  - unfold setInnerHTML, update_elem, setTimer, mbind, JS_bind, get, modify,
      mret, JS_ret. cbn.
    split; [exact Ho|]. split; [simpl; rewrite Ho in E; lia|].
    simpl. now apply no_typing_insert.
  - split; [exact Ho | split; [exact Hi | now apply no_typing_one]].
Qed.

Lemma typing_state_load p : typing_state (originalText (load p)) (load p).
Proof.
  split; [reflexivity|]. destruct (q_hamburger p) as [h|] eqn:Hh.
  - destruct (load_ok p h Hh) as (els & -> & _). simpl.
    split; [lia|]. unfold script_timers.
    destruct (q_heroTitle p).
    + intros t1 t2 tm1 tm2 [<- _]%lookup_singleton_Some
             [<- _]%lookup_singleton_Some _ _. reflexivity.
    + intros t1 t2 tm1 tm2 H. now rewrite lookup_empty in H.
  - rewrite (load_without_hamburger p Hh). simpl. split; [lia|].
    intros t1 t2 tm1 tm2 H. now rewrite lookup_empty in H.
Qed.

Lemma reachable_typing_state p w :
  reachable p w -> typing_state (originalText (load p)) w.
Proof.
  induction 1 as [|ev l w Hw IH Hl|t d cb w Hw IH Ht|t d cb w Hw IH Ht
                  |o es w Hw IH Hes|y w Hw IH|w Hw IH];
    try exact IH.
  - apply typing_state_load.
  - apply preserves_invoke; [apply typing_state_listener | auto | exact IH].
  - destruct (proj2 (reachable_timers p w Hw) _ _ Ht) as [Hk _].
    unfold timer_of_page in Hk. simpl in Hk.
    destruct cb as [env| |]; simpl;
      [|destruct Hk as [Hk _]; discriminate Hk
       |destruct Hk as [Hk _]; discriminate Hk].
    apply preserves_invoke;
      [apply typing_state_counter_tick | auto | exact IH].
  - destruct IH as (H1 & H2 & H3).
    destruct cb as [env| |]; simpl.
    + apply preserves_invoke; [apply typing_state_counter_tick | auto|].
      split; [exact H1 | split; [exact H2 | now apply one_typing_delete]].
    + assert (Hs : typing_state (originalText (load p))
                     (snd (typeWriter (set_timers (delete t) w)))).
      { apply typing_state_typeWriter; [exact H1 | exact H2|].
        simpl. now apply (one_typing_taken t _ _ Ht). }
      unfold invoke.
      destruct (typeWriter (set_timers (delete t) w)) as [[a|e] w'];
        exact Hs.
    + apply preserves_invoke; [apply typing_state_konami_end | auto|].
      split; [exact H1 | split; [exact H2 | now apply one_typing_delete]].
  - apply preserves_invoke; [apply typing_state_observer | auto | exact IH].
Qed.

(** X27. Whatever events come, the markup that the script captured is
    never assigned again, the index of the typing effect stays within it,
    and at most one call of [typeWriter] is due: the title is typed by one
    chain of timeouts, one unit at a time. *)
Theorem typing_in_step p evs :
  let w := run evs (load p) in
  originalText w = originalText (load p)
  /\ (i w <= length (originalText w))%nat
  /\ one_typing (timers w).
Proof.
  intros w.
  destruct (reachable_typing_state p w (run_reachable p evs))
    as (H1 & H2 & H3).
  split; [exact H1|]. split; [now rewrite H1 | exact H3].
Qed.

(** ** The further properties, on the demo page *)

Lemma toggle_click_flips_menu_witness :
  let w0 := run [] (load demo_page) in
  let w := handle (EvClick [1%nat]) w0 in
  (js "active" ∈ classList (elems w 1%nat)
   <-> js "active" ∉ classList (elems w0 1%nat))
  /\ (js "active" ∈ classList (elems w 2%nat)
      <-> js "active" ∉ classList (elems w0 2%nat)).
Proof.
  apply (toggle_click_flips_menu demo_page 1%nat 2%nat []).
  - reflexivity.
  - reflexivity.
  - simpl. lia.
  - simpl. lia.
  - lia.
  - simpl. intros [H|[]]. lia.
Defined.

Lemma nav_link_closes_menu_witness :
  let w := handle (EvClick [3%nat; 2%nat])
                  (run [EvClick [1%nat]] (load demo_page)) in
  (js "active" ∉ classList (elems w 1%nat))
  /\ (js "active" ∉ classList (elems w 2%nat)).
Proof.
  apply (nav_link_closes_menu demo_page 1%nat 2%nat [EvClick [1%nat]]
           3%nat [2%nat]).
  - reflexivity.
  - reflexivity.
  - simpl. lia.
  - simpl. lia.
  - simpl. now left.
  - simpl. intros [H|[]]. lia.
Defined.

Lemma menu_in_sync_witness :
  let w := run [EvClick [1%nat]] (load demo_page) in
  js "active" ∈ classList (elems w 1%nat)
  <-> js "active" ∈ classList (elems w 2%nat).
Proof.
  apply (menu_in_sync demo_page 1%nat 2%nat [EvClick [1%nat]]).
  - reflexivity.
  - reflexivity.
  - simpl. lia.
  - simpl. lia.
  - simpl. reflexivity.
Defined.


Lemma anchor_click_scrolls_witness :
  let w := handle (EvClick [3%nat]) (run [] (load demo_page)) in
  prevented w = [3%nat]
  /\ scrolls w = [mkScrollTo 520 (js "smooth")].
Proof.
  apply (anchor_click_scrolls demo_page 1%nat [] 3%nat).
  - reflexivity.
  - simpl. apply NoDup_cons. split; [|apply NoDup_singleton].
    rewrite list_elem_of_singleton. lia.
  - simpl. now left.
Defined.


Lemma reveal_registration_witness :
  let w := handle EvDOMContentLoaded (run [] (load demo_page)) in
  opacity (style (elems w 6%nat)) = js "0"
  /\ transform (style (elems w 6%nat)) = js "translateY(30px)"
  /\ transition (style (elems w 6%nat))
     = js "opacity 0.6s ease, transform 0.6s ease"
  /\ 6%nat ∈ observed w
  /\ errors w = errors (run [] (load demo_page)).
Proof.
  apply (reveal_registration demo_page 1%nat [] 6%nat).
  - reflexivity.
  - simpl. now left.
  - reflexivity.
Defined.

Lemma counters_registration_witness :
  let w0 := run [] (load demo_page) in
  let w := handle EvDOMContentLoaded w0 in
  (8%nat ∈ statsObserved w
   <-> In 8%nat (q_stats demo_page)
       /\ textContent (elems w0 8%nat) <> INFINITY_SIGN)
  /\ textContent (elems w 8%nat) = textContent (elems w0 8%nat).
Proof.
  apply (counters_registration demo_page 1%nat [] 8%nat).
  - reflexivity.
  - reflexivity.
Defined.


Lemma numeric_target_of_literal_witness :
  target_of (js "1,200+") = Z2float 1.
Proof.
  apply (numeric_target_of_literal 1 (js ",200+")).
  - lia.
  - reflexivity.
Defined.

Lemma counter_finishes_witness :
  let w1 := handle (becomes_visible 8%nat) demo_ready in
  (forall k, (k <= 49)%nat ->
     is_Some (timers (run (ticks 2 k) w1) !! 2%nat))
  /\ timers (run (ticks 2 (51 + 0)) w1) !! 2%nat = None
  /\ textContent (elems (run (ticks 2 (51 + 0)) w1) 8%nat) = js "120+".
Proof.
  apply (counter_finishes demo_ready 8%nat 120 true 0).
  - lia.
  - vm_compute. repeat constructor.
  - reflexivity.
Defined.

Lemma counter_counts_up_witness :
  let w1 := handle (becomes_visible 14%nat) demo_ready in
  let shown k := floor_Z (running (Z2float 42 / 50)%float k) in
  (forall k, (1 <= k <= 49)%nat ->
     textContent (elems (run (ticks 2 k) w1) 14%nat) = digits (shown k) ++ [])
  /\ (forall k, (1 <= k <= 49)%nat -> 0 <= shown k < 42)
  /\ (forall j k, (1 <= j <= k)%nat -> (k <= 49)%nat -> shown j <= shown k).
Proof.
  apply (counter_counts_up demo_ready 14%nat 42 false).
  - lia.
  - vm_compute. repeat constructor.
  - reflexivity.
Defined.

Lemma timers_wellformed_witness :
  let w := run [EvDOMContentLoaded; becomes_visible 8%nat] (load demo_page) in
  let env := mkCounterEnv 8%nat (js "120+") (Z2float 120)
                          (Z2float 120 / 50)%float 0%float in
  (2 < next_timer w)%nat
  /\ true = true /\ 30 = 30
  /\ In (element env) (q_stats demo_page)
  /\ target env <> INFINITY_SIGN
  /\ numericTarget env = parseInt (replace PLUS [] (target env))
  /\ increment env = (numericTarget env / 50)%float.
Proof.
  apply (timers_wellformed demo_page
           [EvDOMContentLoaded; becomes_visible 8%nat] 2%nat
           (mkTimer true 30
              (CounterTick (mkCounterEnv 8%nat (js "120+") (Z2float 120)
                              (Z2float 120 / 50)%float 0%float)))).
  vm_compute. reflexivity.
Defined.

Lemma typing_result_witness :
  let captured := innerHTML (elements0 demo_page 11%nat) in
  let w := run (typing_timeouts 1 (S (length captured))) (load demo_page) in
  originalText w = captured
  /\ content (elems w 11%nat) = Text (typed captured)
  /\ innerHTML (elems w 11%nat) = escape (typed captured)
  /\ (Forall plain_unit captured -> innerHTML (elems w 11%nat) = captured)
  /\ (In LT captured -> innerHTML (elems w 11%nat) <> captured).
Proof.
  apply (typing_result demo_page 1%nat 11%nat).
  - reflexivity.
  - reflexivity.
Defined.

Lemma image_fade_witness :
  let w := load demo_page in
  opacity (style (elems w 12%nat)) = js "1"
  /\ transition (style (elems w 12%nat)) = js "opacity 0.5s ease"
  /\ forall evs,
       opacity (style (elems (handle (EvLoad 12%nat) (run evs w)) 12%nat))
       = js "1".
Proof.
  apply (image_fade demo_page 1%nat 12%nat).
  - reflexivity.
  - simpl. now left.
Defined.

Lemma konami_repeated_first_key_witness :
  feed (repeat (js "ArrowUp") 3 ++ skipn 2 konamiCode)
       (run [] (load demo_page))
  = run [] (load demo_page)
  /\ feed (repeat (js "ArrowUp") 5 ++ skipn 2 konamiCode)
          (run [] (load demo_page))
     = celebrated (run [] (load demo_page)).
Proof.
  split.
  - apply (konami_repeated_first_key demo_page 1%nat [] 3); reflexivity.
  - apply (konami_repeated_first_key demo_page 1%nat [] 5); reflexivity.
Defined.

Lemma style_sheet_injected_once_witness :
  let w := run (map EvKeydown konamiCode) (load demo_page) in
  head_styles w = [rainbowCSS]
  /\ (animation (body_style w) = []
      \/ animation (body_style w) = js "rainbow 2s infinite")
  /\ Forall (fun msg => msg = CELEBRATION) (alerts w).
Proof.
  apply (style_sheet_injected_once demo_page 1%nat (map EvKeydown konamiCode)).
  reflexivity.
Defined.

Lemma button_hover_witness :
  let w0 := run [] (load demo_page) in
  transform (style (elems (handle (EvMouseenter 13%nat) w0) 13%nat))
  = js "translateY(-3px) scale(1.05)"
  /\ transform (style (elems (run [EvMouseenter 13%nat; EvMouseleave 13%nat]
                                  w0) 13%nat))
     = js "translateY(0) scale(1)"
  /\ handle (EvMouseenter 12%nat) w0 = w0.
Proof.
  destruct (button_hover demo_page 1%nat [] 13%nat eq_refl) as [H _].
  destruct (button_hover demo_page 1%nat [] 12%nat eq_refl) as [_ H'].
  cbv zeta in H, H'.
  destruct H as (H1 & _ & H3); [simpl; now left|].
  destruct H' as [H4 _]; [simpl; intros [E|[]]; lia|].
  split; [exact H1|]. split; [exact H3 | exact H4].
Defined.

Lemma overlay_shows_clicked_image_witness :
  let w := run [] (load demo_page) in
  let w1 := handle (EvClick [12%nat]) w in
  src (elems w1 101%nat) = src (elems w 12%nat)
  /\ cssText (style (elems w1 101%nat)) = MODAL_IMG_CSS
  /\ cssText (style (elems w1 100%nat)) = MODAL_CSS
  /\ src (elems w1 12%nat) = src (elems w 12%nat).
Proof.
  apply (overlay_shows_clicked_image demo_page 1%nat [] 12%nat).
  - exact demo_page_wf.
  - reflexivity.
  - simpl. now left.
Defined.


Lemma complete_page_throws_no_type_error_witness :
  Forall (fun e => e = NotFoundError)
         (errors (run [EvScroll 150%float; EvClick [1%nat]]
                      (load hero_revealed_page))).
Proof.
  apply (complete_page_throws_no_type_error hero_revealed_page).
  unfold complete_page. simpl.
  split; [now exists 1%nat|]. split; [now exists 2%nat|].
  split; [now exists 5%nat | constructor].
Defined.


